(** * Crawl save-file tags: a model of [crawl-ref/source/tags.cc]

    The tag system stores the game state as a sequence of typed chunks.
    Every chunk is built in one process-wide byte buffer ([tagBuffer]) through
    a cursor object ([tagHeader]) and is then framed and flushed to a stream.

    The development follows the source file top-down: the [tagHeader] byte
    primitives, the scalar and string marshallers, the run-length grid codec,
    the public tag functions ([tag_write], [tag_read], [tag_missing]) and the
    two domain routines the statements below need
    ([tag_missing_level_attitude] and [unmarshallGhost]).

    Conventions.
    - C integers are [Z]; a conversion to a narrower type is written out
      ([to_uchar], [to_char], [to_short], [to_int], [to_long]).  [short] is
      16 bits and [int] 32.  [long] and [size_t] are as wide as the platform
      has them: 32 bits (i386, x32) or 64 bits (amd64).  Note 6 of the source
      header fixes the sizes in the file ("1, 2, and 4 for byte, short, and
      long"), not the width of the C types.
    - An access outside an array is undefined in C; the model stops with
      [Fault (OutOfBounds a)] naming the array.
    - Process termination through [end()] is [Fault (Exit code diagnostic)]. *)

From Stdlib Require Import ZArith Lia String.
From stdpp Require Import base tactics option list numbers sets.

Local Open Scope Z_scope.

(** ** Outcomes *)

Inductive array_id : Type :=
  | TagBuffer      (* the global char *tagBuffer *)
  | CallerData     (* the void *data destination handed to tagHeader::read *)
  | GhostValues.   (* ghost_demon::values *)

Inductive fault : Type :=
  | OutOfBounds (a : array_id)
  | Exit (code : Z) (diagnostic : string)
  | OutOfFuel.

Inductive result (A : Type) : Type :=
  | Ok (a : A)
  | Fault (f : fault).
Arguments Ok {A} a.
Arguments Fault {A} f.

(** ** The platform and the headers

    [char] may be signed or unsigned, and [long] (with [size_t]) has 32 or 64
    bits; everything else the functions below take from headers that are not
    part of the sources is collected in [Headers]: the tag enumeration of
    tags.h, and the monster constants of enum.h and externs.h. *)

Class Platform : Type := { char_signed : bool; long_64 : bool }.

Class Headers : Type := {
  TAG_VERSION : Z;
  TAG_YOU : Z;
  TAG_YOU_ITEMS : Z;
  TAG_YOU_DUNGEON : Z;
  TAG_LEVEL : Z;
  TAG_LEVEL_ITEMS : Z;
  TAG_LEVEL_MONSTERS : Z;
  TAG_GHOST : Z;
  TAG_LEVEL_ATTITUDE : Z;
  TAG_LOST_MONSTERS : Z;
  NUM_GHOST_VALUES : Z;
  MHITNOT : Z;
  MF_CREATED_FRIENDLY : Z;
  ENCH_CHARM : Z;
  BEH_SLEEP : Z;
  BEH_WANDER : Z;
  BEH_SEEK : Z;
  BEH_FLEE : Z;
  ATT_HOSTILE : Z;
  ATT_FRIENDLY : Z
}.

(** ** Integer conversions *)

Definition to_uchar (z : Z) : Z := z mod 256.
Definition to_schar (z : Z) : Z := (z + 128) mod 256 - 128.
Definition to_char `{Platform} (z : Z) : Z :=
  if char_signed then to_schar z else to_uchar z.
Definition to_short (z : Z) : Z := (z + 32768) mod 65536 - 32768.
Definition to_int (z : Z) : Z := (z + 2147483648) mod 4294967296 - 2147483648.
Definition to_uint (z : Z) : Z := z mod 4294967296.
Definition to_int64 (z : Z) : Z :=
  (z + 9223372036854775808) mod 18446744073709551616 - 9223372036854775808.
Definition to_uint64 (z : Z) : Z := z mod 18446744073709551616.
Definition to_long `{Platform} (z : Z) : Z :=
  if long_64 then to_int64 z else to_int z.
Definition to_size_t `{Platform} (z : Z) : Z :=
  if long_64 then to_uint64 z else to_uint z.

(** ** Streams (stdio)

    A [FILE] is the content of the file and the position indicator.  The
    stream is opened in binary mode for reading and writing; device errors are
    not modelled. *)

Record FILE : Type := mkFILE { fdata : list Z; fpos : nat }.

Definition EOF : Z := -1.

(** [fgetc]: the next byte as an unsigned char, or [EOF]. *)
Definition fgetc (f : FILE) : Z * FILE :=
  match fdata f !! fpos f with
  | Some c => (to_uchar c, mkFILE (fdata f) (S (fpos f)))
  | None => (EOF, f)
  end.

(** [fwrite(data, 1, count, f)]: the bytes replace or extend the content at
    the position indicator (a gap left by a seek past the end reads as 0). *)
Definition fwrite (data : list Z) (f : FILE) : Z * FILE :=
  let n := length data in
  let padded := fdata f ++ replicate (fpos f - length (fdata f))%nat 0 in
  (Z.of_nat n,
   mkFILE (take (fpos f) padded ++ data ++ drop (fpos f + n)%nat (fdata f))
          (fpos f + n)%nat).

Definition fputc (c : Z) (f : FILE) : FILE := snd (fwrite [to_uchar c] f).

(** [fread(data, 1, count, f)]: at most [count] bytes, fewer at end of file. *)
Definition fread (count : Z) (f : FILE) : list Z * FILE :=
  let got := take (Z.to_nat count) (drop (fpos f) (fdata f)) in
  (got, mkFILE (fdata f) (fpos f + length got)%nat).

(** [fseek(f, skip, SEEK_CUR)]: fails, leaving the position, when the target
    would be negative. *)
Definition fseek_cur (skip : Z) (f : FILE) : FILE :=
  if 0 <=? Z.of_nat (fpos f) + skip
  then mkFILE (fdata f) (Z.to_nat (Z.of_nat (fpos f) + skip))
  else f.

(** ** tagHeader and the tag buffer *)

Record tagHeader : Type := mkTH { tagID : Z; offset : Z; file : option FILE }.

Record machine : Type := mkM { th : tagHeader; tagBuffer : list Z }.

(** Computations over a [tagHeader &th] and the global buffer. *)
Definition M (A : Type) : Type := machine -> result (A * machine).

Definition ret {A} (a : A) : M A := fun s => Ok (a, s).

Definition bind {A B} (m : M A) (k : A -> M B) : M B :=
  fun s => match m s with
           | Ok (a, s') => k a s'
           | Fault f => Fault f
           end.

Definition fail {A} (f : fault) : M A := fun _ => Fault f.

Declare Scope tag_scope.
Delimit Scope tag_scope with tag.
Notation "x <- m ;; k" := (bind m (fun x => k))
  (at level 100, m at next level, k at level 200, right associativity)
  : tag_scope.
Notation "m ;; k" := (bind m (fun _ => k))
  (at level 100, k at level 200, right associativity) : tag_scope.
Local Open Scope tag_scope.

Definition set_offset (o : Z) (t : tagHeader) : tagHeader :=
  mkTH (tagID t) o (file t).
Definition set_file (f : FILE) (t : tagHeader) : tagHeader :=
  mkTH (tagID t) (offset t) (Some f).

(** [tagBuffer[o]] as an lvalue or rvalue. *)
Definition in_buffer (o : Z) (buf : list Z) : bool :=
  (0 <=? o) && (o <? Z.of_nat (length buf)).

(** memcpy(tagBuffer + o, data, |data|) *)
Definition splice (o : Z) (data buf : list Z) : list Z :=
  take (Z.to_nat o) buf ++ data ++ drop (Z.to_nat o + length data) buf.

Definition readByte : M Z := fun s =>
  match file (th s) with
  | Some f =>
      let '(c, f') := fgetc f in
      Ok (to_uchar c, mkM (set_file f' (th s)) (tagBuffer s))
  | None =>
      let o := offset (th s) in
      if in_buffer o (tagBuffer s) then
        Ok (to_uchar (default 0 (tagBuffer s !! Z.to_nat o)),
            mkM (set_offset (o + 1) (th s)) (tagBuffer s))
      else Fault (OutOfBounds TagBuffer)
  end.

Definition writeByte (ch : Z) : M unit := fun s =>
  match file (th s) with
  | Some f => Ok (tt, mkM (set_file (fputc ch f) (th s)) (tagBuffer s))
  | None =>
      let o := offset (th s) in
      if in_buffer o (tagBuffer s) then
        Ok (tt, mkM (set_offset (o + 1) (th s))
                    (<[Z.to_nat o := to_uchar ch]> (tagBuffer s)))
      else Fault (OutOfBounds TagBuffer)
  end.

Section Header.
Context `{Platform}.

(** [tagHeader::write(data, size)]; [data] holds at least [size] bytes. *)
Definition write (data : list Z) (size : Z) : M unit := fun s =>
  let n := to_size_t size in
  let bytes := take (Z.to_nat n) data in
  match file (th s) with
  | Some f => Ok (tt, mkM (set_file (snd (fwrite bytes f)) (th s)) (tagBuffer s))
  | None =>
      let o := offset (th s) in
      if (0 <=? o) && (o + n <=? Z.of_nat (length (tagBuffer s))) then
        Ok (tt, mkM (set_offset (o + n) (th s)) (splice o bytes (tagBuffer s)))
      else Fault (OutOfBounds TagBuffer)
  end.

(** [tagHeader::read(data, size)]: the destination array [data] with its first
    bytes overwritten. *)
Definition read (data : list Z) (size : Z) : M (list Z) := fun s =>
  let n := to_size_t size in
  match file (th s) with
  | Some f =>
      let '(got, f') := fread n f in
      if (length got <=? length data)%nat then
        Ok (got ++ drop (length got) data,
            mkM (set_file f' (th s)) (tagBuffer s))
      else Fault (OutOfBounds CallerData)
  | None =>
      let o := offset (th s) in
      if (0 <=? o) && (o + n <=? Z.of_nat (length (tagBuffer s))) then
        if n <=? Z.of_nat (length data) then
          Ok (take (Z.to_nat n) (drop (Z.to_nat o) (tagBuffer s))
                ++ drop (Z.to_nat n) data,
              mkM (set_offset (o + n) (th s)) (tagBuffer s))
        else Fault (OutOfBounds CallerData)
      else Fault (OutOfBounds TagBuffer)
  end.

Definition advance (skip : Z) : M unit := fun s =>
  match file (th s) with
  | Some f => Ok (tt, mkM (set_file (fseek_cur skip f) (th s)) (tagBuffer s))
  | None => Ok (tt, mkM (set_offset (offset (th s) + skip) (th s)) (tagBuffer s))
  end.

End Header.

(** wrappers for file writing and reading; [count] is an [unsigned int] and
    the result an [int]. *)
Definition write2 (f : FILE) (buffer : list Z) (count : Z) : result (Z * FILE) :=
  let n := to_uint count in
  if n <=? Z.of_nat (length buffer)
  then
    let '(written, f') := fwrite (take (Z.to_nat n) buffer) f in
    Ok (to_int written, f')
  else Fault (OutOfBounds TagBuffer).

Definition read2 (f : FILE) (buffer : list Z) (count : Z)
  : result (Z * FILE * list Z) :=
  let '(got, f') := fread (to_uint count) f in
  if (length got <=? length buffer)%nat
  then Ok (to_int (Z.of_nat (length got)), f', got ++ drop (length got) buffer)
  else Fault (OutOfBounds TagBuffer).

(** ** Scalars *)

Section Scalars.
Context `{Platform}.

Definition marshallByte (data : Z) : M unit := writeByte (to_char data).

Definition unmarshallByte : M Z :=
  b <- readByte ;; ret (to_char b).

(** marshall 2 byte short in network order *)
Definition marshallShort (data : Z) : M unit :=
  let data := to_short data in
  let b2 := to_char (Z.land data 0x00FF) in
  let b1 := to_char (Z.shiftr (Z.land data 0xFF00) 8) in
  writeByte b1 ;; writeByte b2.

(** unmarshall 2 byte short in network order *)
Definition unmarshallShort : M Z :=
  b1 <- readByte ;;
  b2 <- readByte ;;
  ret (to_short (Z.lor (Z.shiftl b1 8) (Z.land b2 0x00FF))).

(** marshall 4 byte int in network order *)
Definition marshallLong (data : Z) : M unit :=
  let data := to_long data in
  let b4 := to_char (Z.land data 0x000000FF) in
  let b3 := to_char (Z.shiftr (Z.land data 0x0000FF00) 8) in
  let b2 := to_char (Z.shiftr (Z.land data 0x00FF0000) 16) in
  let b1 := to_char (Z.shiftr (Z.land data 0xFF000000) 24) in
  writeByte b1 ;; writeByte b2 ;; writeByte b3 ;; writeByte b4.

(** unmarshall 4 byte int in network order *)
Definition unmarshallLong : M Z :=
  b1 <- readByte ;;
  b2 <- readByte ;;
  b3 <- readByte ;;
  b4 <- readByte ;;
  let data := to_long (Z.lor (to_long (Z.shiftl b1 24))
                             (Z.shiftl (Z.land b2 0x000000FF) 16)) in
  ret (to_long (Z.lor data (Z.lor (Z.shiftl (Z.land b3 0x000000FF) 8)
                                  (Z.land b4 0x000000FF)))).

End Scalars.

(** ** Strings

    A [std::string] is its sequence of chars; [c_str] appends the terminating
    NUL that [std::string::c_str()] guarantees. *)

Definition c_str (data : list Z) : list Z := data ++ [0].

(** [data[i] = v] on a caller-owned char array *)
Definition store_char (data : list Z) (i v : Z) : M (list Z) :=
  if in_buffer i data then ret (<[Z.to_nat i := v]> data)
  else fail (OutOfBounds CallerData).

Section Strings.
Context `{Platform}.

(** string -- marshall length & string data *)
Definition marshallString (data : list Z) (maxSize : Z) : M unit :=
  let len := to_int (Z.of_nat (length data)) in
  let len := if (0 <? maxSize) && (maxSize <? len) then maxSize else len in
  marshallShort len ;;
  write (c_str data) len.

(** string -- unmarshall length & string data; the result is the returned
    count together with the caller's array after the call. *)
Definition unmarshallCString (data : list Z) (maxSize : Z) : M (Z * list Z) :=
  len <- unmarshallShort ;;
  let copylen := if (maxSize <=? len) && (0 <? maxSize) then maxSize - 1 else len in
  data <- read data copylen ;;
  data <- store_char data copylen 0 ;;
  advance (len - copylen) ;;
  ret (copylen, data).

(** [new char[maxSize]] is not initialised; the array is modelled as zeroes,
    the first [slen] of which are overwritten before they are looked at.
    [new] does not return a null pointer, so the second early return is dead. *)
Definition unmarshallString (maxSize : Z) : M (list Z) :=
  if maxSize <=? 0 then ret []
  else
    let buffer := replicate (Z.to_nat maxSize) 0 in
    r <- unmarshallCString buffer maxSize ;;
    let '(slen, buffer) := r in
    ret (take (Z.to_nat (to_size_t slen)) buffer).

(** boolean (to avoid system-dependant bool implementations) *)
Definition marshallBoolean (data : bool) : M unit :=
  writeByte (if data then 1 else 0).

Definition unmarshallBoolean : M bool :=
  b <- readByte ;; ret (to_char b =? 1).

End Strings.

(** ** Run-length grid codec

    The templates are generic in the element marshaller and in the grid type;
    a grid is modelled by its indexing function [g x y], and [g[x][y] = v] by
    a pointwise update. *)

Definition grid : Type := Z -> Z -> Z.

Definition grid_set (g : grid) (x y v : Z) : grid :=
  fun x' y' => if (x' =? x) && (y' =? y) then v else g x' y'.

(** The index pairs visited by
    [for (y = 0; y < height; ++y) for (x = 0; x < width; ++x)]. *)
Definition scan (width height : Z) : list (Z * Z) :=
  y ← seqZ 0 height; x ← seqZ 0 width; [(x, y)].

Fixpoint for_each {A S} (body : S -> A -> M S) (st : S) (l : list A) : M S :=
  match l with
  | [] => ret st
  | a :: l => st' <- body st a ;; for_each body st' l
  end.

Section RunLength.
Context `{Platform}.
Variable m : Z -> M unit.
Variable um : M Z.

(** One pass through the body of the inner loop; the state is [(last, nlast)]. *)
Definition run_length_encode_body (g : grid) (st : Z * Z) (xy : Z * Z)
  : M (Z * Z) :=
  let '(last, nlast) := st in
  let '(x, y) := xy in
  let last := if nlast =? 0 then g x y else last in
  if (last =? g x y) && (nlast <? 255) then ret (last, nlast + 1)
  else
    marshallByte nlast ;;
    m last ;;
    ret (g x y, 1).

Definition run_length_encode (g : grid) (width height : Z) : M unit :=
  st <- for_each (run_length_encode_body g) (0, 0) (scan width height) ;;
  let '(last, nlast) := st in
  marshallByte nlast ;;
  m last.

(** [for (int i = 0; i < run; ++i)] of the decoder: the new offset and grid. *)
Fixpoint run_length_fill (run : nat) (value width offset : Z) (g : grid)
  : Z * grid :=
  match run with
  | O => (offset, g)
  | S run =>
      let y := Z.quot offset width in
      let x := Z.rem offset width in
      run_length_fill run value width (offset + 1) (grid_set g x y value)
  end.

(** The [while] loop starting at [offset]; [fuel] bounds the number of
    (run, value) pairs it may read. *)
Fixpoint run_length_decode_from (fuel : nat) (g : grid) (width end_ offset : Z)
  : M grid :=
  if offset <? end_ then
    match fuel with
    | O => fail OutOfFuel
    | S fuel =>
        b <- unmarshallByte ;;
        let run := to_uchar b in
        value <- um ;;
        let '(offset, g) := run_length_fill (Z.to_nat run) value width offset g in
        run_length_decode_from fuel g width end_ offset
    end
  else ret g.

Definition run_length_decode (fuel : nat) (g : grid) (width height : Z)
  : M grid :=
  run_length_decode_from fuel g width (to_int (width * height)) 0.

End RunLength.

(** ** Public tag functions *)

(** The domain readers [tag_read] forwards to.  They consume the record that
    has been loaded into the buffer and update the game state [W]; they are
    parameters of the model. *)
Record Readers (W : Type) : Type := {
  tag_read_you : Z -> machine -> W -> result (machine * W);
  tag_read_you_items : Z -> machine -> W -> result (machine * W);
  tag_read_you_dungeon : machine -> W -> result (machine * W);
  tag_read_level : Z -> machine -> W -> result (machine * W);
  tag_read_level_items : Z -> machine -> W -> result (machine * W);
  tag_read_level_monsters : Z -> machine -> W -> result (machine * W);
  tag_read_level_attitude : machine -> W -> result (machine * W);
  tag_read_ghost : Z -> machine -> W -> result (machine * W);
  tag_read_lost_monsters : Z -> machine -> W -> result (machine * W);
  tag_read_lost_items : Z -> machine -> W -> result (machine * W)
}.
Arguments tag_read_you {W}.
Arguments tag_read_you_items {W}.
Arguments tag_read_you_dungeon {W}.
Arguments tag_read_level {W}.
Arguments tag_read_level_items {W}.
Arguments tag_read_level_monsters {W}.
Arguments tag_read_level_attitude {W}.
Arguments tag_read_ghost {W}.
Arguments tag_read_lost_monsters {W}.
Arguments tag_read_lost_items {W}.

Definition tagHdrSize : Z := 6.

Section Tags.
Context `{Platform} `{Headers}.

(** [memcpy(swap, tagBuffer, tagHdrSize)] and back *)
Definition swap_out (buf : list Z) : result (list Z) :=
  if tagHdrSize <=? Z.of_nat (length buf)
  then Ok (take (Z.to_nat tagHdrSize) buf)
  else Fault (OutOfBounds TagBuffer).

Definition swap_in (swap buf : list Z) : list Z := splice 0 swap buf.

(** The result is the save file and the machine after the call. *)
Definition tag_write (saveFile : FILE) (s : machine) : result (FILE * machine) :=
  (* make sure there is some data to write! *)
  if offset (th s) =? 0 then Ok (saveFile, s)
  else
    let framed :=
      (* special case: TAG_VERSION.  Skip tag header. *)
      if negb (tagID (th s) =? TAG_VERSION) then
        match swap_out (tagBuffer s) with
        | Fault f => Fault f
        | Ok swap =>
            let tagSize := to_int (offset (th s)) in
            let s0 := mkM (set_offset 0 (th s)) (tagBuffer s) in
            match (marshallShort (tagID (th s)) ;; marshallLong tagSize) s0 with
            | Fault f => Fault f
            | Ok (_, s1) =>
                match write2 saveFile (tagBuffer s1) (offset (th s1)) with
                | Fault f => Fault f
                | Ok (_, saveFile) =>
                    Ok (saveFile,
                        mkM (set_offset tagSize (th s1))
                            (swap_in swap (tagBuffer s1)))
                end
            end
        end
      else Ok (saveFile, s) in
    match framed with
    | Fault f => Fault f
    | Ok (saveFile, s) =>
        match write2 saveFile (tagBuffer s) (offset (th s)) with
        | Fault f => Fault f
        | Ok (_, saveFile) => Ok (saveFile, s)
        end
    end.

(** The [switch] of [tag_read]: [Some] of the reader's outcome when a case
    label matches, [None] for the default case. *)
Definition tag_read_dispatch {W} (rs : Readers W) (id minorVersion : Z)
    (s : machine) (w : W) : option (result (machine * W)) :=
  if id =? TAG_YOU then Some (tag_read_you rs minorVersion s w)
  else if id =? TAG_YOU_ITEMS then Some (tag_read_you_items rs minorVersion s w)
  else if id =? TAG_YOU_DUNGEON then Some (tag_read_you_dungeon rs s w)
  else if id =? TAG_LEVEL then Some (tag_read_level rs minorVersion s w)
  else if id =? TAG_LEVEL_ITEMS then Some (tag_read_level_items rs minorVersion s w)
  else if id =? TAG_LEVEL_MONSTERS
       then Some (tag_read_level_monsters rs minorVersion s w)
  else if id =? TAG_LEVEL_ATTITUDE then Some (tag_read_level_attitude rs s w)
  else if id =? TAG_GHOST then Some (tag_read_ghost rs minorVersion s w)
  else if id =? TAG_LOST_MONSTERS then
    Some (match tag_read_lost_monsters rs minorVersion s w with
          | Ok (s, w) => tag_read_lost_items rs minorVersion s w
          | Fault f => Fault f
          end)
  else None.

(** [tag_read(fp, minorVersion)]: the returned int, the stream, the buffer and
    the game state after the call. *)
Definition tag_read {W} (rs : Readers W) (fp : FILE) (minorVersion : Z)
    (buf : list Z) (w : W) : result (Z * FILE * list Z * W) :=
  let th0 := mkTH 0 0 None in
  (* read tag header *)
  match read2 fp buf tagHdrSize with
  | Fault f => Fault f
  | Ok (n, fp, buf) =>
      if negb (n =? tagHdrSize) then Ok (0, fp, buf, w)
      else
        (* unmarshall tag type and length (not including header) *)
        match (id <- unmarshallShort ;; len <- unmarshallLong ;; ret (id, len))
                (mkM th0 buf) with
        | Fault f => Fault f
        | Ok ((id, len), _) =>
            let hdr := mkTH (to_short id) len None in
            (* sanity check *)
            if (tagID hdr <=? 0) || (offset hdr <=? 0) then Ok (0, fp, buf, w)
            else
              (* now reset th and read actual data *)
              match read2 fp buf (offset hdr) with
              | Fault f => Fault f
              | Ok (n, fp, buf) =>
                  if negb (n =? offset hdr) then Ok (0, fp, buf, w)
                  else
                    (* ok, we have data now. *)
                    match tag_read_dispatch rs (tagID hdr) minorVersion
                            (mkM th0 buf) w with
                    | Some (Ok (s, w)) => Ok (tagID hdr, fp, tagBuffer s, w)
                    | Some (Fault f) => Fault f
                    | None =>
                        (* I don't know how to read that! *)
                        Ok (0, fp, buf, w)
                    end
              end
        end
  end.

End Tags.

(** ** Monsters and the missing attitude tag *)

Record monsters : Type := mkMonster {
  type : Z;
  flags : Z;
  behaviour : Z;
  attitude : Z;
  foe : Z;
  foe_memory : Z;
  enchantments : list Z   (* the keys of the enchantment map *)
}.

(** Modelled from the spec: the macro [testbits] is defined in a header that
    is not among the sources; the flag is carried when all its bits are set. *)
Definition testbits (flags test : Z) : bool := Z.land flags test =? test.

(** Modelled from the spec: [monsters::has_ench] is defined outside the
    sources; a monster has an enchantment when its enchantment map has that
    key. *)
Definition has_ench (mon : monsters) (ench : Z) : bool :=
  bool_decide (ench ∈ enchantments mon).

Section Attitude.
Context `{Headers}.

(** The body of the loop over [menv]; [new_beh] is declared outside the loop
    and is threaded through it. *)
Definition tag_missing_level_attitude_body (new_beh : Z) (mon : monsters)
  : Z * monsters :=
  (* only do actual monsters *)
  if type mon <? 0 then (new_beh, mon)
  else
    let isFriendly := testbits (flags mon) MF_CREATED_FRIENDLY in
    let b := behaviour mon in
    let '(new_beh, isFriendly) :=
      if b =? 0 then (BEH_SLEEP, isFriendly)
      else if (b =? 3) || (b =? 10) then (BEH_FLEE, isFriendly)
      else if (b =? 1) || (b =? 6) then (BEH_SEEK, isFriendly)
      else if b =? 7 then
        (new_beh, if negb (has_ench mon ENCH_CHARM) then true else isFriendly)
      else (new_beh, isFriendly) in
    (new_beh,
     mkMonster (type mon) (flags mon) new_beh
               (if isFriendly then ATT_FRIENDLY else ATT_HOSTILE)
               MHITNOT 0 (enchantments mon)).

Fixpoint tag_missing_level_attitude_loop (new_beh : Z) (menv : list monsters)
  : list monsters :=
  match menv with
  | [] => []
  | mon :: menv =>
      let '(new_beh, mon) := tag_missing_level_attitude_body new_beh mon in
      mon :: tag_missing_level_attitude_loop new_beh menv
  end.

(** [menv] has [MAX_MONSTERS] slots and the loop visits each of them. *)
Definition tag_missing_level_attitude (menv : list monsters) : list monsters :=
  tag_missing_level_attitude_loop BEH_WANDER menv.

(** Modelled from the spec: [end()] is defined outside the sources; the load
    operation aborts the process with a diagnostic, here the exit code and the
    text handed to [perror]. *)
Definition end_ {A} (code : Z) (diagnostic : string) : result A :=
  Fault (Exit code diagnostic).

Definition tag_missing (tag minorVersion : Z) (menv : list monsters)
  : result (list monsters) :=
  if tag =? TAG_LEVEL_ATTITUDE then Ok (tag_missing_level_attitude menv)
  else end_ (-1) "Tag %d is missing;  file is likely corrupt.".

End Attitude.

(** ** Ghosts *)

Record ghost_demon : Type := mkGhost { name : list Z; values : list Z }.

(** [values[i] = v] on the ghost's value array *)
Definition store_value (vals : list Z) (i v : Z) : M (list Z) :=
  if in_buffer i vals then ret (<[Z.to_nat i := v]> vals)
  else fail (OutOfBounds GhostValues).

Section Ghost.
Context `{Platform} `{Headers}.

Definition unmarshallGhost_body (vals : list Z) (i : Z) : M (list Z) :=
  v <- unmarshallShort ;; store_value vals i v.

(** [fresh] is the default-constructed [ghost_demon]. *)
Definition unmarshallGhost (fresh : ghost_demon) : M ghost_demon :=
  nm <- unmarshallString 20 ;;
  (* how many ghost values? *)
  count_c <- unmarshallByte ;;
  let count_c := if NUM_GHOST_VALUES <? count_c then NUM_GHOST_VALUES else count_c in
  vals <- for_each unmarshallGhost_body (values fresh) (seqZ 0 count_c) ;;
  ret (mkGhost nm vals).

End Ghost.

(** ** A test fixture

    A platform with signed [char] and 32-bit [long] (the i386 build), the
    same with unsigned [char], and header constants in the order the
    source header lists the tag enumeration ([TAG_YOU = 1] up to
    [TAG_GHOST], followed by the later additions); the monster constants
    are representative values. *)

Definition signed_char_platform : Platform :=
  {| char_signed := true; long_64 := false |}.

(** The amd64 build: signed [char], 64-bit [long]. *)
Definition lp64_platform : Platform :=
  {| char_signed := true; long_64 := true |}.

Definition fixture_headers : Headers := {|
  TAG_VERSION := 0;
  TAG_YOU := 1;
  TAG_YOU_ITEMS := 2;
  TAG_YOU_DUNGEON := 3;
  TAG_LEVEL := 4;
  TAG_LEVEL_ITEMS := 5;
  TAG_LEVEL_MONSTERS := 6;
  TAG_GHOST := 7;
  TAG_LEVEL_ATTITUDE := 8;
  TAG_LOST_MONSTERS := 9;
  NUM_GHOST_VALUES := 21;
  MHITNOT := 201;
  MF_CREATED_FRIENDLY := 1;
  ENCH_CHARM := 15;
  BEH_SLEEP := 0;
  BEH_WANDER := 1;
  BEH_SEEK := 2;
  BEH_FLEE := 3;
  ATT_HOSTILE := 0;
  ATT_FRIENDLY := 1
|}.

(** Readers that leave the game state (here [unit]) alone. *)
Definition idle_readers : Readers unit := {|
  tag_read_you := fun _ s w => Ok (s, w);
  tag_read_you_items := fun _ s w => Ok (s, w);
  tag_read_you_dungeon := fun s w => Ok (s, w);
  tag_read_level := fun _ s w => Ok (s, w);
  tag_read_level_items := fun _ s w => Ok (s, w);
  tag_read_level_monsters := fun _ s w => Ok (s, w);
  tag_read_level_attitude := fun s w => Ok (s, w);
  tag_read_ghost := fun _ s w => Ok (s, w);
  tag_read_lost_monsters := fun _ s w => Ok (s, w);
  tag_read_lost_items := fun _ s w => Ok (s, w)
|}.

(** ** Reference notions used in the statements *)

(** A record under construction or being parsed: a header bound to the tag
    buffer (no file), its cursor at [o]. *)
Definition record_at (id o : Z) (buf : list Z) : machine :=
  mkM (mkTH id o None) buf.

(** The [n] low-order bytes of [v], most significant first. *)
Definition big_endian (n : nat) (v : Z) : list Z :=
  map (fun i => (v / 256 ^ Z.of_nat i) mod 256) (rev (seq 0 n)).

(** The values a [char] holds. *)
Definition is_char `{Platform} (v : Z) : Prop := to_char v = v.

(** Writing a list of bytes one at a time. *)
Fixpoint writeBytes (bytes : list Z) : M unit :=
  match bytes with
  | [] => ret tt
  | b :: bytes => writeByte b ;; writeBytes bytes
  end.


(** The bytes a stream still holds after its position indicator. *)
Definition remaining (f : FILE) : list Z := drop (fpos f) (fdata f).

(** The unsigned number a sequence of bytes spells, most significant first. *)
Definition decode_be (bytes : list Z) : Z :=
  fold_left (fun acc b => acc * 256 + to_uchar b) bytes 0.

(** The case labels of the [switch] in [tag_read]. *)
Definition known_tags `{Headers} : list Z :=
  [TAG_YOU; TAG_YOU_ITEMS; TAG_YOU_DUNGEON; TAG_LEVEL; TAG_LEVEL_ITEMS;
   TAG_LEVEL_MONSTERS; TAG_LEVEL_ATTITUDE; TAG_GHOST; TAG_LOST_MONSTERS].

(** The header fields [tag_read] decodes from the next bytes of a stream, and
    the payload bytes the stream can deliver for them. *)
Definition next_tagID (fp : FILE) : Z :=
  to_short (decode_be (take 2 (remaining fp))).
Definition next_length `{Platform} (fp : FILE) : Z :=
  to_long (decode_be (take 4 (drop 2 (remaining fp)))).
Definition next_payload `{Platform} (fp : FILE) : list Z :=
  take (Z.to_nat (next_length fp)) (drop 6 (remaining fp)).

(** The statement "an unknown type ID makes [tag_read] abort", as a
    proposition about the model. *)
Definition unknown_tag_aborts `{Platform} `{Headers} : Prop :=
  forall (W : Type) (rs : Readers W) (fp : FILE) (minorVersion : Z)
         (buf : list Z) (w : W),
    6 <= Z.of_nat (length (remaining fp)) ->
    0 < next_tagID fp -> 0 < next_length fp ->
    Z.of_nat (length (next_payload fp)) = next_length fp ->
    6 <= Z.of_nat (length buf) -> next_length fp <= Z.of_nat (length buf) ->
    next_tagID fp ∉ known_tags ->
    exists code diagnostic,
      tag_read rs fp minorVersion buf w = Fault (Exit code diagnostic).

(** The statement "[tag_read] returns 0 whenever the header cannot be fully
    read, the type ID or the length is not positive, or fewer payload bytes
    than declared can be read", as a proposition about the model; the buffer
    is taken to hold the header. *)
Definition truncated_record_is_no_record `{Platform} `{Headers} : Prop :=
  forall (W : Type) (rs : Readers W) (fp : FILE) (minorVersion : Z)
         (buf : list Z) (w : W),
    6 <= Z.of_nat (length buf) ->
    Z.of_nat (length (remaining fp)) < 6
    \/ (6 <= Z.of_nat (length (remaining fp))
        /\ (next_tagID fp <= 0 \/ next_length fp <= 0))
    \/ (6 <= Z.of_nat (length (remaining fp))
        /\ Z.of_nat (length (next_payload fp)) < next_length fp) ->
    exists fp' buf', tag_read rs fp minorVersion buf w = Ok (0, fp', buf', w).

(** The statement "a string longer than [maxSize], written and read back with
    the same [maxSize], gives the first [maxSize - 1] chars and a terminator",
    for every positive [maxSize], as a proposition about the model. *)
Definition string_clamp_any_maxSize `{Platform} : Prop :=
  forall (data dest : list Z) (maxSize id o : Z) (buf : list Z),
    0 < maxSize -> maxSize < Z.of_nat (length data) ->
    Z.of_nat (length data) <= 2147483647 ->
    Z.of_nat (length dest) = maxSize ->
    0 <= o -> o + 2 + Z.of_nat (length data) <= Z.of_nat (length buf) ->
    exists s' n dest' s'',
      marshallString data maxSize (record_at id o buf) = Ok (tt, s')
      /\ unmarshallCString dest maxSize (record_at id o (tagBuffer s'))
         = Ok ((n, dest'), s'')
      /\ take (Z.to_nat maxSize) dest' = take (Z.to_nat (maxSize - 1)) data ++ [0].

(** The same statement with its second half: "and the reader's cursor is
    where it would be had all of the string been written". *)
Definition string_clamp_cursor_as_if_unclamped `{Platform} : Prop :=
  forall (data dest : list Z) (maxSize id o : Z) (buf : list Z),
    0 < maxSize -> maxSize < Z.of_nat (length data) ->
    Z.of_nat (length data) <= 2147483647 ->
    Z.of_nat (length dest) = maxSize ->
    0 <= o -> o + 2 + Z.of_nat (length data) <= Z.of_nat (length buf) ->
    exists s' n dest' s'',
      marshallString data maxSize (record_at id o buf) = Ok (tt, s')
      /\ unmarshallCString dest maxSize (record_at id o (tagBuffer s'))
         = Ok ((n, dest'), s'')
      /\ take (Z.to_nat maxSize) dest' = take (Z.to_nat (maxSize - 1)) data ++ [0]
      /\ offset (th s'') = o + 2 + Z.of_nat (length data).

(** The length [marshallString] stores for a string. *)
Definition stored_length (data : list Z) (maxSize : Z) : Z :=
  if (0 <? maxSize) && (maxSize <? Z.of_nat (length data))
  then maxSize else Z.of_nat (length data).

(** The number of chars [unmarshallCString] copies for a stored length. *)
Definition copy_length (len maxSize : Z) : Z :=
  if (maxSize <=? len) && (0 <? maxSize) then maxSize - 1 else len.




(** *** Run lengths, as lists *)

(** The cells of a grid in the order the encoder visits them. *)
Definition cells (g : grid) (width height : Z) : list Z :=
  map (fun xy => g (fst xy) (snd xy)) (scan width height).

(** The (run length, value) pairs the encoder emits for the cells [cs] when
    it holds the run [(last, nlast)], the final flush included. *)
Fixpoint rle_pairs (cs : list Z) (last nlast : Z) : list (Z * Z) :=
  match cs with
  | [] => [(nlast, last)]
  | c :: cs =>
      let last := if nlast =? 0 then c else last in
      if (last =? c) && (nlast <? 255) then rle_pairs cs last (nlast + 1)
      else (nlast, last) :: rle_pairs cs c 1
  end.

Definition pair_bytes (ps : list (Z * Z)) : list Z :=
  flat_map (fun p => [to_uchar (fst p); to_uchar (snd p)]) ps.

(** The cells a list of pairs stands for. *)
Definition expand (ps : list (Z * Z)) : list Z :=
  flat_map (fun p => replicate (Z.to_nat (fst p)) (snd p)) ps.

(** Storing consecutive cells from linear offset [k] on, as the decoder
    addresses them. *)
Fixpoint store_cells (width k : Z) (vs : list Z) (g : grid) : grid :=
  match vs with
  | [] => g
  | v :: vs =>
      store_cells width (k + 1) vs
        (grid_set g (Z.rem k width) (Z.quot k width) v)
  end.

(** The encoder from a given run state on: the remaining passes of the loop
    and the final flush. *)
Definition run_length_encode_from `{Platform} (m : Z -> M unit) (g : grid)
    (st : Z * Z) (coords : list (Z * Z)) : M unit :=
  st <- for_each (run_length_encode_body m g) st coords ;;
  let '(last, nlast) := st in
  marshallByte nlast ;;
  m last.

(** The statement "a grid of values that fit in one byte is decoded to
    itself", as a proposition about the model, for the byte marshallers the
    source passes. *)
Definition byte_grid_round_trips `{Platform} : Prop :=
  forall (g g0 : grid) (width height id o : Z) (buf : list Z) (fuel : nat),
    1 <= width -> 1 <= height -> width * height <= 2147483647 ->
    (forall x y, 0 <= x < width -> 0 <= y < height -> 0 <= g x y <= 255) ->
    0 <= o -> o + 2 * (width * height) <= Z.of_nat (length buf) ->
    (Z.to_nat (width * height) <= fuel)%nat ->
    exists s' g' s'',
      run_length_encode marshallByte g width height (record_at id o buf)
      = Ok (tt, s')
      /\ run_length_decode unmarshallByte fuel g0 width height
           (record_at id o (tagBuffer s'))
         = Ok (g', s'')
      /\ forall x y, 0 <= x < width -> 0 <= y < height -> g' x y = g x y.

(** A small grid for tests: 5 on the cells whose coordinates sum to a
    multiple of three, -3 elsewhere. *)
Definition striped_grid : grid :=
  fun x y => if (x + y) mod 3 =? 0 then 5 else -3.

(** * More of the file

    The remaining marshallers that stand on their own: coordinates, level
    identifiers, enchantments, the generic container helpers, the attitude
    and ghost tags, the date helper and the table of expected tags. *)

(** ** What a computation writes and reads

    [writes m bytes]: on every record with room at the cursor, [m] stores
    [bytes] there and moves the cursor past them.  [reads um bytes a]: on
    every record holding [bytes] at the cursor, [um] returns [a] and moves
    the cursor past them. *)

Definition writes (m : M unit) (bytes : list Z) : Prop :=
  forall id o buf,
    0 <= o -> o + Z.of_nat (length bytes) <= Z.of_nat (length buf) ->
    m (record_at id o buf)
    = Ok (tt, record_at id (o + Z.of_nat (length bytes)) (splice o bytes buf)).

Definition reads {A} (um : M A) (bytes : list Z) (a : A) : Prop :=
  forall id o buf,
    0 <= o -> take (length bytes) (drop (Z.to_nat o) buf) = bytes ->
    um (record_at id o buf)
    = Ok (a, record_at id (o + Z.of_nat (length bytes)) buf).

(** ** Coordinates, level ids, enchantments *)

Module coord_def.
Record t : Type := mk { x : Z; y : Z }.
End coord_def.

Module level_id.
Record t : Type := mk { branch : Z; depth : Z; level_type : Z }.
End level_id.

Module level_pos.
Record t : Type := mk { pos : coord_def.t; id : level_id.t }.
End level_pos.

Module mon_enchant.
Record t : Type :=
  mk { ench : Z; degree : Z; who : Z; duration : Z; maxduration : Z }.
End mon_enchant.

Section Structs.
Context `{Platform}.

Definition marshall_level_id (id : level_id.t) : M unit :=
  marshallByte (level_id.branch id) ;;
  marshallLong (level_id.depth id) ;;
  marshallByte (level_id.level_type id).

Definition marshall_level_pos (lpos : level_pos.t) : M unit :=
  marshallLong (coord_def.x (level_pos.pos lpos)) ;;
  marshallLong (coord_def.y (level_pos.pos lpos)) ;;
  marshall_level_id (level_pos.id lpos).

(** [depth], like the coordinates [x] and [y], is an [int] field. *)
Definition unmarshall_level_id : M level_id.t :=
  branch <- unmarshallByte ;;
  depth <- unmarshallLong ;;
  level_type <- unmarshallByte ;;
  ret (level_id.mk branch (to_int depth) level_type).

Definition unmarshall_level_pos : M level_pos.t :=
  x <- unmarshallLong ;;
  y <- unmarshallLong ;;
  id <- unmarshall_level_id ;;
  ret (level_pos.mk (coord_def.mk (to_int x) (to_int y)) id).

Definition marshallCoord (c : coord_def.t) : M unit :=
  marshallShort (coord_def.x c) ;;
  marshallShort (coord_def.y c).

(** [c] is the coordinate passed by reference; both fields are assigned. *)
Definition unmarshallCoord (c : coord_def.t) : M coord_def.t :=
  x <- unmarshallShort ;;
  y <- unmarshallShort ;;
  ret (coord_def.mk x y).

Definition marshall_mon_enchant (me : mon_enchant.t) : M unit :=
  marshallShort (mon_enchant.ench me) ;;
  marshallShort (mon_enchant.degree me) ;;
  marshallShort (mon_enchant.who me) ;;
  marshallShort (mon_enchant.duration me) ;;
  marshallShort (mon_enchant.maxduration me).

Definition unmarshall_mon_enchant : M mon_enchant.t :=
  ench <- unmarshallShort ;;
  degree <- unmarshallShort ;;
  who <- unmarshallShort ;;
  duration <- unmarshallShort ;;
  maxduration <- unmarshallShort ;;
  ret (mon_enchant.mk ench degree who duration maxduration).

(** ** Generic containers *)

(** [marshall_iterator(th, beg, end, T_marshall)] on the elements between the
    two iterators. *)
Definition marshall_iterator {A} (elems : list A) (T_marshall : A -> M unit)
  : M unit :=
  marshallLong (Z.of_nat (length elems)) ;;
  for_each (fun _ a => T_marshall a) tt elems.

(** [for (long i = 0; i < num_to_read; ++i) vec.push_back(T_unmarshall(th))] *)
Fixpoint push_back_each {A} (n : nat) (T_unmarshall : M A) (vec : list A)
  : M (list A) :=
  match n with
  | O => ret vec
  | S n => a <- T_unmarshall ;; push_back_each n T_unmarshall (vec ++ [a])
  end.

(** [vec] is the vector passed by reference; it is cleared first. *)
Definition unmarshall_vector {A} (vec : list A) (T_unmarshall : M A)
  : M (list A) :=
  let vec := [] in
  num_to_read <- unmarshallLong ;;
  push_back_each (Z.to_nat num_to_read) T_unmarshall vec.

End Structs.

(** The bytes of the structures above. *)
Definition level_id_bytes (id : level_id.t) : list Z :=
  [to_uchar (level_id.branch id)] ++ big_endian 4 (level_id.depth id)
    ++ [to_uchar (level_id.level_type id)].

Definition level_pos_bytes (lpos : level_pos.t) : list Z :=
  big_endian 4 (coord_def.x (level_pos.pos lpos))
    ++ big_endian 4 (coord_def.y (level_pos.pos lpos))
    ++ level_id_bytes (level_pos.id lpos).

Definition coord_bytes (c : coord_def.t) : list Z :=
  big_endian 2 (coord_def.x c) ++ big_endian 2 (coord_def.y c).

Definition mon_enchant_bytes (me : mon_enchant.t) : list Z :=
  big_endian 2 (mon_enchant.ench me) ++ big_endian 2 (mon_enchant.degree me)
    ++ big_endian 2 (mon_enchant.who me)
    ++ big_endian 2 (mon_enchant.duration me)
    ++ big_endian 2 (mon_enchant.maxduration me).

(** A header bound to a stream: bytes go to and come from the file, the
    buffer and [offset] are not used. *)
Definition stream_at (id o : Z) (f : FILE) (buf : list Z) : machine :=
  mkM (mkTH id o (Some f)) buf.

(** ** tag_construct *)

(** The domain encoders [tag_construct] forwards to; they read the game state
    [W] and write into the record.  They are parameters of the model. *)
Record Writers (W : Type) : Type := {
  tag_construct_you : W -> M unit;
  tag_construct_you_items : W -> M unit;
  tag_construct_you_dungeon : W -> M unit;
  tag_construct_level : W -> M unit;
  tag_construct_level_items : W -> M unit;
  tag_construct_level_monsters : W -> M unit;
  tag_construct_level_attitude_w : W -> M unit;
  tag_construct_ghost_w : W -> M unit;
  tag_construct_lost_monsters : W -> M unit;
  tag_construct_lost_items : W -> M unit
}.
Arguments tag_construct_you {W}.
Arguments tag_construct_you_items {W}.
Arguments tag_construct_you_dungeon {W}.
Arguments tag_construct_level {W}.
Arguments tag_construct_level_items {W}.
Arguments tag_construct_level_monsters {W}.
Arguments tag_construct_level_attitude_w {W}.
Arguments tag_construct_ghost_w {W}.
Arguments tag_construct_lost_monsters {W}.
Arguments tag_construct_lost_items {W}.

Section Construct.
Context `{Headers}.

Definition tag_construct {W} (ws : Writers W) (tagID : Z) (w : W) : M unit :=
  fun s =>
    let s := mkM (mkTH (to_short tagID) 0 (file (th s))) (tagBuffer s) in
    if tagID =? TAG_YOU then tag_construct_you ws w s
    else if tagID =? TAG_YOU_ITEMS then tag_construct_you_items ws w s
    else if tagID =? TAG_YOU_DUNGEON then tag_construct_you_dungeon ws w s
    else if tagID =? TAG_LEVEL then tag_construct_level ws w s
    else if tagID =? TAG_LEVEL_ITEMS then tag_construct_level_items ws w s
    else if tagID =? TAG_LEVEL_MONSTERS
         then tag_construct_level_monsters ws w s
    else if tagID =? TAG_LEVEL_ATTITUDE
         then tag_construct_level_attitude_w ws w s
    else if tagID =? TAG_GHOST then tag_construct_ghost_w ws w s
    else if tagID =? TAG_LOST_MONSTERS then
      (tag_construct_lost_monsters ws w ;; tag_construct_lost_items ws w) s
    else
      (* I don't know how to make that! *)
      Ok (tt, s).

End Construct.

(** ** The attitude tag *)

Definition set_attitude (a : Z) (mon : monsters) : monsters :=
  mkMonster (type mon) (flags mon) (behaviour mon) a (foe mon)
            (foe_memory mon) (enchantments mon).

Definition set_foe (f : Z) (mon : monsters) : monsters :=
  mkMonster (type mon) (flags mon) (behaviour mon) (attitude mon) f
            (foe_memory mon) (enchantments mon).

(** [i] is an index into the array [l]. *)
Definition in_array {A} (i : Z) (l : list A) : bool :=
  (0 <=? i) && (i <? Z.of_nat (length l)).

Section AttitudeTag.
Context `{Platform}.

(** [menv] has [MAX_MONSTERS] slots; the count written is their number. *)
Definition tag_construct_level_attitude (menv : list monsters) : M unit :=
  (* how many monsters? *)
  marshallShort (Z.of_nat (length menv)) ;;
  for_each (fun _ mon =>
              marshallByte (attitude mon) ;;
              marshallShort (foe mon)) tt menv.

(** The loop of [tag_read_level_attitude] over the indices still to do.  The
    result is [None] once an index lies outside [menv]: the source stores
    there all the same, which C leaves undefined. *)
Fixpoint tag_read_level_attitude_loop (idx : list Z) (menv : list monsters)
  : M (option (list monsters)) :=
  match idx with
  | [] => ret (Some menv)
  | i :: idx =>
      if in_array i menv then
        a <- unmarshallByte ;;
        f <- unmarshallShort ;;
        tag_read_level_attitude_loop idx
          (alter (fun mon => set_foe f (set_attitude a mon)) (Z.to_nat i) menv)
      else ret None
  end.

Definition tag_read_level_attitude_menv (menv : list monsters)
  : M (option (list monsters)) :=
  (* how many monsters? *)
  count <- unmarshallShort ;;
  tag_read_level_attitude_loop (seqZ 0 count) menv.

End AttitudeTag.

(** The monster table after the attitude and foe of the monsters [src] have
    been read into the slots from [i] on. *)
Fixpoint overlay_attitudes `{Platform} (i : nat) (src menv : list monsters)
  : list monsters :=
  match src with
  | [] => menv
  | mon :: src =>
      overlay_attitudes (S i) src
        (alter (fun slot => set_foe (to_short (foe mon))
                              (set_attitude (to_char (attitude mon)) slot))
           i menv)
  end.

(** The bytes of the attitude tag for a monster table. *)
Definition attitude_bytes (menv : list monsters) : list Z :=
  flat_map (fun mon => to_uchar (attitude mon) :: big_endian 2 (foe mon)) menv.

(** ** The ghost tag *)

(** The [std::string] built from a [const char *]: the chars before the first
    NUL. *)
Fixpoint string_of_chars (chars : list Z) : list Z :=
  match chars with
  | [] => []
  | c :: chars => if c =? 0 then [] else c :: string_of_chars chars
  end.

(** [values[i]] as an rvalue *)
Definition load_value (vals : list Z) (i : Z) : M Z :=
  if in_buffer i vals then ret (default 0 (vals !! Z.to_nat i))
  else fail (OutOfBounds GhostValues).

Section GhostTag.
Context `{Platform} `{Headers}.
Variable MAX_GHOSTS : Z.

Definition marshallGhost (ghost : ghost_demon) : M unit :=
  marshallString (string_of_chars (c_str (name ghost))) 20 ;;
  (* how many ghost values? *)
  marshallByte NUM_GHOST_VALUES ;;
  for_each (fun _ i => v <- load_value (values ghost) i ;; marshallShort v)
    tt (seqZ 0 NUM_GHOST_VALUES).

Definition tag_construct_ghost (ghosts : list ghost_demon) : M unit :=
  (* How many ghosts? *)
  marshallShort (Z.of_nat (length ghosts)) ;;
  for_each (fun _ ghost => marshallGhost ghost) tt ghosts.

(** [ghosts] is the global vector the ghosts read are appended to; [fresh] is
    the default-constructed [ghost_demon]. *)
Definition tag_read_ghost_list (fresh : ghost_demon) (minorVersion : Z)
    (ghosts : list ghost_demon) : M (list ghost_demon) :=
  nghosts <- unmarshallShort ;;
  if (nghosts <? 1) || (MAX_GHOSTS <? nghosts) then ret ghosts
  else push_back_each (Z.to_nat nghosts) (unmarshallGhost fresh) ghosts.

End GhostTag.

(** The string [unmarshallString] returns for a stored string. *)
Definition read_back (maxSize : Z) (data : list Z) : list Z :=
  take (Z.to_nat (maxSize - 1)) data.

(** The bytes of a ghost and the ghost they are read back as. *)
Definition ghost_bytes `{Headers} (ghost : ghost_demon) : list Z :=
  let nm := string_of_chars (name ghost) in
  (big_endian 2 (stored_length nm 20) ++ take 20 nm)
    ++ [to_uchar NUM_GHOST_VALUES]
    ++ concat (map (big_endian 2) (values ghost)).

Definition ghost_read_back (ghost : ghost_demon) : ghost_demon :=
  mkGhost (read_back 20 (string_of_chars (name ghost)))
          (map to_short (values ghost)).

(** A ghost as the program holds it: a value array of [NUM_GHOST_VALUES]
    slots, a count that fits the count byte, a name no longer than a
    [std::string] can be measured with an [int]. *)
Definition ghost_wf `{Headers} (ghost : ghost_demon) : Prop :=
  Z.of_nat (length (values ghost)) = NUM_GHOST_VALUES
  /\ NUM_GHOST_VALUES <= 127
  /\ Z.of_nat (length (name ghost)) <= 2147483647.

(** ** Run lengths that cannot be merged *)

(** No two neighbouring pairs carry the same value unless the first of them
    is a full run. *)
Fixpoint maximal_runs (ps : list (Z * Z)) : Prop :=
  match ps with
  | p :: (q :: _) as rest =>
      (snd p <> snd q \/ fst p = 255) /\ maximal_runs rest
  | _ => True
  end.

(** ** The table of expected tags *)

(** The file kinds and the number of tags, from tags.h. *)
Class FileKinds : Type := {
  NUM_TAGS : Z;
  TAGTYPE_PLAYER : Z;
  TAGTYPE_PLAYER_NAME : Z;
  TAGTYPE_LEVEL : Z;
  TAGTYPE_GHOST : Z
}.

Section Expected.
Context `{Platform} `{Headers} `{FileKinds}.

(** The [char] that [tags[i]] holds after one pass of the loop: -1,
    overwritten by 1 in the case of the file type.  [TAGTYPE_GHOST] has no
    [break] and runs into the empty default case. *)
Definition tag_set_expected_entry (fileType i : Z) : Z :=
  let expected :=
    if fileType =? TAGTYPE_PLAYER then
      ((TAG_YOU <=? i) && (i <=? TAG_YOU_DUNGEON)) || (i =? TAG_LOST_MONSTERS)
    else if fileType =? TAGTYPE_PLAYER_NAME then i =? TAG_YOU
    else if fileType =? TAGTYPE_LEVEL then
      (TAG_LEVEL <=? i) && (i <=? TAG_LEVEL_ATTITUDE) && negb (i =? TAG_GHOST)
    else if fileType =? TAGTYPE_GHOST then i =? TAG_GHOST
    else false in
  to_char (if expected then 1 else -1).

(** [None]: the caller's array has fewer than [NUM_TAGS] entries, and the loop
    stores past its end. *)
Fixpoint tag_set_expected_loop (idx : list Z) (tags : list Z) (fileType : Z)
  : option (list Z) :=
  match idx with
  | [] => Some tags
  | i :: idx =>
      if in_buffer i tags then
        tag_set_expected_loop idx
          (<[Z.to_nat i := tag_set_expected_entry fileType i]> tags) fileType
      else None
  end.

Definition tag_set_expected (tags : list Z) (fileType : Z) : option (list Z) :=
  tag_set_expected_loop (seqZ 0 NUM_TAGS) tags fileType.

End Expected.

Definition fixture_file_kinds : FileKinds := {|
  NUM_TAGS := 10;
  TAGTYPE_PLAYER := 0;
  TAGTYPE_LEVEL := 1;
  TAGTYPE_GHOST := 2;
  TAGTYPE_PLAYER_NAME := 3
|}.

(** Writers that write nothing. *)
Definition idle_writers : Writers unit := {|
  tag_construct_you := fun _ => ret tt;
  tag_construct_you_items := fun _ => ret tt;
  tag_construct_you_dungeon := fun _ => ret tt;
  tag_construct_level := fun _ => ret tt;
  tag_construct_level_items := fun _ => ret tt;
  tag_construct_level_monsters := fun _ => ret tt;
  tag_construct_level_attitude_w := fun _ => ret tt;
  tag_construct_ghost_w := fun _ => ret tt;
  tag_construct_lost_monsters := fun _ => ret tt;
  tag_construct_lost_items := fun _ => ret tt
|}.

(** ** Maps and other containers *)

Section Containers.
Context `{Platform}.
Context {K V C A : Type}.

(** [operator<] of the key type. *)
Variable key_lt : K -> K -> bool.

(** A [std::map] is modelled by its entries in the order of the keys, which
    is the order its iterators visit them in.  [data.insert(p)] puts the
    pair at its place, and does nothing when an equivalent key is there. *)
Fixpoint map_insert (p : K * V) (data : list (K * V)) : list (K * V) :=
  match data with
  | [] => [p]
  | q :: rest =>
      if key_lt (fst p) (fst q) then p :: q :: rest
      else if key_lt (fst q) (fst p) then q :: map_insert p rest
      else q :: rest
  end.

Definition marshallMap (data : list (K * V)) (key_marshall : K -> M unit)
    (value_marshall : V -> M unit) : M unit :=
  marshallLong (Z.of_nat (length data)) ;;
  for_each (fun _ ci => key_marshall (fst ci) ;; value_marshall (snd ci))
    tt data.

(** [for (i = 0; i < len; ++i)] of [unmarshallMap] *)
Fixpoint unmarshallMap_loop (len : nat) (data : list (K * V))
    (key_unmarshall : M K) (value_unmarshall : M V) : M (list (K * V)) :=
  match len with
  | O => ret data
  | S len =>
      k <- key_unmarshall ;;
      v <- value_unmarshall ;;
      unmarshallMap_loop len (map_insert (k, v) data)
        key_unmarshall value_unmarshall
  end.

Definition unmarshallMap (data : list (K * V)) (key_unmarshall : M K)
    (value_unmarshall : M V) : M (list (K * V)) :=
  len <- unmarshallLong ;;
  unmarshallMap_loop (Z.to_nat len) data key_unmarshall value_unmarshall.

(** [for (long i = 0; i < num_to_read; ++i) (container.*inserter)(unmarshal(th))] *)
Fixpoint unmarshall_container_loop (n : nat) (container : C)
    (inserter : C -> A -> C) (unmarshal : M A) : M C :=
  match n with
  | O => ret container
  | S n =>
      a <- unmarshal ;;
      unmarshall_container_loop n (inserter container a) inserter unmarshal
  end.

(** [clear] is [container.clear()]. *)
Definition unmarshall_container (container : C) (clear : C -> C)
    (inserter : C -> A -> C) (unmarshal : M A) : M C :=
  let container := clear container in
  num_to_read <- unmarshallLong ;;
  unmarshall_container_loop (Z.to_nat num_to_read) container inserter
    unmarshal.

End Containers.

(** The keys of a map are in strictly ascending order. *)
Fixpoint map_ordered {K V} (key_lt : K -> K -> bool) (data : list (K * V))
  : Prop :=
  match data with
  | [] => True
  | p :: rest =>
      Forall (fun q => key_lt (fst p) (fst q) = true) rest
      /\ map_ordered key_lt rest
  end.

(** The bytes of a map: the number of entries, then key and value of each. *)
Definition map_bytes {K V} (key_bytes : K -> list Z)
    (value_bytes : V -> list Z) (entries : list (K * V)) : list Z :=
  big_endian 4 (Z.of_nat (length entries))
    ++ concat (map (fun p => key_bytes (fst p) ++ value_bytes (snd p))
                 entries).

(** Key and value of an entry are read back as they were written. *)
Definition entry_round_trips {K V} (key_marshall : K -> M unit)
    (value_marshall : V -> M unit) (key_unmarshall : M K)
    (value_unmarshall : M V) (key_bytes : K -> list Z)
    (value_bytes : V -> list Z) (p : K * V) : Prop :=
  writes (key_marshall (fst p)) (key_bytes (fst p))
  /\ writes (value_marshall (snd p)) (value_bytes (snd p))
  /\ reads key_unmarshall (key_bytes (fst p)) (fst p)
  /\ reads value_unmarshall (value_bytes (snd p)) (snd p).

(** ** Dates *)

(** The fields of [struct tm] that [parse_date_string] sets. *)
Record tm : Type := mkTm {
  tm_year : Z; tm_mon : Z; tm_mday : Z;
  tm_hour : Z; tm_min : Z; tm_sec : Z; tm_isdst : Z
}.

(** [for (chr = ptr + len - 1; chr >= ptr; chr--)], on the chars from the last
    to the first; [int] arithmetic is written with its wrap-around. *)
Fixpoint get_val_from_string_loop (chars : list Z) (ret pow : Z) : Z :=
  match chars with
  | [] => ret
  | chr :: chars =>
      get_val_from_string_loop chars
        (to_int (ret + to_int ((chr - 48) * pow))) (to_int (pow * 10))
  end.

(** [ptr] is an index into [buff]; [None]: the loop reads outside [buff]. *)
Definition get_val_from_string (buff : list Z) (ptr len : Z) : option Z :=
  if len <=? 0 then Some 0
  else if (0 <=? ptr) && (ptr + len <=? Z.of_nat (length buff)) then
    Some (get_val_from_string_loop
            (rev (take (Z.to_nat len) (drop (Z.to_nat ptr) buff))) 0 1)
  else None.

(** [mktime] is the C library's. *)
Definition parse_date_string (mktime : tm -> Z) (buff : list Z) : option Z :=
  year ← get_val_from_string buff 0 4;
  mon ← get_val_from_string buff 4 2;
  mday ← get_val_from_string buff 6 2;
  hour ← get_val_from_string buff 8 2;
  min ← get_val_from_string buff 10 2;
  sec ← get_val_from_string buff 12 2;
  flag ← buff !! 14%nat;
  Some (mktime (mkTm (to_int (year - 1900)) mon mday hour min sec
                  (if flag =? 68 then 1 else 0))).

(** The number a list of decimal digits stands for. *)
Definition decimal (digits : list Z) : Z :=
  fold_left (fun a d => 10 * a + d) digits 0.

Definition digit_chars (digits : list Z) : list Z :=
  map (fun d => d + 48) digits.

(** * Properties *)

(** ** The monad *)

Lemma bind_Ok {A B} (m : M A) (k : A -> M B) s a s' :
  m s = Ok (a, s') -> (x <- m ;; k x) s = k a s'.
Proof. unfold bind. intros ->. reflexivity. Qed.

Lemma bind_Fault {A B} (m : M A) (k : A -> M B) s f :
  m s = Fault f -> (x <- m ;; k x) s = Fault f.
Proof. unfold bind. intros ->. reflexivity. Qed.

(** ** Integer conversions *)

Lemma to_uchar_range z : 0 <= to_uchar z < 256.
Proof. unfold to_uchar. apply Z.mod_pos_bound. lia. Qed.

Lemma to_uchar_small z : 0 <= z < 256 -> to_uchar z = z.
Proof. unfold to_uchar. intros. apply Z.mod_small. lia. Qed.

Lemma to_uchar_idemp z : to_uchar (to_uchar z) = to_uchar z.
Proof. apply to_uchar_small, to_uchar_range. Qed.

Lemma to_uchar_to_schar z : to_uchar (to_schar z) = to_uchar z.
Proof. unfold to_uchar, to_schar. Z.div_mod_to_equations. lia. Qed.

Lemma to_uchar_to_char `{Platform} z : to_uchar (to_char z) = to_uchar z.
Proof.
  unfold to_char. destruct char_signed.
  - apply to_uchar_to_schar.
  - apply to_uchar_idemp.
Qed.

Lemma to_char_to_uchar `{Platform} z : to_char (to_uchar z) = to_char z.
Proof.
  unfold to_char. destruct char_signed.
  - unfold to_uchar, to_schar. Z.div_mod_to_equations. lia.
  - apply to_uchar_idemp.
Qed.

Lemma to_short_range z : -32768 <= to_short z <= 32767.
Proof. unfold to_short. Z.div_mod_to_equations. lia. Qed.

Lemma to_short_small z : -32768 <= z <= 32767 -> to_short z = z.
Proof. unfold to_short. intros. Z.div_mod_to_equations. lia. Qed.

Lemma to_short_idemp z : to_short (to_short z) = to_short z.
Proof. apply to_short_small, to_short_range. Qed.

Lemma to_int_range z : -2147483648 <= to_int z <= 2147483647.
Proof. unfold to_int. Z.div_mod_to_equations. lia. Qed.

Lemma to_int_small z : -2147483648 <= z <= 2147483647 -> to_int z = z.
Proof. unfold to_int. intros. Z.div_mod_to_equations. lia. Qed.

Lemma to_uint_range z : 0 <= to_uint z < 4294967296.
Proof. unfold to_uint. apply Z.mod_pos_bound. lia. Qed.

Lemma to_uint_small z : 0 <= z < 4294967296 -> to_uint z = z.
Proof. unfold to_uint. intros. apply Z.mod_small. lia. Qed.

Lemma to_int_to_uint z : to_int (to_uint z) = to_int z.
Proof. unfold to_int, to_uint. Z.div_mod_to_equations. lia. Qed.

Lemma to_uint_to_int z : to_uint (to_int z) = to_uint z.
Proof. unfold to_int, to_uint. Z.div_mod_to_equations. lia. Qed.

Lemma to_int64_small z :
  -9223372036854775808 <= z <= 9223372036854775807 -> to_int64 z = z.
Proof. unfold to_int64. intros. Z.div_mod_to_equations. lia. Qed.

Lemma to_uint_to_int64 z : to_uint (to_int64 z) = to_uint z.
Proof. unfold to_int64, to_uint. Z.div_mod_to_equations. lia. Qed.

Section LongWidth.
Context `{Platform}.

(** What fits an [int] fits a [long] of either width. *)
Lemma to_long_small z : -2147483648 <= z <= 2147483647 -> to_long z = z.
Proof.
  unfold to_long. intros.
  destruct long_64; [apply to_int64_small | apply to_int_small]; lia.
Qed.

(** An unsigned 32-bit number keeps its value in a 64-bit [long] and wraps
    into the negative half of a 32-bit one. *)
Lemma to_long_unsigned z :
  0 <= z < 4294967296 -> to_long z = if long_64 then z else to_int z.
Proof.
  unfold to_long. intros.
  destruct long_64; [apply to_int64_small; lia | reflexivity].
Qed.

Lemma to_long_unsigned_range z :
  0 <= z < 4294967296 -> -2147483648 <= to_long z < 4294967296.
Proof.
  intros Hz. rewrite to_long_unsigned by assumption.
  pose proof (to_int_range z). destruct long_64; lia.
Qed.

Lemma to_long_to_uint_small z :
  0 <= z <= 2147483647 -> to_long (to_uint z) = z.
Proof. intros. rewrite to_uint_small by lia. apply to_long_small. lia. Qed.

Lemma to_long_to_uint_negative z :
  -2147483648 <= z < 0 ->
  to_long (to_uint z) = if long_64 then z + 4294967296 else z.
Proof.
  intros Hz. rewrite to_long_unsigned by apply to_uint_range.
  destruct long_64.
  - unfold to_uint. Z.div_mod_to_equations. lia.
  - rewrite to_int_to_uint. apply to_int_small. lia.
Qed.

(** What [unmarshallLong] returns, stored in an [int]. *)
Lemma to_int_to_long_to_uint z : to_int (to_long (to_uint z)) = to_int z.
Proof.
  rewrite to_long_unsigned by apply to_uint_range.
  destruct long_64; [apply to_int_to_uint |].
  rewrite to_int_to_uint. apply to_int_small, to_int_range.
Qed.

Lemma to_uint_to_long z : to_uint (to_long z) = to_uint z.
Proof.
  unfold to_long.
  destruct long_64; [apply to_uint_to_int64 | apply to_uint_to_int].
Qed.

Lemma to_size_t_small z : 0 <= z < 4294967296 -> to_size_t z = z.
Proof.
  unfold to_size_t. intros. destruct long_64; [| apply to_uint_small; lia].
  unfold to_uint64. apply Z.mod_small. lia.
Qed.

(** A negative [int] taken for a [size_t] is at least [2^32 - 2^31]. *)
Lemma to_size_t_negative z :
  -2147483648 <= z < 0 -> 4294967296 + z <= to_size_t z.
Proof.
  unfold to_size_t, to_uint, to_uint64. intros. destruct long_64;
    Z.div_mod_to_equations; lia.
Qed.

Lemma to_size_t_nonneg z : 0 <= to_size_t z.
Proof.
  unfold to_size_t, to_uint, to_uint64.
  destruct long_64; Z.div_mod_to_equations; lia.
Qed.

End LongWidth.

(** Joining a multiple of [2^k] with a [k]-bit value is addition. *)
Lemma lor_high_low hi lo k :
  0 <= k -> 0 <= lo < 2 ^ k -> Z.lor (hi * 2 ^ k) lo = hi * 2 ^ k + lo.
Proof.
  intros Hk Hlo.
  assert (Hand : Z.land (hi * 2 ^ k) lo = 0).
  { apply Z.bits_inj'. intros n Hn.
    rewrite Z.land_spec, Z.bits_0.
    destruct (Z.lt_ge_cases n k) as [Hlt | Hge].
    - rewrite Z.mul_pow2_bits_low by lia. reflexivity.
    - assert (Z.testbit lo n = false) as ->; [| apply andb_false_r].
      destruct (Z.eq_dec lo 0) as [-> | Hne]; [apply Z.bits_0 |].
      apply Z.bits_above_log2; [lia |].
      apply Z.log2_lt_pow2; [lia |].
      apply Z.lt_le_trans with (2 ^ k); [lia |].
      apply Z.pow_le_mono_r; lia. }
  pose proof (Z.add_lor_land (hi * 2 ^ k) lo) as Hadd.
  rewrite Hand in Hadd. lia.
Qed.

Lemma land_255 z : Z.land z 255 = z mod 256.
Proof. change 255 with (Z.ones 8). rewrite Z.land_ones by lia. reflexivity. Qed.

Lemma byte_of_word z k :
  0 <= k ->
  Z.shiftr (Z.land z (255 * 2 ^ k)) k = (z / 2 ^ k) mod 256.
Proof.
  intros Hk. rewrite Z.shiftr_land, !Z.shiftr_div_pow2 by lia.
  rewrite Z.div_mul by lia. apply land_255.
Qed.

(** ** Byte access to a record *)

Lemma length_splice o data buf :
  0 <= o -> o + Z.of_nat (length data) <= Z.of_nat (length buf) ->
  length (splice o data buf) = length buf.
Proof.
  intros Ho Hlen. unfold splice.
  rewrite !length_app, length_take, length_drop. lia.
Qed.

Lemma splice_nil o buf : splice o [] buf = buf.
Proof.
  unfold splice. simpl. rewrite Nat.add_0_r. apply take_drop.
Qed.

Lemma splice_app o xs ys buf :
  0 <= o -> o + Z.of_nat (length xs) <= Z.of_nat (length buf) ->
  splice (o + Z.of_nat (length xs)) ys (splice o xs buf) = splice o (xs ++ ys) buf.
Proof.
  intros Ho Hlen. unfold splice.
  replace (Z.to_nat (o + Z.of_nat (length xs)))
    with (Z.to_nat o + length xs)%nat by lia.
  set (n := Z.to_nat o).
  assert (Hn : (n + length xs <= length buf)%nat) by lia.
  assert (Hl : length (take n buf ++ xs) = (n + length xs)%nat).
  { rewrite length_app, length_take. lia. }
  rewrite (app_assoc (take n buf) xs).
  rewrite take_app_length' by (symmetry; exact Hl).
  rewrite drop_app_ge by lia. rewrite Hl.
  rewrite drop_drop, length_app, <- !app_assoc.
  do 4 f_equal. lia.
Qed.

Lemma lookup_splice o data buf i :
  0 <= o -> o + Z.of_nat (length data) <= Z.of_nat (length buf) ->
  (i < length data)%nat ->
  splice o data buf !! (Z.to_nat o + i)%nat = data !! i.
Proof.
  intros Ho Hlen Hi. unfold splice.
  rewrite lookup_app_r by (rewrite length_take; lia).
  rewrite length_take.
  replace (Z.to_nat o + i - Z.to_nat o `min` length buf)%nat with i by lia.
  apply lookup_app_l. assumption.
Qed.

Lemma splice_same o n buf :
  0 <= o -> (Z.to_nat o + n <= length buf)%nat ->
  splice o (take n (drop (Z.to_nat o) buf)) buf = buf.
Proof.
  intros Ho Hn. unfold splice.
  rewrite length_take, length_drop.
  replace (Z.to_nat o + n `min` (length buf - Z.to_nat o))%nat
    with (Z.to_nat o + n)%nat by lia.
  rewrite <- (drop_drop buf), take_drop. apply take_drop.
Qed.

Lemma splice_overwrite o xs ys buf :
  0 <= o -> o + Z.of_nat (length xs) <= Z.of_nat (length buf) ->
  length ys = length xs ->
  splice o ys (splice o xs buf) = splice o ys buf.
Proof.
  intros Ho Hlen Hy. unfold splice.
  assert (Hl : length (take (Z.to_nat o) buf) = Z.to_nat o)
    by (rewrite length_take; lia).
  rewrite take_app_length' by (symmetry; exact Hl).
  rewrite (app_assoc (take (Z.to_nat o) buf) xs).
  rewrite drop_app_length' by (rewrite length_app, Hl, Hy; reflexivity).
  rewrite Hy. reflexivity.
Qed.

Lemma writeByte_record id o buf c :
  0 <= o < Z.of_nat (length buf) ->
  writeByte c (record_at id o buf)
  = Ok (tt, record_at id (o + 1) (splice o [to_uchar c] buf)).
Proof.
  intros Ho. unfold writeByte, record_at, in_buffer. simpl.
  destruct (Z.leb_spec 0 o); [| lia].
  destruct (Z.ltb_spec o (Z.of_nat (length buf))); [| lia]. simpl.
  unfold set_offset, splice. simpl.
  rewrite insert_take_drop by lia.
  repeat f_equal. lia.
Qed.

Lemma readByte_record id o buf c :
  0 <= o -> buf !! Z.to_nat o = Some c ->
  readByte (record_at id o buf) = Ok (to_uchar c, record_at id (o + 1) buf).
Proof.
  intros Ho Hc. unfold readByte, record_at, in_buffer. simpl.
  apply lookup_lt_Some in Hc as Hlt.
  destruct (Z.leb_spec 0 o); [| lia].
  destruct (Z.ltb_spec o (Z.of_nat (length buf))); [| lia]. simpl.
  rewrite Hc. reflexivity.
Qed.

Lemma writeBytes_record id o buf bytes :
  0 <= o -> o + Z.of_nat (length bytes) <= Z.of_nat (length buf) ->
  Forall (fun b => 0 <= b < 256) bytes ->
  writeBytes bytes (record_at id o buf)
  = Ok (tt, record_at id (o + Z.of_nat (length bytes)) (splice o bytes buf)).
Proof.
  intros Ho Hlen Hb. revert buf o Ho Hlen.
  induction Hb as [| b bytes Hb _ IH]; intros buf o Ho Hlen.
  - simpl. rewrite splice_nil, Z.add_0_r. reflexivity.
  - rewrite length_cons, Nat2Z.inj_succ in *.
    change (writeBytes (b :: bytes)) with (writeByte b ;; writeBytes bytes).
    rewrite (bind_Ok _ _ _ _ _ (writeByte_record id o buf b ltac:(lia))).
    rewrite to_uchar_small by assumption.
    rewrite IH by (rewrite ?length_splice; simpl; lia).
    change (o + 1) with (o + Z.of_nat (length [b])).
    rewrite splice_app by (simpl; lia).
    replace (o + Z.of_nat (length [b]) + Z.of_nat (length bytes))
      with (o + Z.succ (Z.of_nat (length bytes))) by (simpl; lia).
    reflexivity.
Qed.

(** Reading back a list of bytes stored at the cursor. *)
Lemma readByte_splice id o o0 buf bytes i c :
  0 <= o0 -> o0 + Z.of_nat (length bytes) <= Z.of_nat (length buf) ->
  bytes !! i = Some c -> o = o0 + Z.of_nat i ->
  readByte (record_at id o (splice o0 bytes buf))
  = Ok (to_uchar c, record_at id (o + 1) (splice o0 bytes buf)).
Proof.
  intros Ho0 Hlen Hc ->. apply readByte_record; [lia |].
  replace (Z.to_nat (o0 + Z.of_nat i)) with (Z.to_nat o0 + i)%nat by lia.
  rewrite lookup_splice; eauto using lookup_lt_Some.
Qed.

(** ** Shorts and longs *)

Lemma big_endian_2 v : big_endian 2 v = [(v / 256) mod 256; v mod 256].
Proof.
  unfold big_endian. simpl. rewrite Z.div_1_r. reflexivity.
Qed.

Lemma big_endian_4 v :
  big_endian 4 v
  = [(v / 16777216) mod 256; (v / 65536) mod 256; (v / 256) mod 256; v mod 256].
Proof.
  unfold big_endian. simpl. rewrite Z.div_1_r. reflexivity.
Qed.

Lemma big_endian_bytes n v : Forall (fun b => 0 <= b < 256) (big_endian n v).
Proof.
  unfold big_endian. apply Forall_map, Forall_forall. intros i _. simpl.
  apply Z.mod_pos_bound. lia.
Qed.

Lemma big_endian_to_short v : big_endian 2 (to_short v) = big_endian 2 v.
Proof.
  rewrite !big_endian_2. unfold to_short.
  f_equal; [| f_equal]; Z.div_mod_to_equations; lia.
Qed.

Lemma big_endian_to_uint v : big_endian 4 (to_uint v) = big_endian 4 v.
Proof.
  rewrite !big_endian_4. unfold to_uint.
  repeat (f_equal; try (Z.div_mod_to_equations; lia)).
Qed.

(** Four bytes, the first taken as [h] (signed or not), joined with [|]. *)
Lemma join_bytes h b2 b3 b4 :
  0 <= b2 < 256 -> 0 <= b3 < 256 -> 0 <= b4 < 256 ->
  Z.lor (h * 16777216) (b2 * 65536) = (h * 256 + b2) * 65536
  /\ Z.lor ((h * 256 + b2) * 65536) (Z.lor (b3 * 256) b4)
     = ((h * 256 + b2) * 256 + b3) * 256 + b4.
Proof.
  intros H2 H3 H4. split.
  - replace (h * 16777216) with ((h * 256) * 2 ^ 16) by lia.
    change 65536 with (2 ^ 16).
    rewrite (Z.lor_comm _ (b2 * 2 ^ 16)).
    rewrite <- !Z.shiftl_mul_pow2, <- Z.shiftl_lor by lia.
    f_equal. change 256 with (2 ^ 8). rewrite Z.lor_comm.
    apply lor_high_low; lia.
  - change (b3 * 256) with (b3 * 2 ^ 8). rewrite (lor_high_low b3) by lia.
    change 65536 with (2 ^ 16) at 1.
    rewrite lor_high_low by (change (2 ^ 16) with 65536; lia).
    change (2 ^ 16) with 65536. change (2 ^ 8) with 256. lia.
Qed.

Section ScalarFacts.
Context `{Platform}.

Lemma writeByte_to_char c s : writeByte (to_char c) s = writeByte c s.
Proof.
  unfold writeByte, fputc. rewrite to_uchar_to_char. reflexivity.
Qed.

Lemma marshallShort_writeBytes v s :
  marshallShort v s = writeBytes (big_endian 2 v) s.
Proof.
  rewrite <- big_endian_to_short, big_endian_2.
  unfold marshallShort. simpl.
  change 0xFF00 with (255 * 2 ^ 8). rewrite byte_of_word by lia.
  rewrite land_255. change (2 ^ 8) with 256.
  unfold bind. rewrite writeByte_to_char.
  destruct (writeByte _ s) as [[[] s1] |]; [| reflexivity].
  rewrite writeByte_to_char.
  destruct (writeByte _ s1) as [[[] s2] |]; reflexivity.
Qed.

Lemma big_endian_to_long v : big_endian 4 (to_long v) = big_endian 4 v.
Proof.
  rewrite <- (big_endian_to_uint (to_long v)), to_uint_to_long.
  apply big_endian_to_uint.
Qed.

Lemma marshallLong_writeBytes v s :
  marshallLong v s = writeBytes (big_endian 4 v) s.
Proof.
  rewrite <- big_endian_to_long, big_endian_4.
  unfold marshallLong. simpl.
  change 0x0000FF00 with (255 * 2 ^ 8).
  change 0x00FF0000 with (255 * 2 ^ 16).
  change 0xFF000000 with (255 * 2 ^ 24).
  rewrite !byte_of_word by lia. rewrite land_255.
  change (2 ^ 8) with 256. change (2 ^ 16) with 65536.
  change (2 ^ 24) with 16777216.
  unfold bind. rewrite writeByte_to_char.
  destruct (writeByte _ s) as [[[] s1] |]; [| reflexivity].
  rewrite writeByte_to_char.
  destruct (writeByte _ s1) as [[[] s2] |]; [| reflexivity].
  rewrite writeByte_to_char.
  destruct (writeByte _ s2) as [[[] s3] |]; [| reflexivity].
  rewrite writeByte_to_char.
  destruct (writeByte _ s3) as [[[] s4] |]; reflexivity.
Qed.

(** The value [unmarshallShort] builds from two bytes. *)
Lemma short_of_bytes v :
  let b1 := (v / 256) mod 256 in
  let b2 := v mod 256 in
  to_short (Z.lor (Z.shiftl b1 8) (Z.land b2 0x00FF)) = to_short v.
Proof.
  intros b1 b2.
  assert (0 <= b1 < 256) by (apply Z.mod_pos_bound; lia).
  assert (0 <= b2 < 256) by (apply Z.mod_pos_bound; lia).
  rewrite land_255, Z.shiftl_mul_pow2 by lia.
  rewrite (Z.mod_small b2) by lia.
  rewrite lor_high_low by lia.
  change (2 ^ 8) with 256. unfold to_short, b1, b2.
  Z.div_mod_to_equations. lia.
Qed.

(** The value [unmarshallLong] builds from four bytes: the unsigned number
    they spell, converted to [long].  With a 32-bit [long] the shift of the
    first byte reaches the sign bit; with a 64-bit [long] it does not. *)
Lemma long_of_bytes v :
  let b1 := (v / 16777216) mod 256 in
  let b2 := (v / 65536) mod 256 in
  let b3 := (v / 256) mod 256 in
  let b4 := v mod 256 in
  to_long (Z.lor (to_long (Z.lor (to_long (Z.shiftl b1 24))
                                 (Z.shiftl (Z.land b2 0x000000FF) 16)))
                 (Z.lor (Z.shiftl (Z.land b3 0x000000FF) 8)
                        (Z.land b4 0x000000FF)))
  = to_long (to_uint v).
Proof.
  intros b1 b2 b3 b4.
  assert (0 <= b1 < 256) by (apply Z.mod_pos_bound; lia).
  assert (0 <= b2 < 256) by (apply Z.mod_pos_bound; lia).
  assert (0 <= b3 < 256) by (apply Z.mod_pos_bound; lia).
  assert (0 <= b4 < 256) by (apply Z.mod_pos_bound; lia).
  rewrite !land_255, !Z.shiftl_mul_pow2 by lia.
  rewrite (Z.mod_small b2), (Z.mod_small b3), (Z.mod_small b4) by lia.
  change (2 ^ 8) with 256. change (2 ^ 16) with 65536.
  change (2 ^ 24) with 16777216.
  assert (Hv : to_uint v = ((b1 * 256 + b2) * 256 + b3) * 256 + b4).
  { unfold to_uint, b1, b2, b3, b4. Z.div_mod_to_equations. lia. }
  unfold to_long. destruct long_64.
  - destruct (join_bytes b1 b2 b3 b4) as [Hhi Hall]; try assumption.
    rewrite (to_int64_small (b1 * 16777216)) by lia.
    rewrite Hhi, (to_int64_small ((b1 * 256 + b2) * 65536)) by lia.
    rewrite Hall, Hv. reflexivity.
  - assert (Hh : exists h, to_int (b1 * 16777216) = h * 16777216
                           /\ -128 <= h < 128 /\ (h = b1 \/ h = b1 - 256)).
    { destruct (Z.lt_ge_cases b1 128).
      - exists b1. repeat split; [| lia | lia | auto].
        rewrite to_int_small by lia. lia.
      - exists (b1 - 256). repeat split; [| lia | lia | auto]. unfold to_int.
        Z.div_mod_to_equations. lia. }
    destruct Hh as (h & -> & Hr & Hh).
    destruct (join_bytes h b2 b3 b4) as [Hhi Hall]; try assumption.
    rewrite Hhi, (to_int_small ((h * 256 + b2) * 65536)) by lia.
    rewrite Hall, Hv. unfold to_int.
    destruct Hh as [-> | ->]; Z.div_mod_to_equations; lia.
Qed.

End ScalarFacts.

Section ScalarRoundTrip.
Context `{Platform}.

Lemma unmarshallShort_record id o buf c1 c2 :
  0 <= o ->
  buf !! Z.to_nat o = Some c1 -> buf !! Z.to_nat (o + 1) = Some c2 ->
  unmarshallShort (record_at id o buf)
  = Ok (to_short (Z.lor (Z.shiftl (to_uchar c1) 8) (Z.land (to_uchar c2) 0x00FF)),
        record_at id (o + 2) buf).
Proof.
  intros Ho H1 H2. unfold unmarshallShort.
  rewrite (bind_Ok _ _ _ _ _ (readByte_record id o buf c1 Ho H1)).
  rewrite (bind_Ok _ _ _ _ _ (readByte_record id (o + 1) buf c2 ltac:(lia) H2)).
  unfold ret. replace (o + 1 + 1) with (o + 2) by lia. reflexivity.
Qed.

Lemma unmarshallLong_record id o buf c1 c2 c3 c4 :
  0 <= o ->
  buf !! Z.to_nat o = Some c1 -> buf !! Z.to_nat (o + 1) = Some c2 ->
  buf !! Z.to_nat (o + 2) = Some c3 -> buf !! Z.to_nat (o + 3) = Some c4 ->
  unmarshallLong (record_at id o buf)
  = Ok (to_long
          (Z.lor (to_long (Z.lor (to_long (Z.shiftl (to_uchar c1) 24))
                                 (Z.shiftl (Z.land (to_uchar c2) 0x000000FF) 16)))
                 (Z.lor (Z.shiftl (Z.land (to_uchar c3) 0x000000FF) 8)
                        (Z.land (to_uchar c4) 0x000000FF))),
        record_at id (o + 4) buf).
Proof.
  intros Ho H1 H2 H3 H4. unfold unmarshallLong.
  rewrite (bind_Ok _ _ _ _ _ (readByte_record id o buf c1 Ho H1)).
  rewrite (bind_Ok _ _ _ _ _ (readByte_record id (o + 1) buf c2 ltac:(lia) H2)).
  replace (o + 1 + 1) with (o + 2) by lia.
  rewrite (bind_Ok _ _ _ _ _ (readByte_record id (o + 2) buf c3 ltac:(lia) H3)).
  replace (o + 2 + 1) with (o + 3) by lia.
  rewrite (bind_Ok _ _ _ _ _ (readByte_record id (o + 3) buf c4 ltac:(lia) H4)).
  unfold ret. replace (o + 3 + 1) with (o + 4) by lia. reflexivity.
Qed.

(** A short stored big-endian anywhere in the buffer reads back. *)
Lemma unmarshallShort_big_endian id o buf v :
  0 <= o ->
  take 2 (drop (Z.to_nat o) buf) = big_endian 2 v ->
  unmarshallShort (record_at id o buf) = Ok (to_short v, record_at id (o + 2) buf).
Proof.
  intros Ho Hb. rewrite big_endian_2 in Hb.
  assert (H1 : buf !! Z.to_nat o = Some ((v / 256) mod 256)).
  { rewrite <- (Nat.add_0_r (Z.to_nat o)), <- lookup_drop.
    rewrite <- (lookup_take_lt _ 2) by lia. rewrite Hb. reflexivity. }
  assert (H2 : buf !! Z.to_nat (o + 1) = Some (v mod 256)).
  { replace (Z.to_nat (o + 1)) with (Z.to_nat o + 1)%nat by lia.
    rewrite <- lookup_drop.
    rewrite <- (lookup_take_lt _ 2) by lia. rewrite Hb. reflexivity. }
  rewrite (unmarshallShort_record id o buf _ _ Ho H1 H2).
  rewrite !to_uchar_small by (apply Z.mod_pos_bound; lia).
  rewrite short_of_bytes. reflexivity.
Qed.

Lemma unmarshallLong_big_endian id o buf v :
  0 <= o ->
  take 4 (drop (Z.to_nat o) buf) = big_endian 4 v ->
  unmarshallLong (record_at id o buf)
  = Ok (to_long (to_uint v), record_at id (o + 4) buf).
Proof.
  intros Ho Hb. rewrite big_endian_4 in Hb.
  assert (Hk : forall k c, (k < 4)%nat ->
             [(v / 16777216) mod 256; (v / 65536) mod 256;
              (v / 256) mod 256; v mod 256] !! k = Some c ->
             buf !! Z.to_nat (o + Z.of_nat k) = Some c).
  { intros k c Hlt Hc.
    replace (Z.to_nat (o + Z.of_nat k)) with (Z.to_nat o + k)%nat by lia.
    rewrite <- lookup_drop, <- (lookup_take_lt _ 4) by lia.
    rewrite Hb. exact Hc. }
  pose proof (Hk 0%nat _ ltac:(lia) eq_refl) as H1.
  pose proof (Hk 1%nat _ ltac:(lia) eq_refl) as H2.
  pose proof (Hk 2%nat _ ltac:(lia) eq_refl) as H3.
  pose proof (Hk 3%nat _ ltac:(lia) eq_refl) as H4.
  rewrite Z.add_0_r in H1.
  rewrite (unmarshallLong_record id o buf _ _ _ _ Ho H1 H2 H3 H4).
  rewrite !to_uchar_small by (apply Z.mod_pos_bound; lia).
  rewrite long_of_bytes. reflexivity.
Qed.

Lemma take_drop_splice o data buf :
  0 <= o -> o + Z.of_nat (length data) <= Z.of_nat (length buf) ->
  take (length data) (drop (Z.to_nat o) (splice o data buf)) = data.
Proof.
  intros Ho Hlen. unfold splice.
  rewrite drop_app_length' by (rewrite length_take; lia).
  apply take_app_length.
Qed.

Lemma marshallShort_record id o buf v :
  0 <= o -> o + 2 <= Z.of_nat (length buf) ->
  marshallShort v (record_at id o buf)
  = Ok (tt, record_at id (o + 2) (splice o (big_endian 2 v) buf)).
Proof.
  intros Ho Hlen. rewrite marshallShort_writeBytes.
  rewrite writeBytes_record; auto using big_endian_bytes.
Qed.

Lemma marshallLong_record id o buf v :
  0 <= o -> o + 4 <= Z.of_nat (length buf) ->
  marshallLong v (record_at id o buf)
  = Ok (tt, record_at id (o + 4) (splice o (big_endian 4 v) buf)).
Proof.
  intros Ho Hlen. rewrite marshallLong_writeBytes.
  rewrite writeBytes_record; auto using big_endian_bytes.
Qed.

(** In a record with room at the cursor, [marshallShort v] stores the two
    bytes of [v] most significant first and [unmarshallShort] reads back [v]
    reduced to 16 bits, which is [v] itself for every signed short.
    [marshallLong v] stores the four low bytes of [v] the same way, and
    [unmarshallLong] reads back the unsigned number they spell, converted to
    [long]: that is [v] for every [v] from 0 to [2^31 - 1]; for a negative
    [v] of 32 bits it is [v] where [long] has 32 bits and [v + 2^32] where
    it has 64.  On any header, file-backed or not, the marshallers emit
    exactly these bytes in this order. *)
Lemma short_long_round_trip id o buf v :
  0 <= o ->
  (forall s, marshallShort v s = writeBytes (big_endian 2 v) s)
  /\ (forall s, marshallLong v s = writeBytes (big_endian 4 v) s)
  /\ (o + 2 <= Z.of_nat (length buf) ->
      let buf' := splice o (big_endian 2 v) buf in
      marshallShort v (record_at id o buf) = Ok (tt, record_at id (o + 2) buf')
      /\ unmarshallShort (record_at id o buf')
         = Ok (to_short v, record_at id (o + 2) buf')
      /\ (-32768 <= v <= 32767 -> to_short v = v))
  /\ (o + 4 <= Z.of_nat (length buf) ->
      let buf' := splice o (big_endian 4 v) buf in
      marshallLong v (record_at id o buf) = Ok (tt, record_at id (o + 4) buf')
      /\ unmarshallLong (record_at id o buf')
         = Ok (to_long (to_uint v), record_at id (o + 4) buf')
      /\ (0 <= v <= 2147483647 -> to_long (to_uint v) = v)
      /\ (-2147483648 <= v < 0 ->
          to_long (to_uint v) = if long_64 then v + 4294967296 else v)).
Proof.
  intros Ho. split; [| split; [| split]].
  - apply marshallShort_writeBytes.
  - apply marshallLong_writeBytes.
  - intros Hlen buf'. split; [| split].
    + apply marshallShort_record; assumption.
    + apply unmarshallShort_big_endian; [assumption |].
      apply (take_drop_splice o (big_endian 2 v)); [assumption |].
      simpl. lia.
    + apply to_short_small.
  - intros Hlen buf'. split; [| split; [| split]].
    + apply marshallLong_record; assumption.
    + apply unmarshallLong_big_endian; [assumption |].
      apply (take_drop_splice o (big_endian 4 v)); [assumption |].
      simpl. lia.
    + apply to_long_to_uint_small.
    + apply to_long_to_uint_negative.
Qed.

End ScalarRoundTrip.

Lemma short_long_round_trip_witness :
  0 <= 3
  /\ unmarshallShort
       (record_at 1 3 (splice 3 (big_endian 2 (-2)) (replicate 8 0)))
     = Ok (-2, record_at 1 5 (splice 3 (big_endian 2 (-2)) (replicate 8 0))).
Proof.
  split; [lia |].
  pose proof (short_long_round_trip (H := signed_char_platform)
                1 3 (replicate 8 0) (-2) ltac:(lia)) as (_ & _ & Hs & _).
  destruct (Hs ltac:(simpl; lia)) as (_ & Hr & _).
  exact Hr.
Defined.

(** C4.  Where [long] has 64 bits the sign of a long does not survive: -1 is
    written as the bytes FF FF FF FF and read back as 4294967295, because the
    shift of the first byte no longer reaches the sign bit.  With a 32-bit
    [long] the same bytes read as -1, and the short -1 comes back as -1 on
    both. *)
Theorem unmarshallLong_loses_sign :
  marshallLong (H := lp64_platform) (-1) (record_at 0 0 [0; 0; 0; 0])
  = Ok (tt, record_at 0 4 [255; 255; 255; 255])
  /\ unmarshallLong (H := lp64_platform) (record_at 0 0 [255; 255; 255; 255])
     = Ok (4294967295, record_at 0 4 [255; 255; 255; 255])
  /\ unmarshallLong (H := signed_char_platform)
       (record_at 0 0 [255; 255; 255; 255])
     = Ok (-1, record_at 0 4 [255; 255; 255; 255])
  /\ (marshallShort (H := lp64_platform) (-1) ;; advance (-2) ;;
      unmarshallShort) (record_at 0 0 [0; 0])
     = Ok (-1, record_at 0 2 [255; 255]).
Proof. repeat split; vm_compute; reflexivity. Qed.

(** ** tag_write *)

Lemma fwrite_app a b f :
  snd (fwrite b (snd (fwrite a f))) = snd (fwrite (a ++ b) f).
Proof.
  destruct f as [d p]. unfold fwrite. simpl.
  set (padded := d ++ replicate (p - length d) 0).
  assert (Hp : length (take p padded) = p).
  { rewrite length_take. unfold padded.
    rewrite length_app, length_replicate. lia. }
  assert (Hl : (p + length a
                <= length (take p padded ++ a ++ drop (p + length a) d))%nat).
  { rewrite !length_app, Hp. lia. }
  replace (p + length a
           - length (take p padded ++ a ++ drop (p + length a) d))%nat
    with 0%nat by lia.
  simpl. rewrite app_nil_r.
  rewrite (app_assoc (take p padded) a).
  rewrite take_app_length' by (rewrite length_app, Hp; reflexivity).
  rewrite drop_app_ge by (rewrite length_app, Hp; lia).
  rewrite !length_app, Hp, drop_drop, <- !app_assoc.
  f_equal; [| lia]. do 3 f_equal. f_equal. lia.
Qed.

Lemma write2_Ok f buffer count :
  0 <= count <= Z.of_nat (length buffer) -> count <= 2147483647 ->
  write2 f buffer count
  = Ok (count, snd (fwrite (take (Z.to_nat count) buffer) f)).
Proof.
  intros Hc Hmax. unfold write2.
  rewrite to_uint_small by lia.
  destruct (Z.leb_spec count (Z.of_nat (length buffer))); [| lia].
  unfold fwrite. cbn [snd]. rewrite length_take.
  replace (Z.of_nat (Z.to_nat count `min` length buffer)) with count by lia.
  rewrite to_int_small by lia. reflexivity.
Qed.

Section TagWrite.
Context `{Platform} `{Headers}.

(** C3.  A header whose cursor is at 0 leaves the file alone.  A record with
    [o > 0] bytes in a buffer of at least six bytes is written as the two
    big-endian bytes of its tag, the four big-endian bytes of [o] and the
    first [o] bytes of the buffer; buffer and cursor are the same after the
    call as before it.  For [TAG_VERSION] only the [o] payload bytes are
    written. *)
Theorem tag_write_frames saveFile id o buf :
  (forall s, offset (th s) = 0 -> tag_write saveFile s = Ok (saveFile, s))
  /\ (0 < o <= Z.of_nat (length buf) -> o <= 2147483647 ->
      6 <= Z.of_nat (length buf) -> id <> TAG_VERSION ->
      tag_write saveFile (record_at id o buf)
      = Ok (snd (fwrite (big_endian 2 id ++ big_endian 4 o
                           ++ take (Z.to_nat o) buf) saveFile),
            record_at id o buf))
  /\ (0 < o <= Z.of_nat (length buf) -> o <= 2147483647 ->
      id = TAG_VERSION ->
      tag_write saveFile (record_at id o buf)
      = Ok (snd (fwrite (take (Z.to_nat o) buf) saveFile), record_at id o buf)).
Proof.
  split; [| split].
  - intros s Hs. unfold tag_write. rewrite Hs. reflexivity.
  - intros Ho Hmax Hsix Hid. unfold tag_write, record_at.
    cbn [th offset tagID tagBuffer].
    destruct (Z.eqb_spec o 0); [lia |].
    destruct (Z.eqb_spec id TAG_VERSION); [contradiction |].
    cbn [negb]. unfold swap_out, tagHdrSize.
    destruct (Z.leb_spec 6 (Z.of_nat (length buf))); [| lia].
    rewrite to_int_small by lia.
    change (mkM (set_offset 0 (mkTH id o None)) buf) with (record_at id 0 buf).
    rewrite (bind_Ok _ _ _ _ _
               (marshallShort_record id 0 buf id ltac:(lia) ltac:(lia))).
    rewrite marshallLong_record by (rewrite ?length_splice; simpl; lia).
    set (hdr := big_endian 2 id ++ big_endian 4 o).
    assert (Hhdr : length hdr = 6%nat) by reflexivity.
    assert (Hs : splice (0 + 2) (big_endian 4 o)
                   (splice 0 (big_endian 2 id) buf) = splice 0 hdr buf).
    { change (0 + 2) with (0 + Z.of_nat (length (big_endian 2 id))).
      apply splice_app; simpl; lia. }
    rewrite !Hs.
    unfold record_at. cbn [th offset tagID tagBuffer].
    rewrite write2_Ok by (rewrite ?length_splice; rewrite ?Hhdr; lia).
    change (Z.to_nat (0 + 2 + 4)) with (length hdr).
    replace (take (length hdr) (splice 0 hdr buf)) with hdr.
    2:{ symmetry. apply (take_drop_splice 0 hdr buf); lia. }
    unfold swap_in.
    replace (splice 0 (take (Z.to_nat 6) buf) (splice 0 hdr buf)) with buf.
    2:{ rewrite splice_overwrite by (rewrite ?length_take; lia).
        change (take (Z.to_nat 6) buf)
          with (take 6 (drop (Z.to_nat 0) buf)).
        symmetry. apply splice_same; simpl; lia. }
    unfold set_offset. cbn [th offset tagID tagBuffer file].
    rewrite write2_Ok by lia.
    rewrite fwrite_app. unfold hdr. rewrite <- app_assoc.
    reflexivity.
  - intros Ho Hmax Hid. unfold tag_write, record_at.
    cbn [th offset tagID tagBuffer].
    destruct (Z.eqb_spec o 0); [lia |].
    destruct (Z.eqb_spec id TAG_VERSION); [| contradiction]. cbn [negb].
    cbn [th offset tagID tagBuffer].
    rewrite write2_Ok by lia. reflexivity.
Qed.

End TagWrite.

Lemma tag_write_frames_witness :
  tag_write (H := signed_char_platform) (H0 := fixture_headers)
    (mkFILE [9] 1) (record_at 4 3 [10; 20; 30; 40; 50; 60; 70])
  = Ok (mkFILE [9; 0; 4; 0; 0; 0; 3; 10; 20; 30] 10,
        record_at 4 3 [10; 20; 30; 40; 50; 60; 70]).
Proof.
  pose proof (tag_write_frames (H := signed_char_platform)
                (H0 := fixture_headers) (mkFILE [9] 1) 4 3
                [10; 20; 30; 40; 50; 60; 70]) as (_ & Hw & _).
  rewrite Hw; [reflexivity | simpl; lia | lia | simpl; lia | discriminate].
Defined.

(** ** tag_read *)

Lemma read2_Ok fp buf count :
  0 <= count < 4294967296 ->
  (length (take (Z.to_nat count) (remaining fp)) <= length buf)%nat ->
  let got := take (Z.to_nat count) (remaining fp) in
  read2 fp buf count
  = Ok (to_int (Z.of_nat (length got)),
        mkFILE (fdata fp) (fpos fp + length got),
        got ++ drop (length got) buf).
Proof.
  intros Hc Hfit got. unfold read2, fread.
  rewrite to_uint_small by assumption.
  fold (remaining fp). fold got.
  destruct (Nat.leb_spec (length got) (length buf)); [reflexivity |].
  unfold got in *. lia.
Qed.

Lemma remaining_advance fp n :
  remaining (mkFILE (fdata fp) (fpos fp + n)) = drop n (remaining fp).
Proof. unfold remaining. simpl. rewrite drop_drop. reflexivity. Qed.

Lemma decode_be_2 c1 c2 :
  to_short (Z.lor (Z.shiftl (to_uchar c1) 8) (Z.land (to_uchar c2) 0x00FF))
  = to_short (decode_be [c1; c2]).
Proof.
  pose proof (to_uchar_range c1). pose proof (to_uchar_range c2).
  rewrite land_255, Z.shiftl_mul_pow2 by lia.
  rewrite (Z.mod_small (to_uchar c2)) by lia.
  rewrite lor_high_low by lia. reflexivity.
Qed.

Lemma decode_be_4 `{Platform} c1 c2 c3 c4 :
  to_long
    (Z.lor (to_long (Z.lor (to_long (Z.shiftl (to_uchar c1) 24))
                           (Z.shiftl (Z.land (to_uchar c2) 0x000000FF) 16)))
           (Z.lor (Z.shiftl (Z.land (to_uchar c3) 0x000000FF) 8)
                  (Z.land (to_uchar c4) 0x000000FF)))
  = to_long (decode_be [c1; c2; c3; c4]).
Proof.
  pose proof (to_uchar_range c1). pose proof (to_uchar_range c2).
  pose proof (to_uchar_range c3). pose proof (to_uchar_range c4).
  set (v := ((to_uchar c1 * 256 + to_uchar c2) * 256 + to_uchar c3) * 256
            + to_uchar c4).
  change (decode_be [c1; c2; c3; c4]) with v.
  rewrite <- (to_uint_small v) by (unfold v; lia).
  rewrite <- (long_of_bytes v). cbv zeta.
  replace ((v / 16777216) mod 256) with (to_uchar c1)
    by (unfold v; Z.div_mod_to_equations; lia).
  replace ((v / 65536) mod 256) with (to_uchar c2)
    by (unfold v; Z.div_mod_to_equations; lia).
  replace ((v / 256) mod 256) with (to_uchar c3)
    by (unfold v; Z.div_mod_to_equations; lia).
  replace (v mod 256) with (to_uchar c4)
    by (unfold v; Z.div_mod_to_equations; lia).
  reflexivity.
Qed.

(** Decoding the header that has just been read into the buffer. *)
Lemma unmarshall_header `{Platform} hdr rest :
  length hdr = 6%nat ->
  (id <- unmarshallShort ;; len <- unmarshallLong ;; ret (id, len))
    (mkM (mkTH 0 0 None) (hdr ++ rest))
  = Ok ((to_short (decode_be (take 2 hdr)),
         to_long (decode_be (take 4 (drop 2 hdr)))),
        record_at 0 6 (hdr ++ rest)).
Proof.
  intros Hlen.
  destruct hdr as [| c1 [| c2 [| c3 [| c4 [| c5 [| c6 [| ? ?]]]]]]];
    try discriminate.
  change (mkM (mkTH 0 0 None)) with (record_at 0 0).
  set (b := [c1; c2; c3; c4; c5; c6] ++ rest).
  rewrite (bind_Ok _ _ _ _ _
             (unmarshallShort_record 0 0 b c1 c2 ltac:(lia) eq_refl eq_refl)).
  rewrite (bind_Ok _ _ _ _ _
             (unmarshallLong_record 0 (0 + 2) b c3 c4 c5 c6 ltac:(lia)
                eq_refl eq_refl eq_refl eq_refl)).
  unfold ret. rewrite decode_be_2, decode_be_4. reflexivity.
Qed.

Section TagRead.
Context `{Platform} `{Headers}.
Context {W : Type} (rs : Readers W).

Lemma tag_read_dispatch_unknown id minorVersion s (w : W) :
  id ∉ known_tags -> tag_read_dispatch rs id minorVersion s w = None.
Proof.
  unfold known_tags. intros Hid. unfold tag_read_dispatch.
  repeat match goal with
         | |- context [id =? ?t] =>
             destruct (Z.eqb_spec id t) as [Heq | _];
             [exfalso; apply Hid; rewrite Heq; set_solver |]
         end.
  reflexivity.
Qed.

(** The first half of [tag_read], up to the sanity check. *)
Lemma tag_read_short_header fp minorVersion buf (w : W) :
  6 <= Z.of_nat (length buf) ->
  Z.of_nat (length (remaining fp)) < 6 ->
  exists fp' buf', tag_read rs fp minorVersion buf w = Ok (0, fp', buf', w).
Proof.
  intros Hbuf Hshort. unfold tag_read, tagHdrSize.
  rewrite read2_Ok by (rewrite ?length_take; lia). cbv zeta.
  rewrite length_take, to_int_small by lia.
  destruct (Z.eqb_spec (Z.of_nat (Z.to_nat 6 `min` length (remaining fp))) 6);
    [lia |].
  simpl. eauto.
Qed.

Lemma tag_read_after_header fp minorVersion buf (w : W) :
  6 <= Z.of_nat (length buf) ->
  6 <= Z.of_nat (length (remaining fp)) ->
  let fp1 := mkFILE (fdata fp) (fpos fp + 6) in
  let buf1 := take 6 (remaining fp) ++ drop 6 buf in
  tag_read rs fp minorVersion buf w
  = if (next_tagID fp <=? 0) || (next_length fp <=? 0) then Ok (0, fp1, buf1, w)
    else
      match read2 fp1 buf1 (next_length fp) with
      | Fault f => Fault f
      | Ok (n, fp2, buf2) =>
          if negb (n =? next_length fp) then Ok (0, fp2, buf2, w)
          else
            match tag_read_dispatch rs (next_tagID fp) minorVersion
                    (mkM (mkTH 0 0 None) buf2) w with
            | Some (Ok (s, w)) => Ok (next_tagID fp, fp2, tagBuffer s, w)
            | Some (Fault f) => Fault f
            | None => Ok (0, fp2, buf2, w)
            end
      end.
Proof.
  intros Hbuf Hhdr fp1 buf1. unfold tag_read, tagHdrSize.
  rewrite read2_Ok by (rewrite ?length_take; lia). cbv zeta.
  change (Z.to_nat 6) with 6%nat.
  assert (Hlen : length (take 6 (remaining fp)) = 6%nat)
    by (rewrite length_take; lia).
  rewrite Hlen. change (to_int (Z.of_nat 6) =? 6) with true. cbn [negb].
  rewrite unmarshall_header by assumption.
  cbn [tagID offset].
  rewrite to_short_idemp, take_take.
  replace (take 4 (drop 2 (take 6 (remaining fp))))
    with (take 4 (drop 2 (remaining fp))).
  2:{ rewrite (take_drop_commute (take 6 (remaining fp))), take_take.
      rewrite (take_drop_commute (remaining fp)). reflexivity. }
  reflexivity.
Qed.

End TagRead.

Lemma decode_be_range bytes :
  0 <= decode_be bytes < 256 ^ Z.of_nat (length bytes).
Proof.
  unfold decode_be.
  induction bytes as [| b bytes IH] using rev_ind; [simpl; lia |].
  rewrite fold_left_app, length_app, Nat2Z.inj_add, Z.pow_add_r by lia.
  cbn [fold_left length]. change (256 ^ Z.of_nat 1) with 256.
  pose proof (to_uchar_range b). lia.
Qed.

Section TagReadClaims.
Context `{Platform} `{Headers}.
Context {W : Type} (rs : Readers W).

(** The length field is an unsigned 32-bit number taken for a [long]. *)
Lemma next_length_range fp : -2147483648 <= next_length fp < 4294967296.
Proof.
  unfold next_length. apply to_long_unsigned_range.
  pose proof (decode_be_range (take 4 (drop 2 (remaining fp)))) as Hr.
  assert (256 ^ Z.of_nat (length (take 4 (drop 2 (remaining fp))))
          <= 256 ^ 4)
    by (apply Z.pow_le_mono_r; rewrite ?length_take; lia).
  lia.
Qed.

Lemma read2_payload fp buf :
  0 < next_length fp ->
  (length (next_payload fp) <= length buf)%nat ->
  read2 (mkFILE (fdata fp) (fpos fp + 6)) buf (next_length fp)
  = Ok (to_int (Z.of_nat (length (next_payload fp))),
        mkFILE (fdata fp) (fpos fp + 6 + length (next_payload fp)),
        next_payload fp ++ drop (length (next_payload fp)) buf).
Proof.
  intros Hpos Hfit.
  pose proof (next_length_range fp) as Hr.
  rewrite read2_Ok; rewrite ?remaining_advance; [reflexivity | lia |].
  exact Hfit.
Qed.

(** The [int] that [read2] returns for a payload cut short is not the
    declared length. *)
Lemma truncated_count_differs fp :
  Z.of_nat (length (next_payload fp)) < next_length fp ->
  to_int (Z.of_nat (length (next_payload fp))) <> next_length fp.
Proof.
  intros Htrunc. pose proof (next_length_range fp) as Hr.
  unfold to_int. Z.div_mod_to_equations. lia.
Qed.

(** C2 (amended).  With a buffer of at least six bytes, [tag_read] returns 0,
    leaving the game state alone, when the stream holds fewer than six more
    bytes, when the type ID or the length decoded from the header is not
    positive, and when the stream delivers fewer payload bytes than the
    header declares, provided the delivered bytes fit the buffer.  It does
    not fault or exit.  The length is the four bytes of the header taken for
    a [long]: with 32 bits the lengths from [2^31] on count as negative, with
    64 bits they are positive and the payload is read. *)
Theorem tag_read_no_record fp minorVersion buf (w : W) :
  6 <= Z.of_nat (length buf) ->
  Z.of_nat (length (remaining fp)) < 6
  \/ (6 <= Z.of_nat (length (remaining fp))
      /\ (next_tagID fp <= 0 \/ next_length fp <= 0))
  \/ (6 <= Z.of_nat (length (remaining fp))
      /\ Z.of_nat (length (next_payload fp)) < next_length fp
      /\ (length (next_payload fp) <= length buf)%nat) ->
  exists fp' buf', tag_read rs fp minorVersion buf w = Ok (0, fp', buf', w).
Proof.
  intros Hbuf [Hshort | [[Hhdr Hbad] | (Hhdr & Htrunc & Hfit)]].
  - apply tag_read_short_header; assumption.
  - rewrite tag_read_after_header by assumption. cbv zeta.
    assert ((next_tagID fp <=? 0) || (next_length fp <=? 0) = true) as ->.
    { apply orb_true_iff. destruct Hbad; [left | right]; apply Z.leb_le; lia. }
    eauto.
  - rewrite tag_read_after_header by assumption. cbv zeta.
    destruct ((next_tagID fp <=? 0) || (next_length fp <=? 0)); [eauto |].
    rewrite read2_payload;
      [| lia | rewrite length_app, length_take, length_drop; lia].
    destruct (Z.eqb_spec (to_int (Z.of_nat (length (next_payload fp))))
                (next_length fp)) as [Heq |];
      [exfalso; exact (truncated_count_differs fp Htrunc Heq) |].
    simpl. eauto.
Qed.

(** C1 (amended).  A well-formed header with a positive type ID that matches
    no case label, followed by a fully readable payload that fits the buffer:
    [tag_read] consumes header and payload and returns 0; it does not exit and
    the game state is as before. *)
Theorem tag_read_unknown_tag fp minorVersion buf (w : W) :
  6 <= Z.of_nat (length (remaining fp)) ->
  0 < next_tagID fp -> 0 < next_length fp ->
  Z.of_nat (length (next_payload fp)) = next_length fp ->
  6 <= Z.of_nat (length buf) -> next_length fp <= Z.of_nat (length buf) ->
  next_tagID fp ∉ known_tags ->
  exists buf',
    tag_read rs fp minorVersion buf w
    = Ok (0, mkFILE (fdata fp) (fpos fp + 6 + Z.to_nat (next_length fp)),
          buf', w)
    /\ take (Z.to_nat (next_length fp)) buf' = next_payload fp.
Proof.
  intros Hhdr Hid Hlen Hfull Hbuf Hfit Hunknown.
  rewrite tag_read_after_header by assumption. cbv zeta.
  destruct (Z.leb_spec (next_tagID fp) 0); [lia |].
  destruct (Z.leb_spec (next_length fp) 0); [lia |]. cbn [orb].
  rewrite read2_payload;
    [| lia | rewrite length_app, length_take, length_drop; lia].
  rewrite tag_read_dispatch_unknown by assumption.
  exists (next_payload fp ++ drop (length (next_payload fp))
            (take 6 (remaining fp) ++ drop 6 buf)).
  split.
  - rewrite <- Hfull, Nat2Z.id.
    destruct (negb _); reflexivity.
  - rewrite <- Hfull, Nat2Z.id. apply take_app_length.
Qed.

End TagReadClaims.

(** C1, as stated, fails: a stream holding a record of type 99 with a
    two-byte payload makes [tag_read] return 0; the process does not exit. *)
Lemma unknown_tag_returns_zero :
  tag_read (H := signed_char_platform) (H0 := fixture_headers) idle_readers
    (mkFILE [0; 99; 0; 0; 0; 2; 7; 7] 0) 0 (replicate 16 0) tt
  = Ok (0, mkFILE [0; 99; 0; 0; 0; 2; 7; 7] 8,
        [7; 7; 0; 0; 0; 2; 0; 0; 0; 0; 0; 0; 0; 0; 0; 0], tt)
  /\ ~ unknown_tag_aborts (H := signed_char_platform)
        (H0 := fixture_headers).
Proof.
  split; [reflexivity |].
  intros Hclaim.
  destruct (Hclaim unit idle_readers (mkFILE [0; 99; 0; 0; 0; 2; 7; 7] 0) 0
              (replicate 16 0) tt) as (code & diag & Habs);
    try (vm_compute; congruence).
  - unfold known_tags. vm_compute. intros Hin.
    repeat (apply elem_of_cons in Hin as [Hin | Hin]; [discriminate |]).
    apply elem_of_nil in Hin. exact Hin.
  - vm_compute in Habs. discriminate.
Qed.

(** C2, as stated, fails: a header that declares 100 payload bytes, on a
    stream that delivers 50 of them, is a truncated record, yet [tag_read]
    does not return 0 when the buffer has 16 bytes -- the 50 bytes are copied
    over its end.  [tag_read] has no check of the length against the size of
    the buffer. *)
Lemma truncated_payload_overruns_buffer :
  tag_read (H := signed_char_platform) (H0 := fixture_headers) idle_readers
    (mkFILE ([0; 4; 0; 0; 0; 100] ++ replicate 50 7) 0) 0 (replicate 16 0) tt
  = Fault (OutOfBounds TagBuffer)
  /\ ~ truncated_record_is_no_record (H := signed_char_platform)
        (H0 := fixture_headers).
Proof.
  split; [vm_compute; reflexivity |].
  intros Hclaim.
  destruct (Hclaim unit idle_readers
              (mkFILE ([0; 4; 0; 0; 0; 100] ++ replicate 50 7) 0) 0
              (replicate 16 0) tt) as (fp' & buf' & Habs).
  - vm_compute. congruence.
  - right. right. vm_compute. split; [congruence | reflexivity].
  - vm_compute in Habs. discriminate.
Qed.

Lemma tag_read_no_record_witness :
  exists fp' buf',
    tag_read (H := signed_char_platform) (H0 := fixture_headers) idle_readers
      (mkFILE [0; 4; 0; 0; 0; 9; 7; 7] 0) 0 (replicate 16 0) tt
    = Ok (0, fp', buf', tt).
Proof.
  apply (tag_read_no_record (H := signed_char_platform)
           (H0 := fixture_headers) idle_readers).
  - simpl. lia.
  - right. right. vm_compute. repeat split; try congruence. lia.
Defined.

Lemma tag_read_unknown_tag_witness :
  exists buf',
    tag_read (H := signed_char_platform) (H0 := fixture_headers) idle_readers
      (mkFILE [0; 99; 0; 0; 0; 2; 7; 7] 0) 0 (replicate 16 0) tt
    = Ok (0, mkFILE [0; 99; 0; 0; 0; 2; 7; 7] 8, buf', tt)
    /\ take 2 buf' = [7; 7].
Proof.
  apply (tag_read_unknown_tag (H := signed_char_platform)
           (H0 := fixture_headers) idle_readers
           (mkFILE [0; 99; 0; 0; 0; 2; 7; 7] 0) 0 (replicate 16 0) tt);
    try (vm_compute; congruence).
  unfold known_tags. vm_compute. intros Hin.
  repeat (apply elem_of_cons in Hin as [Hin | Hin]; [discriminate |]).
  apply elem_of_nil in Hin. exact Hin.
Defined.

(** The length field with its top bit set: negative for a 32-bit [long],
    so that [tag_read] stops at the sanity check; positive for a 64-bit one,
    so that it goes on to read the payload. *)
Example next_length_top_bit :
  next_length (H := signed_char_platform) (mkFILE [0; 4; 128; 0; 0; 0; 7] 0)
  = -2147483648
  /\ next_length (H := lp64_platform) (mkFILE [0; 4; 128; 0; 0; 0; 7] 0)
     = 2147483648.
Proof. split; vm_compute; reflexivity. Qed.

(** ** tag_missing and the attitude recovery *)

Section Missing.
Context `{Headers}.

(** C8.  Every tag but [TAG_LEVEL_ATTITUDE] makes [tag_missing] report that
    the tag is missing and exit with code -1; it does not return. *)
Theorem tag_missing_fatal tag minorVersion menv :
  tag <> TAG_LEVEL_ATTITUDE ->
  tag_missing tag minorVersion menv
  = Fault (Exit (-1) "Tag %d is missing;  file is likely corrupt.")
  /\ forall menv', tag_missing tag minorVersion menv <> Ok menv'.
Proof.
  intros Htag. unfold tag_missing, end_.
  destruct (Z.eqb_spec tag TAG_LEVEL_ATTITUDE); [contradiction |].
  split; [reflexivity | discriminate].
Qed.

Lemma tag_missing_level_attitude_recovers minorVersion menv :
  tag_missing TAG_LEVEL_ATTITUDE minorVersion menv
  = Ok (tag_missing_level_attitude menv).
Proof. unfold tag_missing. rewrite Z.eqb_refl. reflexivity. Qed.

(** What one pass of the loop does to an actual monster: foe and attitude
    depend on the monster alone, the behaviour also on [new_beh] as the
    earlier monsters left it. *)
Lemma tag_missing_level_attitude_body_spec new_beh mon :
  0 <= type mon ->
  let '(new_beh', mon') := tag_missing_level_attitude_body new_beh mon in
  foe mon' = MHITNOT
  /\ foe_memory mon' = 0
  /\ attitude mon'
     = (if testbits (flags mon) MF_CREATED_FRIENDLY
           || (behaviour mon =? 7) && negb (has_ench mon ENCH_CHARM)
        then ATT_FRIENDLY else ATT_HOSTILE)
  /\ behaviour mon' = new_beh'
  /\ new_beh'
     = (if behaviour mon =? 0 then BEH_SLEEP
        else if (behaviour mon =? 3) || (behaviour mon =? 10) then BEH_FLEE
        else if (behaviour mon =? 1) || (behaviour mon =? 6) then BEH_SEEK
        else new_beh).
Proof.
  intros Htype. unfold tag_missing_level_attitude_body.
  destruct (Z.ltb_spec (type mon) 0); [lia |].
  generalize (behaviour mon) as b. intros b.
  destruct (Z.eqb_spec b 0) as [-> | ?];
    [simpl; rewrite orb_false_r; auto |].
  destruct (Z.eqb_spec b 3) as [-> | ?];
    [simpl; rewrite orb_false_r; auto |].
  destruct (Z.eqb_spec b 10) as [-> | ?];
    [simpl; rewrite orb_false_r; auto |].
  destruct (Z.eqb_spec b 1) as [-> | ?];
    [simpl; rewrite orb_false_r; auto |].
  destruct (Z.eqb_spec b 6) as [-> | ?];
    [simpl; rewrite orb_false_r; auto |].
  destruct (Z.eqb_spec b 7) as [-> | ?]; simpl.
  - destruct (has_ench mon ENCH_CHARM), (testbits _ _); simpl; auto.
  - rewrite orb_false_r. auto.
Qed.

(** C7 fails on the code: [new_beh] is initialised once, before the loop, so
    a monster whose legacy code has no case of its own (here 2) inherits the
    behaviour computed for an earlier monster (here [BEH_SLEEP], from a
    sleeper) instead of [BEH_WANDER], which it gets when it comes first. *)
Theorem tag_missing_level_attitude_inherits_behaviour (menv : list monsters) :
  let sleeper := mkMonster 1 0 0 0 0 0 [] in
  let other := mkMonster 1 0 2 0 0 0 [] in
  take 2 (map behaviour (tag_missing_level_attitude (sleeper :: other :: menv)))
  = [BEH_SLEEP; BEH_SLEEP]
  /\ take 1 (map behaviour (tag_missing_level_attitude (other :: menv)))
     = [BEH_WANDER].
Proof. split; reflexivity. Qed.

End Missing.

Lemma tag_missing_fatal_witness :
  tag_missing (H := fixture_headers) 4 0 []
  = Fault (Exit (-1) "Tag %d is missing;  file is likely corrupt.").
Proof.
  apply (tag_missing_fatal (H := fixture_headers) 4 0 []). discriminate.
Defined.

(** ** Strings *)

Lemma take_app_split {A} k n (l a b : list A) :
  take (k + n) l = a ++ b -> length a = k ->
  take k l = a /\ take n (drop k l) = b.
Proof.
  intros Hl Ha. split.
  - replace (take k l) with (take k (take (k + n) l))
      by (rewrite take_take; f_equal; lia).
    rewrite Hl. apply take_app_length'. auto.
  - rewrite take_drop_commute, Hl. apply drop_app_length'. auto.
Qed.

Lemma write_record `{Platform} id o buf data size :
  0 <= o -> 0 <= size < 4294967296 ->
  o + size <= Z.of_nat (length buf) -> size <= Z.of_nat (length data) ->
  write data size (record_at id o buf)
  = Ok (tt, record_at id (o + size) (splice o (take (Z.to_nat size) data) buf)).
Proof.
  intros Ho Hs Hroom Hdata. unfold write, record_at. simpl.
  rewrite to_size_t_small by assumption.
  destruct (Z.leb_spec 0 o); [| lia].
  destruct (Z.leb_spec (o + size) (Z.of_nat (length buf))); [| lia].
  reflexivity.
Qed.

Lemma read_record `{Platform} id o buf dest size :
  0 <= o -> 0 <= size < 4294967296 ->
  o + size <= Z.of_nat (length buf) -> size <= Z.of_nat (length dest) ->
  read dest size (record_at id o buf)
  = Ok (take (Z.to_nat size) (drop (Z.to_nat o) buf) ++ drop (Z.to_nat size) dest,
        record_at id (o + size) buf).
Proof.
  intros Ho Hs Hroom Hdest. unfold read, record_at. simpl.
  rewrite to_size_t_small by assumption.
  destruct (Z.leb_spec 0 o); [| lia].
  destruct (Z.leb_spec (o + size) (Z.of_nat (length buf))); [| lia].
  destruct (Z.leb_spec size (Z.of_nat (length dest))); [| lia].
  reflexivity.
Qed.

Lemma advance_record id o buf skip :
  advance skip (record_at id o buf) = Ok (tt, record_at id (o + skip) buf).
Proof. reflexivity. Qed.

Section StringFacts.
Context `{Platform}.

Lemma stored_length_bounds data maxSize :
  0 <= stored_length data maxSize <= Z.of_nat (length data).
Proof.
  unfold stored_length.
  destruct (Z.ltb_spec 0 maxSize), (Z.ltb_spec maxSize (Z.of_nat (length data)));
    simpl; lia.
Qed.

Lemma marshallString_record id o buf data maxSize :
  let len := stored_length data maxSize in
  Z.of_nat (length data) <= 2147483647 ->
  0 <= o -> o + 2 + len <= Z.of_nat (length buf) ->
  marshallString data maxSize (record_at id o buf)
  = Ok (tt, record_at id (o + 2 + len)
              (splice o (big_endian 2 len ++ take (Z.to_nat len) data) buf)).
Proof.
  intros len Hmax Ho Hroom.
  pose proof (stored_length_bounds data maxSize) as Hlen. fold len in Hlen.
  unfold marshallString.
  rewrite to_int_small by lia. fold (stored_length data maxSize). fold len.
  rewrite (bind_Ok _ _ _ _ _
             (marshallShort_record id o buf len Ho ltac:(lia))).
  rewrite write_record; unfold c_str;
    rewrite ?length_splice, ?length_app; simpl; try lia.
  rewrite take_app_le by lia.
  replace (o + 2) with (o + Z.of_nat (length (big_endian 2 len))) at 2
    by reflexivity.
  rewrite splice_app by (simpl; lia).
  reflexivity.
Qed.

Lemma unmarshallCString_record id o buf dest maxSize len bytes :
  let copylen := copy_length len maxSize in
  0 <= o -> 0 <= len <= 32767 -> Z.of_nat (length bytes) = len ->
  take (2 + length bytes) (drop (Z.to_nat o) buf) = big_endian 2 len ++ bytes ->
  copylen < Z.of_nat (length dest) ->
  unmarshallCString dest maxSize (record_at id o buf)
  = Ok ((copylen,
         take (Z.to_nat copylen) bytes ++ [0]
           ++ drop (Z.to_nat copylen + 1) dest),
        record_at id (o + 2 + len) buf).
Proof.
  intros copylen Ho Hlen Hbytes Hat Hdest.
  assert (Hcl : 0 <= copylen <= len).
  { unfold copylen, copy_length.
    destruct (Z.leb_spec maxSize len), (Z.ltb_spec 0 maxSize); simpl; lia. }
  assert (Htotal : o + 2 + len <= Z.of_nat (length buf)).
  { apply (f_equal length) in Hat.
    rewrite length_take, length_drop, length_app in Hat.
    change (length (big_endian 2 len)) with 2%nat in Hat. lia. }
  destruct (take_app_split 2 (length bytes) (drop (Z.to_nat o) buf)
              (big_endian 2 len) bytes Hat eq_refl) as [Hhd Htl].
  unfold unmarshallCString.
  rewrite (bind_Ok _ _ _ _ _ (unmarshallShort_big_endian id o buf len Ho Hhd)).
  rewrite to_short_small by lia.
  fold (copy_length len maxSize). fold copylen.
  rewrite (bind_Ok _ _ _ _ _ (read_record id (o + 2) buf dest copylen
             ltac:(lia) ltac:(lia) ltac:(lia) ltac:(lia))).
  assert (Hpayload : take (Z.to_nat copylen) (drop (Z.to_nat (o + 2)) buf)
                     = take (Z.to_nat copylen) bytes).
  { rewrite drop_drop in Htl.
    replace (Z.to_nat (o + 2)) with (Z.to_nat o + 2)%nat by lia.
    rewrite <- Htl, take_take. f_equal. lia. }
  rewrite Hpayload.
  unfold store_char, in_buffer.
  rewrite length_app, length_take, length_drop.
  destruct (Z.leb_spec 0 copylen); [| lia].
  destruct (Z.ltb_spec copylen
              (Z.of_nat (Z.to_nat copylen `min` length bytes
                         + (length dest - Z.to_nat copylen)))); [| lia].
  cbn [andb]. unfold bind at 1. unfold ret at 1.
  rewrite (bind_Ok _ _ _ _ _ (advance_record id _ buf (len - copylen))).
  unfold ret.
  replace (o + 2 + copylen + (len - copylen)) with (o + 2 + len) by lia.
  do 3 f_equal.
  assert (Htk : length (take (Z.to_nat copylen) bytes) = Z.to_nat copylen)
    by (rewrite length_take; lia).
  rewrite insert_app_r_alt by lia.
  rewrite Htk, Nat.sub_diag.
  destruct (drop (Z.to_nat copylen) dest) as [| d rest] eqn:Hd.
  { apply (f_equal length) in Hd. rewrite length_drop in Hd. simpl in Hd. lia. }
  simpl. do 2 f_equal.
  rewrite <- drop_drop, Hd. reflexivity.
Qed.

Lemma unmarshallString_record id o buf maxSize len bytes :
  0 < maxSize ->
  0 <= o -> 0 <= len <= 32767 -> Z.of_nat (length bytes) = len ->
  take (2 + length bytes) (drop (Z.to_nat o) buf) = big_endian 2 len ++ bytes ->
  unmarshallString maxSize (record_at id o buf)
  = Ok (take (Z.to_nat (copy_length len maxSize)) bytes,
        record_at id (o + 2 + len) buf).
Proof.
  intros Hmax Ho Hlen Hbytes Hat.
  assert (Hcl : 0 <= copy_length len maxSize < maxSize
                /\ copy_length len maxSize <= len).
  { unfold copy_length.
    destruct (Z.leb_spec maxSize len), (Z.ltb_spec 0 maxSize); simpl; lia. }
  unfold unmarshallString.
  destruct (Z.leb_spec maxSize 0); [lia |].
  rewrite (bind_Ok _ _ _ _ _
             (unmarshallCString_record id o buf (replicate (Z.to_nat maxSize) 0)
                maxSize len bytes Ho Hlen Hbytes Hat
                ltac:(rewrite length_replicate; lia))).
  unfold ret. rewrite to_size_t_small by lia.
  rewrite take_app_length' by (rewrite length_take; lia).
  reflexivity.
Qed.

End StringFacts.

(** A negative stored length is taken for a byte count. *)
Lemma unmarshallCString_negative `{Platform} id o buf dest maxSize v :
  0 <= o -> take 2 (drop (Z.to_nat o) buf) = big_endian 2 v ->
  to_short v < 0 -> Z.of_nat (length buf) < 4294934528 ->
  unmarshallCString dest maxSize (record_at id o buf)
  = Fault (OutOfBounds TagBuffer).
Proof.
  intros Ho Hat Hneg Hbuf. unfold unmarshallCString.
  rewrite (bind_Ok _ _ _ _ _ (unmarshallShort_big_endian id o buf v Ho Hat)).
  pose proof (to_short_range v) as Hr.
  assert ((maxSize <=? to_short v) && (0 <? maxSize) = false) as ->.
  { destruct (Z.leb_spec maxSize (to_short v)), (Z.ltb_spec 0 maxSize);
      simpl; try reflexivity; lia. }
  apply bind_Fault. unfold read, record_at. simpl.
  pose proof (to_size_t_negative (to_short v) ltac:(lia)) as Hn.
  destruct (Z.leb_spec (o + 2 + to_size_t (to_short v))
              (Z.of_nat (length buf))); [lia |].
  rewrite andb_false_r. reflexivity.
Qed.

(** Between 32768 and 65535 the clamped length is stored as a negative short
    and the string cannot be read back. *)
Lemma unmarshallCString_after_long_clamp `{Platform}
    id o buf data dest maxSize s' :
  32768 <= maxSize <= 65535 -> maxSize < Z.of_nat (length data) ->
  Z.of_nat (length data) <= 2147483647 ->
  0 <= o -> o + 2 + maxSize <= Z.of_nat (length buf) ->
  Z.of_nat (length buf) < 4294934528 ->
  marshallString data maxSize (record_at id o buf) = Ok (tt, s') ->
  unmarshallCString dest maxSize (record_at id o (tagBuffer s'))
  = Fault (OutOfBounds TagBuffer).
Proof.
  intros Hmax Hlong Hint Ho Hroom Hbuf Hw.
  assert (Hst : stored_length data maxSize = maxSize).
  { unfold stored_length.
    destruct (Z.ltb_spec 0 maxSize), (Z.ltb_spec maxSize (Z.of_nat (length data)));
      simpl; lia. }
  pose proof (marshallString_record id o buf data maxSize) as Hm.
  cbv zeta in Hm. rewrite Hst in Hm.
  rewrite Hm in Hw by lia. injection Hw as <-.
  set (payload := take (Z.to_nat maxSize) data).
  assert (Hlen : length (big_endian 2 maxSize ++ payload)
                 = (2 + Z.to_nat maxSize)%nat).
  { unfold payload. rewrite length_app, length_take.
    change (length (big_endian 2 maxSize)) with 2%nat. lia. }
  cbn [tagBuffer record_at].
  change (mkM (mkTH id o None)) with (record_at id o).
  apply unmarshallCString_negative with (v := maxSize).
  - exact Ho.
  - apply (take_app_split 2 (Z.to_nat maxSize) _ (big_endian 2 maxSize) payload);
      [| reflexivity].
    rewrite <- Hlen. apply take_drop_splice; [lia |]. rewrite Hlen. lia.
  - unfold to_short. Z.div_mod_to_equations. lia.
  - change (_ :: _ :: payload) with (big_endian 2 maxSize ++ payload).
    rewrite length_splice; rewrite ?Hlen; lia.
Qed.

Section StringClaims.
Context `{Platform}.

Lemma marshallShort_record_inv id o buf v s1 :
  marshallShort v (record_at id o buf) = Ok (tt, s1) ->
  exists buf1, s1 = record_at id (o + 2) buf1.
Proof.
  rewrite marshallShort_writeBytes, big_endian_2.
  cbn [writeBytes]. unfold bind, ret.
  unfold writeByte at 1. cbn [record_at th file offset tagBuffer].
  destruct (in_buffer o buf); [| discriminate].
  unfold writeByte. cbn [th file offset tagBuffer set_offset].
  destruct (in_buffer (o + 1) _); [| discriminate].
  intros [= <-]. unfold record_at.
  replace (o + 1 + 1) with (o + 2) by lia. eauto.
Qed.

(** C5 (amended).  A string longer than [maxSize], with [maxSize] between 1
    and 32767, is stored as the length [maxSize] and its first [maxSize]
    chars.  Reading it back with the same [maxSize] gives the first
    [maxSize - 1] chars followed by the terminator, and the cursor ends where
    the writer's cursor ended, [2 + maxSize] bytes after the start. *)
Theorem marshallString_clamp_round_trip id o buf data dest maxSize :
  0 < maxSize <= 32767 -> maxSize < Z.of_nat (length data) ->
  Z.of_nat (length data) <= 2147483647 ->
  Z.of_nat (length dest) = maxSize ->
  0 <= o -> o + 2 + maxSize <= Z.of_nat (length buf) ->
  exists buf',
    marshallString data maxSize (record_at id o buf)
    = Ok (tt, record_at id (o + 2 + maxSize) buf')
    /\ unmarshallCString dest maxSize (record_at id o buf')
       = Ok ((maxSize - 1, take (Z.to_nat (maxSize - 1)) data ++ [0]),
             record_at id (o + 2 + maxSize) buf')
    /\ unmarshallString maxSize (record_at id o buf')
       = Ok (take (Z.to_nat (maxSize - 1)) data,
             record_at id (o + 2 + maxSize) buf').
Proof.
  intros Hmax Hlong Hint Hdest Ho Hroom.
  assert (Hst : stored_length data maxSize = maxSize).
  { unfold stored_length.
    destruct (Z.ltb_spec 0 maxSize), (Z.ltb_spec maxSize (Z.of_nat (length data)));
      simpl; lia. }
  assert (Hcp : copy_length maxSize maxSize = maxSize - 1).
  { unfold copy_length.
    destruct (Z.leb_spec maxSize maxSize), (Z.ltb_spec 0 maxSize); simpl; lia. }
  set (bytes := take (Z.to_nat maxSize) data).
  assert (Hbytes : Z.of_nat (length bytes) = maxSize)
    by (unfold bytes; rewrite length_take; lia).
  exists (splice o (big_endian 2 maxSize ++ bytes) buf).
  assert (Hat : take (2 + length bytes)
                  (drop (Z.to_nat o)
                     (splice o (big_endian 2 maxSize ++ bytes) buf))
                = big_endian 2 maxSize ++ bytes).
  { apply (take_drop_splice o (big_endian 2 maxSize ++ bytes) buf Ho).
    rewrite length_app. simpl. lia. }
  assert (Hprefix : take (Z.to_nat (maxSize - 1)) bytes
                    = take (Z.to_nat (maxSize - 1)) data).
  { unfold bytes. rewrite take_take. f_equal. lia. }
  split; [| split].
  - pose proof (marshallString_record id o buf data maxSize) as Hm.
    cbv zeta in Hm. rewrite Hst in Hm. apply Hm; lia.
  - rewrite (unmarshallCString_record id o _ dest maxSize maxSize bytes);
      rewrite ?Hcp; try assumption; try lia.
    rewrite Hprefix. do 3 f_equal.
    rewrite drop_ge by lia. reflexivity.
  - rewrite (unmarshallString_record id o _ maxSize maxSize bytes);
      rewrite ?Hcp; try assumption; try lia.
    rewrite Hprefix. reflexivity.
Qed.

(** C10.  With [maxSize <= 0], [unmarshallString] returns the empty string on
    every header and buffer and changes neither: no byte is consumed.  Read
    this way at the place where [marshallString] has just stored a string,
    the cursor stays at the start of the field, at least two bytes short of
    where the writer ended. *)
Theorem unmarshallString_nonpositive_maxSize maxSize :
  maxSize <= 0 ->
  (forall s, unmarshallString maxSize s = Ok ([], s))
  /\ (forall id o buf data maxSize' s',
        marshallString data maxSize' (record_at id o buf) = Ok (tt, s') ->
        unmarshallString maxSize (record_at id o (tagBuffer s'))
        = Ok ([], record_at id o (tagBuffer s'))
        /\ o + 2 <= offset (th s')).
Proof.
  intros Hmax.
  assert (Hempty : forall s, unmarshallString maxSize s = Ok ([], s)).
  { intros s. unfold unmarshallString.
    destruct (Z.leb_spec maxSize 0); [reflexivity | lia]. }
  split; [exact Hempty |].
  intros id o buf data maxSize' s' Hw. split; [apply Hempty |].
  unfold marshallString in Hw.
  set (len := if _ : bool then _ else _) in Hw.
  unfold bind in Hw.
  destruct (marshallShort len (record_at id o buf)) as [[[] s1] |] eqn:Hs;
    [| discriminate].
  apply marshallShort_record_inv in Hs as [buf1 ->].
  unfold write, record_at in Hw. cbn [th file offset tagBuffer] in Hw.
  destruct (_ && _) in Hw; [| discriminate].
  injection Hw as <-. cbn [th offset set_offset].
  pose proof (to_size_t_nonneg len). lia.
Qed.

End StringClaims.

(** C5, as stated, fails twice.  "abc" written with [maxSize = 2] occupies
    four bytes and the reader ends at offset 4, not at 5 where the whole
    string would have ended.  And with [maxSize = 32768] the stored length
    wraps to the short -32768, which [unmarshallCString] takes for the number
    of bytes to copy: nothing is read back. *)
Lemma string_clamp_counterexample :
  (marshallString (H := signed_char_platform) [97; 98; 99] 2 ;;
   advance (-4) ;;
   unmarshallCString (H := signed_char_platform) [0; 0] 2)
    (record_at 0 0 (replicate 8 0))
  = Ok ((1, [97; 0]), record_at 0 4 [0; 2; 97; 98; 0; 0; 0; 0])
  /\ ~ string_clamp_cursor_as_if_unclamped (H := signed_char_platform)
  /\ ~ string_clamp_any_maxSize (H := signed_char_platform).
Proof.
  split; [reflexivity | split].
  - intros Hclaim.
    destruct (Hclaim [97; 98; 99] [0; 0] 2 0 0 (replicate 8 0))
      as (s' & n & dest' & s'' & Hw & Hr & _ & Hcursor);
      try (simpl; lia).
    vm_compute in Hw. injection Hw as <-.
    vm_compute in Hr. injection Hr as <- <- <-.
    vm_compute in Hcursor. discriminate.
  - intros Hclaim.
    assert (Hdata : Z.of_nat (length (replicate (Z.to_nat 32769) 65)) = 32769).
    { rewrite length_replicate. apply Z2Nat.id. lia. }
    assert (Hdest : Z.of_nat (length (replicate (Z.to_nat 32768) 0)) = 32768).
    { rewrite length_replicate. apply Z2Nat.id. lia. }
    assert (Hbuf : Z.of_nat (length (replicate (Z.to_nat 32772) 0)) = 32772).
    { rewrite length_replicate. apply Z2Nat.id. lia. }
    destruct (Hclaim (replicate (Z.to_nat 32769) 65)
                (replicate (Z.to_nat 32768) 0) 32768 0 0
                (replicate (Z.to_nat 32772) 0))
      as (s' & n & dest' & s'' & Hw & Hr & _);
      [lia | lia | lia | lia | lia | lia |].
    pose proof (unmarshallCString_after_long_clamp (H := signed_char_platform)
                  0 0 (replicate (Z.to_nat 32772) 0)
                  (replicate (Z.to_nat 32769) 65)
                  (replicate (Z.to_nat 32768) 0) 32768 s'
                  ltac:(lia) ltac:(lia) ltac:(lia) ltac:(lia) ltac:(lia)
                  ltac:(lia) Hw) as Hf.
    rewrite Hf in Hr. discriminate.
Qed.

Lemma marshallString_clamp_round_trip_witness :
  exists buf',
    marshallString (H := signed_char_platform) [97; 98; 99] 2
      (record_at 0 1 (replicate 8 0))
    = Ok (tt, record_at 0 (1 + 2 + 2) buf')
    /\ unmarshallCString (H := signed_char_platform) [7; 7] 2
         (record_at 0 1 buf')
       = Ok ((2 - 1, take (Z.to_nat (2 - 1)) [97; 98; 99] ++ [0]),
             record_at 0 (1 + 2 + 2) buf')
    /\ unmarshallString (H := signed_char_platform) 2 (record_at 0 1 buf')
       = Ok (take (Z.to_nat (2 - 1)) [97; 98; 99], record_at 0 (1 + 2 + 2) buf').
Proof.
  apply (marshallString_clamp_round_trip (H := signed_char_platform)
           0 1 (replicate 8 0) [97; 98; 99] [7; 7] 2); simpl; lia.
Defined.

Lemma unmarshallString_nonpositive_maxSize_witness :
  unmarshallString (H := signed_char_platform) 0 (record_at 3 5 [1; 2; 3])
  = Ok ([], record_at 3 5 [1; 2; 3]).
Proof.
  apply (proj1 (unmarshallString_nonpositive_maxSize
                  (H := signed_char_platform) 0 ltac:(lia))).
Defined.

(** ** Ghosts *)







Section GhostFacts.
Context `{Platform} `{Headers}.



Lemma unmarshallGhost_body_record id o buf vals i v :
  0 <= o -> 0 <= i < Z.of_nat (length vals) ->
  take 2 (drop (Z.to_nat o) buf) = big_endian 2 v ->
  unmarshallGhost_body vals i (record_at id o buf)
  = Ok (<[Z.to_nat i := to_short v]> vals, record_at id (o + 2) buf).
Proof.
  intros Ho Hi Hat. unfold unmarshallGhost_body.
  rewrite (bind_Ok _ _ _ _ _ (unmarshallShort_big_endian id o buf v Ho Hat)).
  unfold store_value, in_buffer.
  destruct (Z.leb_spec 0 i); [| lia].
  destruct (Z.ltb_spec i (Z.of_nat (length vals))); [| lia].
  reflexivity.
Qed.

(** The fill loop on a record that holds the shorts [vs] at the cursor. *)
Lemma ghost_fill_record id vs :
  forall vals o i0 buf,
    0 <= o -> 0 <= i0 ->
    i0 + Z.of_nat (length vs) <= Z.of_nat (length vals) ->
    take (2 * length vs) (drop (Z.to_nat o) buf)
    = concat (map (big_endian 2) vs) ->
    for_each unmarshallGhost_body vals (seqZ i0 (Z.of_nat (length vs)))
      (record_at id o buf)
    = Ok (take (Z.to_nat i0) vals ++ map to_short vs
            ++ drop (Z.to_nat i0 + length vs) vals,
          record_at id (o + 2 * Z.of_nat (length vs)) buf).
Proof.
  induction vs as [| v vs IH]; intros vals o i0 buf Ho Hi0 Hroom Hat.
  - simpl. rewrite Nat.add_0_r, take_drop, Z.add_0_r. reflexivity.
  - rewrite length_cons, Nat2Z.inj_succ in *.
    rewrite seqZ_cons by lia. cbn [for_each].
    replace (2 * S (length vs))%nat with (2 + 2 * length vs)%nat in Hat by lia.
    cbn [map concat] in Hat.
    destruct (take_app_split 2 (2 * length vs) _ _ _ Hat eq_refl) as [Hhd Htl].
    rewrite (bind_Ok _ _ _ _ _
               (unmarshallGhost_body_record id o buf vals i0 v Ho
                  ltac:(lia) Hhd)).
    rewrite Z.pred_succ.
    rewrite drop_drop in Htl.
    rewrite IH;
      rewrite ?length_insert;
      [| lia | lia | lia
       | replace (Z.to_nat (o + 2)) with (Z.to_nat o + 2)%nat by lia;
         exact Htl].
    f_equal. f_equal; [| f_equal; lia].
    replace (Z.to_nat (Z.succ i0)) with (S (Z.to_nat i0)) by lia.
    rewrite (take_S_r _ _ (to_short v))
      by (apply list_lookup_insert_eq; lia).
    rewrite take_insert_ge by lia.
    rewrite drop_insert_lt by lia.
    rewrite <- app_assoc. cbn [map app]. do 4 f_equal. lia.
Qed.


End GhostFacts.


(** ** Run-length codec *)

Lemma bind_assoc {A B C} (m : M A) (k : A -> M B) (k' : B -> M C) s :
  (b <- (a <- m ;; k a) ;; k' b) s = (a <- m ;; b <- k a ;; k' b) s.
Proof. unfold bind. destruct (m s) as [[a s'] |]; reflexivity. Qed.

(** *** The pairs *)

Lemma expand_rle_pairs cs : forall last nlast,
  0 <= nlast ->
  expand (rle_pairs cs last nlast) = replicate (Z.to_nat nlast) last ++ cs.
Proof.
  induction cs as [| c cs IH]; intros last nlast Hn.
  - simpl. rewrite !app_nil_r. reflexivity.
  - cbn [rle_pairs].
    destruct (Z.eqb_spec nlast 0) as [-> | Hnz].
    + rewrite Z.eqb_refl. cbn [andb Z.ltb Z.compare].
      rewrite IH by lia. reflexivity.
    + destruct (Z.eqb_spec last c) as [-> | Hne]; cbn [andb].
      * destruct (Z.ltb_spec nlast 255).
        -- rewrite IH by lia.
           replace (Z.to_nat (nlast + 1)) with (Z.to_nat nlast + 1)%nat by lia.
           rewrite replicate_add, <- app_assoc. reflexivity.
        -- unfold expand in *. cbn [flat_map fst snd].
           rewrite IH by lia. reflexivity.
      * unfold expand in *. cbn [flat_map fst snd].
        rewrite IH by lia. reflexivity.
Qed.

Lemma rle_pairs_runs cs : forall last nlast,
  0 <= nlast <= 255 -> (1 <= nlast \/ cs <> []) ->
  Forall (fun p => 1 <= fst p <= 255) (rle_pairs cs last nlast).
Proof.
  induction cs as [| c cs IH]; intros last nlast Hn Hne.
  - cbn [rle_pairs]. constructor; [| constructor]. simpl.
    destruct Hne as [? | []]; [lia | reflexivity].
  - cbn [rle_pairs].
    destruct ((_ =? c) && (nlast <? 255)) eqn:Hsame.
    + apply andb_true_iff in Hsame as [_ Hlt%Z.ltb_lt].
      apply IH; lia.
    + constructor; [| apply IH; lia]. simpl.
      destruct (Z.eqb_spec nlast 0) as [-> | ?]; [| lia].
      rewrite Z.eqb_refl in Hsame. discriminate.
Qed.

Lemma rle_pairs_values cs (P : Z -> Prop) : forall last nlast,
  Forall P cs -> (1 <= nlast -> P last) ->
  Forall (fun p => 1 <= fst p -> P (snd p)) (rle_pairs cs last nlast).
Proof.
  induction cs as [| c cs IH]; intros last nlast Hcs Hlast.
  - cbn [rle_pairs]. constructor; [exact Hlast | constructor].
  - apply Forall_cons in Hcs as [Hc Hcs]. cbn [rle_pairs].
    destruct (Z.eqb_spec nlast 0) as [-> | Hnz].
    + rewrite Z.eqb_refl. cbn [andb Z.ltb Z.compare].
      apply IH; auto.
    + destruct ((last =? c) && (nlast <? 255)) eqn:Hsame.
      * apply IH; [assumption |].
        apply andb_true_iff in Hsame as [->%Z.eqb_eq _]. auto.
      * constructor; [exact Hlast | apply IH; auto].
Qed.

Lemma rle_pairs_length cs : forall last nlast,
  (length (rle_pairs cs last nlast) <= length cs + 1)%nat
  /\ (nlast = 0 -> cs <> [] ->
      (length (rle_pairs cs last nlast) <= length cs)%nat).
Proof.
  induction cs as [| c cs IH]; intros last nlast.
  - simpl. split; [lia | intros _ []; reflexivity].
  - cbn [rle_pairs]. split.
    + destruct (_ && _); cbn [length].
      * destruct (IH (if nlast =? 0 then c else last) (nlast + 1)). lia.
      * destruct (IH c 1). lia.
    + intros -> _. rewrite Z.eqb_refl. cbn [andb Z.ltb Z.compare length].
      destruct (IH (if 0 =? 0 then c else last) (0 + 1)). lia.
Qed.

Lemma length_pair_bytes ps : length (pair_bytes ps) = (2 * length ps)%nat.
Proof.
  induction ps as [| p ps IH]; [reflexivity |].
  unfold pair_bytes in *. cbn [flat_map]. rewrite length_app, IH. simpl. lia.
Qed.

(** *** The grid *)

Lemma store_cells_app width vs ws : forall k g,
  store_cells width k (vs ++ ws) g
  = store_cells width (k + Z.of_nat (length vs)) ws (store_cells width k vs g).
Proof.
  induction vs as [| v vs IH]; intros k g.
  - simpl. rewrite Z.add_0_r. reflexivity.
  - cbn [app store_cells]. rewrite IH. f_equal. rewrite length_cons. lia.
Qed.

Lemma run_length_fill_store n value width : forall k g,
  run_length_fill n value width k g
  = (k + Z.of_nat n, store_cells width k (replicate n value) g).
Proof.
  induction n as [| n IH]; intros k g.
  - simpl. rewrite Z.add_0_r. reflexivity.
  - cbn [run_length_fill replicate store_cells]. rewrite IH.
    f_equal. lia.
Qed.

Lemma store_cells_lookup width vs : forall k g x y,
  0 < width -> 0 <= k ->
  store_cells width k vs g x y
  = if (0 <=? x) && (x <? width)
       && (k <=? y * width + x) && (y * width + x <? k + Z.of_nat (length vs))
    then default 0 (vs !! Z.to_nat (y * width + x - k))
    else g x y.
Proof.
  induction vs as [| v vs IH]; intros k g x y Hw Hk.
  - simpl. rewrite Z.add_0_r.
    destruct (Z.leb_spec k (y * width + x)), (Z.ltb_spec (y * width + x) k);
      try lia; rewrite ?andb_false_r; reflexivity.
  - cbn [store_cells]. rewrite IH by lia.
    rewrite length_cons, Nat2Z.inj_succ.
    rewrite Z.rem_mod_nonneg, Z.quot_div_nonneg by lia.
    unfold grid_set.
    destruct (Z.leb_spec 0 x), (Z.ltb_spec x width); cbn [andb];
      try (destruct (Z.eqb_spec x (k mod width)); [| reflexivity];
           pose proof (Z.mod_pos_bound k width Hw); lia).
    destruct (Z.eq_dec (y * width + x) k) as [Heq | Hne].
    + destruct (Z.leb_spec (k + 1) (y * width + x)); [lia |].
      destruct (Z.leb_spec k (y * width + x)); [| lia].
      destruct (Z.ltb_spec (y * width + x) (k + Z.succ (Z.of_nat (length vs))));
        [| lia].
      cbn [andb].
      replace (Z.to_nat (y * width + x - k)) with 0%nat by lia.
      assert (x = k mod width /\ y = k / width) as [Hx Hy].
      { subst k. rewrite Z.add_comm, Z.mod_add, Z.div_add by lia.
        rewrite Z.mod_small, Z.div_small by lia. lia. }
      rewrite <- Hx, <- Hy, !Z.eqb_refl. reflexivity.
    + assert (Hset : (x =? k mod width) && (y =? k / width) = false).
      { apply andb_false_iff.
        destruct (Z.eqb_spec x (k mod width)) as [Hx |]; [| auto].
        destruct (Z.eqb_spec y (k / width)) as [Hy |]; [| auto].
        exfalso. apply Hne. subst x y.
        rewrite (Z.div_mod k width) at 3 by lia. lia. }
      rewrite Hset.
      destruct (Z.leb_spec (k + 1) (y * width + x)),
               (Z.leb_spec k (y * width + x)); try lia; cbn [andb];
        [| reflexivity].
      replace (k + 1 + Z.of_nat (length vs))
        with (k + Z.succ (Z.of_nat (length vs))) by lia.
      destruct (Z.ltb_spec (y * width + x) (k + Z.succ (Z.of_nat (length vs))));
        [| reflexivity].
      replace (Z.to_nat (y * width + x - k))
        with (S (Z.to_nat (y * width + x - (k + 1)))) by lia.
      reflexivity.
Qed.

Lemma scan_row width (y : Z) :
  (x ← seqZ 0 width; [(x, y)]) = (fun x => (x, y)) <$> seqZ 0 width.
Proof.
  induction (seqZ 0 width) as [| x l IH]; [reflexivity |].
  rewrite bind_cons, fmap_cons, IH. reflexivity.
Qed.

Lemma scan_succ width (n : nat) :
  scan width (Z.of_nat (S n))
  = scan width (Z.of_nat n) ++ ((fun x => (x, Z.of_nat n)) <$> seqZ 0 width).
Proof.
  unfold scan. rewrite seqZ_S, bind_app. f_equal.
  cbn. rewrite app_nil_r. apply scan_row.
Qed.

Lemma length_scan width (n : nat) :
  0 <= width ->
  length (scan width (Z.of_nat n)) = Z.to_nat (width * Z.of_nat n).
Proof.
  intros Hw. induction n as [| n IH]; [simpl; f_equal; lia |].
  rewrite scan_succ, length_app, IH, length_fmap, length_seqZ. lia.
Qed.

Lemma lookup_scan width (n : nat) x y :
  0 <= x < width -> 0 <= y < Z.of_nat n ->
  scan width (Z.of_nat n) !! Z.to_nat (y * width + x) = Some (x, y).
Proof.
  intros Hx. induction n as [| n IH]; intros Hy; [lia |].
  rewrite scan_succ.
  destruct (Z.eq_dec y (Z.of_nat n)) as [-> | Hne].
  - rewrite lookup_app_r by (rewrite length_scan; nia).
    rewrite length_scan by lia.
    replace (Z.to_nat (Z.of_nat n * width + x)
             - Z.to_nat (width * Z.of_nat n))%nat with (Z.to_nat x) by nia.
    rewrite list_lookup_fmap, lookup_seqZ_lt by lia.
    simpl. repeat f_equal. lia.
  - rewrite lookup_app_l by (rewrite length_scan; nia).
    apply IH. lia.
Qed.

Lemma lookup_cells g width height x y :
  0 <= x < width -> 0 <= y < height ->
  cells g width height !! Z.to_nat (y * width + x) = Some (g x y).
Proof.
  intros Hx Hy. unfold cells.
  rewrite <- (Z2Nat.id height) by lia.
  rewrite list_lookup_fmap, lookup_scan by lia. reflexivity.
Qed.

Lemma length_cells g width height :
  0 <= width -> 0 <= height ->
  Z.of_nat (length (cells g width height)) = width * height.
Proof.
  intros Hw Hh. unfold cells.
  rewrite length_map, <- (Z2Nat.id height), length_scan by lia. nia.
Qed.

Lemma cells_values g width height (P : Z -> Prop) :
  (forall x y, 0 <= x < width -> 0 <= y < height -> P (g x y)) ->
  Forall P (cells g width height).
Proof.
  intros HP. unfold cells, scan. apply Forall_map, Forall_forall.
  intros [x y] Hin.
  apply list_elem_of_bind in Hin as (y' & Hin & Hy).
  apply list_elem_of_bind in Hin as (x' & Hin & Hx).
  apply list_elem_of_singleton in Hin as [= -> ->].
  apply list_elem_of_lookup in Hx as [i Hx], Hy as [j Hy].
  apply lookup_seqZ in Hx, Hy. simpl. apply HP; lia.
Qed.

(** The decoded grid holds the cells inside the rectangle and is untouched
    outside. *)
Lemma store_cells_grid g g0 width height x y :
  0 < width -> 0 <= height ->
  store_cells width 0 (cells g width height) g0 x y
  = if (0 <=? x) && (x <? width) && (0 <=? y) && (y <? height)
    then g x y else g0 x y.
Proof.
  intros Hw Hh. rewrite store_cells_lookup by lia.
  rewrite length_cells by lia.
  destruct (Z.leb_spec 0 x), (Z.ltb_spec x width); cbn [andb]; try reflexivity.
  destruct (Z.leb_spec 0 y), (Z.ltb_spec y height); cbn [andb].
  - destruct (Z.leb_spec 0 (y * width + x)); [| nia].
    destruct (Z.ltb_spec (y * width + x) (0 + width * height)); [| nia].
    cbn [andb]. rewrite Z.sub_0_r, lookup_cells by lia. reflexivity.
  - destruct (Z.ltb_spec (y * width + x) (0 + width * height)); [nia |].
    rewrite andb_false_r. reflexivity.
  - destruct (Z.leb_spec 0 (y * width + x)); [nia |]. reflexivity.
  - destruct (Z.leb_spec 0 (y * width + x)); [nia |]. reflexivity.
Qed.

Section RunLengthFacts.
Context `{Platform}.

Lemma marshallByte_record id o buf c :
  0 <= o < Z.of_nat (length buf) ->
  marshallByte c (record_at id o buf)
  = Ok (tt, record_at id (o + 1) (splice o [to_uchar c] buf)).
Proof.
  intros Ho. unfold marshallByte.
  rewrite writeByte_to_char. apply writeByte_record. exact Ho.
Qed.

Lemma unmarshallByte_record id o buf c :
  0 <= o -> buf !! Z.to_nat o = Some c ->
  unmarshallByte (record_at id o buf)
  = Ok (to_char (to_uchar c), record_at id (o + 1) buf).
Proof.
  intros Ho Hc. unfold unmarshallByte.
  rewrite (bind_Ok _ _ _ _ _ (readByte_record id o buf c Ho Hc)).
  reflexivity.
Qed.

Lemma marshall_pair_record id o buf n v :
  0 <= o -> o + 2 <= Z.of_nat (length buf) ->
  (marshallByte n ;; marshallByte v) (record_at id o buf)
  = Ok (tt, record_at id (o + 2) (splice o (pair_bytes [(n, v)]) buf)).
Proof.
  intros Ho Hroom.
  rewrite (bind_Ok _ _ _ _ _ (marshallByte_record id o buf n ltac:(lia))).
  rewrite marshallByte_record by (rewrite length_splice; simpl; lia).
  change (o + 1) with (o + Z.of_nat (length [to_uchar n])) at 2.
  rewrite splice_app by (simpl; lia).
  replace (o + 1 + 1) with (o + 2) by lia. reflexivity.
Qed.

Lemma marshall_pair_ret {A} id o buf n v (a : A) :
  0 <= o -> o + 2 <= Z.of_nat (length buf) ->
  (marshallByte n ;; marshallByte v ;; ret a) (record_at id o buf)
  = Ok (a, record_at id (o + 2) (splice o (pair_bytes [(n, v)]) buf)).
Proof.
  intros Ho Hroom.
  pose proof (marshall_pair_record id o buf n v Ho Hroom) as Hp.
  unfold bind in Hp |- *.
  destruct (marshallByte n (record_at id o buf)) as [[[] s1] |];
    [| discriminate].
  rewrite Hp. reflexivity.
Qed.

(** *** The encoder writes the pairs *)

Lemma run_length_encode_from_cons m g st xy coords s :
  run_length_encode_from m g st (xy :: coords) s
  = (st' <- run_length_encode_body m g st xy ;;
     run_length_encode_from m g st' coords) s.
Proof.
  unfold run_length_encode_from. cbn [for_each]. apply bind_assoc.
Qed.

Lemma run_length_encode_from_record id g coords :
  forall last nlast o buf,
    let ps := rle_pairs (map (fun xy => g (fst xy) (snd xy)) coords)
                last nlast in
    0 <= nlast <= 255 -> 0 <= o ->
    o + 2 * Z.of_nat (length ps) <= Z.of_nat (length buf) ->
    run_length_encode_from marshallByte g (last, nlast) coords
      (record_at id o buf)
    = Ok (tt, record_at id (o + 2 * Z.of_nat (length ps))
                (splice o (pair_bytes ps) buf)).
Proof.
  induction coords as [| [x y] coords IH]; intros last nlast o buf ps Hn Ho Hroom.
  - unfold run_length_encode_from. cbn [for_each].
    unfold bind at 1. unfold ret at 1.
    subst ps. cbn [map rle_pairs length] in *.
    rewrite marshall_pair_record by lia. reflexivity.
  - rewrite run_length_encode_from_cons.
    subst ps. cbn [map rle_pairs fst snd] in *.
    unfold run_length_encode_body at 1.
    set (last' := if nlast =? 0 then g x y else last) in *.
    destruct ((last' =? g x y) && (nlast <? 255)) eqn:Hsame.
    + unfold bind at 1. unfold ret at 1.
      apply andb_true_iff in Hsame as [_ Hlt%Z.ltb_lt].
      apply IH; [lia | lia | exact Hroom].
    + rewrite length_cons, Nat2Z.inj_succ in Hroom.
      rewrite (bind_Ok _ _ _ _ _
                 (marshall_pair_ret id o buf nlast last' (g x y, 1) Ho
                    ltac:(lia))).
      rewrite IH by (rewrite ?length_splice; simpl; lia).
      rewrite length_cons, Nat2Z.inj_succ.
      replace (o + 2) with (o + Z.of_nat (length (pair_bytes [(nlast, last')])))
        at 2 by reflexivity.
      rewrite splice_app by (simpl; lia).
      f_equal. f_equal. unfold record_at. f_equal. f_equal. lia.
Qed.

(** *** The decoder reads them back *)

Lemma run_length_decode_from_record id width end_ ps :
  forall fuel g k o buf,
    Forall (fun p => 1 <= fst p <= 255) ps ->
    0 <= o ->
    take (2 * length ps) (drop (Z.to_nat o) buf) = pair_bytes ps ->
    k + Z.of_nat (length (expand ps)) = end_ ->
    (length ps <= fuel)%nat ->
    run_length_decode_from unmarshallByte fuel g width end_ k
      (record_at id o buf)
    = Ok (store_cells width k (map to_char (expand ps)) g,
          record_at id (o + 2 * Z.of_nat (length ps)) buf).
Proof.
  induction ps as [| [n v] ps IH]; intros fuel g k o buf Hps Ho Hat Hend Hfuel.
  - simpl in Hend. rewrite Z.add_0_r in Hend. subst end_.
    destruct fuel; cbn [run_length_decode_from];
      rewrite Z.ltb_irrefl, Z.add_0_r; reflexivity.
  - apply Forall_cons in Hps as [Hn Hps]. cbn [fst snd] in Hn.
    unfold expand in Hend |- *. cbn [flat_map fst snd] in Hend |- *.
    fold (expand ps) in Hend |- *.
    rewrite length_app, length_replicate, Nat2Z.inj_add in Hend.
    rewrite length_cons in Hfuel.
    destruct fuel as [| fuel]; [lia |].
    cbn [run_length_decode_from].
    destruct (Z.ltb_spec k end_); [| lia].
    replace (2 * length ((n, v) :: ps))%nat with (2 + 2 * length ps)%nat in Hat
      by (rewrite length_cons; lia).
    unfold pair_bytes in Hat. cbn [flat_map fst snd] in Hat.
    fold (pair_bytes ps) in Hat.
    destruct (take_app_split 2 (2 * length ps) _ _ _ Hat eq_refl) as [Hhd Htl].
    assert (H1 : buf !! Z.to_nat o = Some (to_uchar n)).
    { rewrite <- (Nat.add_0_r (Z.to_nat o)), <- lookup_drop.
      rewrite <- (lookup_take_lt _ 2) by lia. rewrite Hhd. reflexivity. }
    assert (H2 : buf !! Z.to_nat (o + 1) = Some (to_uchar v)).
    { replace (Z.to_nat (o + 1)) with (Z.to_nat o + 1)%nat by lia.
      rewrite <- lookup_drop.
      rewrite <- (lookup_take_lt _ 2) by lia. rewrite Hhd. reflexivity. }
    rewrite (bind_Ok _ _ _ _ _ (unmarshallByte_record id o buf _ Ho H1)).
    rewrite (bind_Ok _ _ _ _ _
               (unmarshallByte_record id (o + 1) buf _ ltac:(lia) H2)).
    rewrite !to_uchar_idemp, to_uchar_to_char, to_char_to_uchar.
    rewrite !(to_uchar_small n) by lia.
    rewrite run_length_fill_store.
    rewrite drop_drop in Htl.
    rewrite IH with (o := o + 1 + 1);
      [| assumption | lia
       | replace (Z.to_nat (o + 1 + 1)) with (Z.to_nat o + 2)%nat by lia;
         exact Htl
       | lia | lia].
    rewrite map_app, store_cells_app, length_map, length_replicate.
    rewrite length_cons, Nat2Z.inj_succ.
    replace (map to_char (replicate (Z.to_nat n) v))
      with (replicate (Z.to_nat n) (to_char v))
      by (symmetry; apply (fmap_replicate to_char)).
    f_equal. f_equal.
    unfold record_at. f_equal. f_equal. lia.
Qed.

(** C6 (amended).  For a grid of at least one column and one row, encoded
    into a record with room for two bytes per cell: the encoder writes one
    (run length, value) byte pair for each run of equal cells in scan order
    (x inner, y outer), every run between 1 and 255 long and the last one
    flushed after the final cell; the decoder, started on the same bytes,
    ends at the encoder's cursor with a grid that holds, on every cell of the
    rectangle, the original value converted to [char], and is untouched
    elsewhere.  A grid whose cells are [char] values comes back equal to the
    original. *)
Theorem run_length_round_trip id o buf (g g0 : grid) width height fuel :
  1 <= width -> 1 <= height -> width * height <= 2147483647 ->
  0 <= o -> o + 2 * (width * height) <= Z.of_nat (length buf) ->
  (Z.to_nat (width * height) <= fuel)%nat ->
  exists pairs g',
    let buf' := splice o (pair_bytes pairs) buf in
    let o' := o + 2 * Z.of_nat (length pairs) in
    run_length_encode marshallByte g width height (record_at id o buf)
    = Ok (tt, record_at id o' buf')
    /\ Forall (fun p => 1 <= fst p <= 255) pairs
    /\ expand pairs = cells g width height
    /\ run_length_decode unmarshallByte fuel g0 width height (record_at id o buf')
       = Ok (g', record_at id o' buf')
    /\ (forall x y,
          g' x y = if (0 <=? x) && (x <? width) && (0 <=? y) && (y <? height)
                   then to_char (g x y) else g0 x y)
    /\ ((forall x y, 0 <= x < width -> 0 <= y < height -> is_char (g x y)) ->
        forall x y,
          g' x y = if (0 <=? x) && (x <? width) && (0 <=? y) && (y <? height)
                   then g x y else g0 x y).
Proof.
  intros Hw Hh Hint Ho Hroom Hfuel.
  set (cs := cells g width height).
  set (ps := rle_pairs cs 0 0).
  assert (Hcs : Z.of_nat (length cs) = width * height)
    by (apply length_cells; lia).
  assert (Hne : cs <> []).
  { intros Hnil. rewrite Hnil in Hcs. simpl in Hcs. nia. }
  assert (Hlen : (length ps <= length cs)%nat)
    by (apply rle_pairs_length; auto).
  assert (Hruns : Forall (fun p => 1 <= fst p <= 255) ps)
    by (apply rle_pairs_runs; [lia | auto]).
  assert (Hexp : expand ps = cs).
  { unfold ps. rewrite expand_rle_pairs by lia. reflexivity. }
  assert (Hgrid : forall x y,
            store_cells width 0 (map to_char cs) g0 x y
            = if (0 <=? x) && (x <? width) && (0 <=? y) && (y <? height)
              then to_char (g x y) else g0 x y).
  { intros x y. unfold cs, cells. rewrite map_map.
    apply (store_cells_grid (fun x y => to_char (g x y))); lia. }
  exists ps, (store_cells width 0 (map to_char cs) g0). cbv zeta.
  split; [| split; [exact Hruns | split; [exact Hexp | split; [| split]]]].
  - change (run_length_encode marshallByte g width height)
      with (run_length_encode_from marshallByte g (0, 0) (scan width height)).
    pose proof (run_length_encode_from_record id g (scan width height)
                  0 0 o buf) as He.
    cbv zeta in He. change (map _ (scan width height)) with cs in He.
    fold ps in He. apply He; lia.
  - unfold run_length_decode. rewrite to_int_small by nia.
    rewrite <- Hexp.
    apply run_length_decode_from_record; try assumption.
    + rewrite <- length_pair_bytes. apply take_drop_splice; [lia |].
      rewrite length_pair_bytes. lia.
    + rewrite Hexp. lia.
    + lia.
  - exact Hgrid.
  - intros Hchar x y. rewrite Hgrid.
    destruct (Z.leb_spec 0 x), (Z.ltb_spec x width), (Z.leb_spec 0 y),
      (Z.ltb_spec y height); cbn [andb]; try reflexivity.
    apply Hchar; lia.
Qed.

End RunLengthFacts.

Lemma run_length_round_trip_witness :
  exists pairs g',
    let buf' := splice 1 (pair_bytes pairs) (replicate 16 0) in
    let o' := 1 + 2 * Z.of_nat (length pairs) in
    run_length_encode (H := signed_char_platform)
      (marshallByte (H := signed_char_platform)) striped_grid 3 2
      (record_at 4 1 (replicate 16 0))
    = Ok (tt, record_at 4 o' buf')
    /\ Forall (fun p => 1 <= fst p <= 255) pairs
    /\ expand pairs = cells striped_grid 3 2
    /\ run_length_decode (H := signed_char_platform)
         (unmarshallByte (H := signed_char_platform)) 6
         (fun _ _ => 0) 3 2 (record_at 4 1 buf')
       = Ok (g', record_at 4 o' buf')
    /\ forall x y,
         g' x y = if (0 <=? x) && (x <? 3) && (0 <=? y) && (y <? 2)
                  then striped_grid x y else 0.
Proof.
  destruct (run_length_round_trip (H := signed_char_platform) 4 1
              (replicate 16 0) striped_grid (fun _ _ => 0) 3 2 6
              ltac:(lia) ltac:(lia) ltac:(lia) ltac:(lia)
              ltac:(simpl; lia) ltac:(simpl; lia))
    as (pairs & g' & He & Hruns & Hexp & Hd & _ & Hsame).
  exists pairs, g'. repeat split; try assumption.
  apply Hsame. intros x y _ _. unfold is_char, striped_grid.
  destruct (_ =? 0); reflexivity.
Defined.

(** C6, as stated, fails where [char] is signed: a grid of two cells holding
    200, a value that fits in one byte, is written as the pair (2, 200) and
    decoded as two cells of -56, because [unmarshallByte] returns a
    [char]. *)
Lemma byte_grid_counterexample :
  (exists g',
     run_length_decode (H := signed_char_platform)
       (unmarshallByte (H := signed_char_platform)) 2 (fun _ _ => 0) 2 1
       (record_at 0 0 [2; 200])
     = Ok (g', record_at 0 2 [2; 200])
     /\ g' 0 0 = -56 /\ g' 1 0 = -56)
  /\ ~ byte_grid_round_trips (H := signed_char_platform).
Proof.
  split.
  - eexists. split; [vm_compute; reflexivity |]. split; reflexivity.
  - intros Hclaim.
    destruct (Hclaim (fun _ _ => 200) (fun _ _ => 0) 2 1 0 0 [0; 0; 0; 0] 2%nat)
      as (s' & g' & s'' & He & Hd & Hcells);
      [lia | lia | lia | intros; cbv beta; lia | lia | simpl; lia
      | simpl; lia |].
    vm_compute in He. injection He as <-.
    vm_compute in Hd. injection Hd as <- _.
    specialize (Hcells 0 0 ltac:(lia) ltac:(lia)).
    vm_compute in Hcells. discriminate.
Qed.

(** Runs at the cap: 255 equal cells are one pair, 256 are two; distinct
    neighbours are one pair each. *)
Example rle_pairs_run_255 :
  rle_pairs (cells (fun _ _ => 7) 255 1) 0 0 = [(255, 7)].
Proof. vm_compute. reflexivity. Qed.

Example rle_pairs_run_256 :
  rle_pairs (cells (fun _ _ => 7) 256 1) 0 0 = [(255, 7); (1, 7)].
Proof. vm_compute. reflexivity. Qed.

Example rle_pairs_all_distinct :
  rle_pairs (cells (fun x y => x + 3 * y) 3 2) 0 0
  = [(1, 0); (1, 1); (1, 2); (1, 3); (1, 4); (1, 5)].
Proof. vm_compute. reflexivity. Qed.

(** An empty grid still produces the final flush, a run of zero, which the
    decoder does not read. *)
Example run_length_encode_empty_grid :
  run_length_encode (H := signed_char_platform)
      (marshallByte (H := signed_char_platform)) (fun _ _ => 7) 0 0
    (record_at 0 0 [9; 9; 9])
  = Ok (tt, record_at 0 2 [0; 0; 9])
  /\ run_length_decode (H := signed_char_platform)
         (unmarshallByte (H := signed_char_platform)) 1
       (fun _ _ => 1) 0 0 (record_at 0 0 [0; 0; 9])
     = Ok (fun _ _ => 1, record_at 0 0 [0; 0; 9]).
Proof. split; reflexivity. Qed.

(** * Further properties *)

(** ** Composing what is written and read *)

Lemma writes_ret : writes (ret tt) [].
Proof.
  intros id o buf Ho Hroom. unfold ret. simpl.
  rewrite Z.add_0_r, splice_nil. reflexivity.
Qed.

Lemma writes_bind m1 m2 b1 b2 :
  writes m1 b1 -> writes m2 b2 -> writes (m1 ;; m2) (b1 ++ b2).
Proof.
  intros H1 H2 id o buf Ho Hroom. rewrite length_app, Nat2Z.inj_add in *.
  rewrite (bind_Ok _ _ _ _ _ (H1 id o buf Ho ltac:(lia))).
  rewrite H2 by (rewrite ?length_splice; lia).
  rewrite splice_app by lia. rewrite Z.add_assoc. reflexivity.
Qed.

Lemma reads_ret {A} (a : A) : reads (ret a) [] a.
Proof.
  intros id o buf Ho Hat. unfold ret. simpl. rewrite Z.add_0_r. reflexivity.
Qed.

Lemma reads_bind {A B} (um : M A) (k : A -> M B) b1 b2 a c :
  reads um b1 a -> reads (k a) b2 c -> reads (x <- um ;; k x) (b1 ++ b2) c.
Proof.
  intros H1 H2 id o buf Ho Hat. rewrite length_app in Hat.
  destruct (take_app_split _ _ _ _ _ Hat eq_refl) as [Hhd Htl].
  rewrite (bind_Ok _ _ _ _ _ (H1 id o buf Ho Hhd)).
  rewrite drop_drop in Htl.
  rewrite H2;
    [| lia | replace (Z.to_nat (o + Z.of_nat (length b1)))
               with (Z.to_nat o + length b1)%nat by lia; exact Htl].
  rewrite length_app, Nat2Z.inj_add, Z.add_assoc. reflexivity.
Qed.

(** What is written can be read back in place. *)
Lemma writes_reads_round_trip {A} m (um : M A) bytes a id o buf :
  writes m bytes -> reads um bytes a ->
  0 <= o -> o + Z.of_nat (length bytes) <= Z.of_nat (length buf) ->
  m (record_at id o buf)
  = Ok (tt, record_at id (o + Z.of_nat (length bytes)) (splice o bytes buf))
  /\ um (record_at id o (splice o bytes buf))
     = Ok (a, record_at id (o + Z.of_nat (length bytes)) (splice o bytes buf)).
Proof.
  intros Hw Hr Ho Hroom. split; [apply Hw; assumption |].
  apply Hr; [assumption |]. apply take_drop_splice; assumption.
Qed.

Section PrimitiveFormats.
Context `{Platform}.

Lemma writes_marshallByte c : writes (marshallByte c) [to_uchar c].
Proof.
  intros id o buf Ho Hroom. simpl in *.
  apply marshallByte_record. lia.
Qed.

Lemma reads_unmarshallByte c :
  reads unmarshallByte [c] (to_char (to_uchar c)).
Proof.
  intros id o buf Ho Hat. simpl length in *.
  apply unmarshallByte_record; [assumption |].
  rewrite <- (Nat.add_0_r (Z.to_nat o)), <- lookup_drop.
  rewrite <- (lookup_take_lt _ 1) by lia. rewrite Hat. reflexivity.
Qed.

Lemma writes_marshallShort v : writes (marshallShort v) (big_endian 2 v).
Proof.
  intros id o buf Ho Hroom. apply marshallShort_record; simpl in *; lia.
Qed.

Lemma reads_unmarshallShort v :
  reads unmarshallShort (big_endian 2 v) (to_short v).
Proof.
  intros id o buf Ho Hat. apply unmarshallShort_big_endian; assumption.
Qed.

Lemma writes_marshallLong v : writes (marshallLong v) (big_endian 4 v).
Proof.
  intros id o buf Ho Hroom. apply marshallLong_record; simpl in *; lia.
Qed.

Lemma reads_unmarshallLong v :
  reads unmarshallLong (big_endian 4 v) (to_long (to_uint v)).
Proof.
  intros id o buf Ho Hat. apply unmarshallLong_big_endian; assumption.
Qed.

Lemma to_char_byte v : to_char (to_uchar (to_uchar v)) = to_char v.
Proof. rewrite to_uchar_idemp. apply to_char_to_uchar. Qed.

(** ** Booleans *)

Lemma to_char_is_one c : (to_char (to_uchar c) =? 1) = (c mod 256 =? 1).
Proof.
  unfold to_char, to_schar, to_uchar.
  pose proof (Z.mod_pos_bound c 256 ltac:(lia)).
  destruct char_signed.
  - destruct (Z.eqb_spec (c mod 256) 1) as [-> | Hne]; [reflexivity |].
    apply Z.eqb_neq. Z.div_mod_to_equations. lia.
  - rewrite Z.mod_mod by lia. reflexivity.
Qed.

(** X1.  [marshallBoolean] stores 1 for true and 0 for false;
    [unmarshallBoolean] returns true for the byte 1 and false for each of the
    255 others. *)
Theorem boolean_round_trip id o buf (b : bool) :
  0 <= o < Z.of_nat (length buf) ->
  marshallBoolean b (record_at id o buf)
  = Ok (tt, record_at id (o + 1) (splice o [if b then 1 else 0] buf))
  /\ unmarshallBoolean
       (record_at id o (splice o [if b then 1 else 0] buf))
     = Ok (b, record_at id (o + 1) (splice o [if b then 1 else 0] buf))
  /\ forall c, buf !! Z.to_nat o = Some c ->
       unmarshallBoolean (record_at id o buf)
       = Ok (c mod 256 =? 1, record_at id (o + 1) buf).
Proof.
  intros Ho.
  assert (Hread : forall buf' c, buf' !! Z.to_nat o = Some c ->
            unmarshallBoolean (record_at id o buf')
            = Ok (c mod 256 =? 1, record_at id (o + 1) buf')).
  { intros buf' c Hc. unfold unmarshallBoolean.
    rewrite (bind_Ok _ _ _ _ _ (readByte_record id o buf' c ltac:(lia) Hc)).
    unfold ret. rewrite to_char_is_one. reflexivity. }
  split; [| split].
  - unfold marshallBoolean. rewrite writeByte_record by lia.
    destruct b; reflexivity.
  - rewrite (Hread _ (if b then 1 else 0)).
    + destruct b; reflexivity.
    + rewrite <- (Nat.add_0_r (Z.to_nat o)).
      rewrite lookup_splice by (simpl; lia). reflexivity.
  - intros c Hc. apply Hread. exact Hc.
Qed.

(** ** Bytes *)

(** X2.  A byte written by [marshallByte] is read back by [unmarshallByte] as
    the [char] with the same low eight bits: the value itself when it is a
    [char]. *)
Theorem byte_round_trip id o buf v :
  0 <= o < Z.of_nat (length buf) ->
  marshallByte v (record_at id o buf)
  = Ok (tt, record_at id (o + 1) (splice o [to_uchar v] buf))
  /\ unmarshallByte (record_at id o (splice o [to_uchar v] buf))
     = Ok (to_char v, record_at id (o + 1) (splice o [to_uchar v] buf))
  /\ (is_char v -> to_char v = v).
Proof.
  intros Ho.
  destruct (writes_reads_round_trip _ _ _ _ id o buf
              (writes_marshallByte v) (reads_unmarshallByte (to_uchar v))
              ltac:(lia) ltac:(simpl; lia)) as [Hw Hr].
  rewrite to_char_byte in Hr.
  split; [exact Hw | split; [exact Hr | auto]].
Qed.

(** ** Coordinates *)

Lemma writes_marshallCoord c : writes (marshallCoord c) (coord_bytes c).
Proof.
  unfold marshallCoord, coord_bytes.
  apply writes_bind; apply writes_marshallShort.
Qed.

Lemma reads_unmarshallCoord c0 c :
  reads (unmarshallCoord c0) (coord_bytes c)
    (coord_def.mk (to_short (coord_def.x c)) (to_short (coord_def.y c))).
Proof.
  unfold unmarshallCoord, coord_bytes.
  eapply reads_bind; [apply reads_unmarshallShort |].
  rewrite <- (app_nil_r (big_endian 2 (coord_def.y c))).
  eapply reads_bind; [apply reads_unmarshallShort | apply reads_ret].
Qed.

(** X3.  A coordinate is stored as two big-endian shorts, x first, and read back
    with each field reduced to 16 bits, whatever the coordinate passed in
    held before. *)
Theorem coord_round_trip id o buf c c0 :
  0 <= o -> o + 4 <= Z.of_nat (length buf) ->
  let buf' := splice o (coord_bytes c) buf in
  marshallCoord c (record_at id o buf) = Ok (tt, record_at id (o + 4) buf')
  /\ unmarshallCoord c0 (record_at id o buf')
     = Ok (coord_def.mk (to_short (coord_def.x c)) (to_short (coord_def.y c)),
           record_at id (o + 4) buf').
Proof.
  intros Ho Hroom buf'.
  apply (writes_reads_round_trip _ _ (coord_bytes c) _ id o buf
           (writes_marshallCoord c) (reads_unmarshallCoord c0 c) Ho Hroom).
Qed.

(** ** Level ids and positions *)

Lemma writes_marshall_level_id lid :
  writes (marshall_level_id lid) (level_id_bytes lid).
Proof.
  unfold marshall_level_id, level_id_bytes.
  apply writes_bind; [apply writes_marshallByte |].
  apply writes_bind; [apply writes_marshallLong | apply writes_marshallByte].
Qed.

Lemma reads_unmarshall_level_id lid :
  reads unmarshall_level_id (level_id_bytes lid)
    (level_id.mk (to_char (level_id.branch lid))
                 (to_int (level_id.depth lid))
                 (to_char (level_id.level_type lid))).
Proof.
  unfold unmarshall_level_id, level_id_bytes.
  rewrite <- (to_char_byte (level_id.branch lid)).
  rewrite <- (to_char_byte (level_id.level_type lid)).
  rewrite <- (to_int_to_long_to_uint (level_id.depth lid)).
  eapply reads_bind; [apply reads_unmarshallByte |].
  eapply reads_bind; [apply reads_unmarshallLong |].
  rewrite <- (app_nil_r [to_uchar (level_id.level_type lid)]).
  eapply reads_bind; [apply reads_unmarshallByte | apply reads_ret].
Qed.

Lemma writes_marshall_level_pos lpos :
  writes (marshall_level_pos lpos) (level_pos_bytes lpos).
Proof.
  unfold marshall_level_pos, level_pos_bytes.
  apply writes_bind; [apply writes_marshallLong |].
  apply writes_bind; [apply writes_marshallLong |].
  apply writes_marshall_level_id.
Qed.

Lemma reads_unmarshall_level_pos lpos :
  reads unmarshall_level_pos (level_pos_bytes lpos)
    (level_pos.mk
       (coord_def.mk (to_int (coord_def.x (level_pos.pos lpos)))
                     (to_int (coord_def.y (level_pos.pos lpos))))
       (level_id.mk (to_char (level_id.branch (level_pos.id lpos)))
                    (to_int (level_id.depth (level_pos.id lpos)))
                    (to_char (level_id.level_type (level_pos.id lpos))))).
Proof.
  unfold unmarshall_level_pos, level_pos_bytes.
  rewrite <- (to_int_to_long_to_uint (coord_def.x (level_pos.pos lpos))).
  rewrite <- (to_int_to_long_to_uint (coord_def.y (level_pos.pos lpos))).
  eapply reads_bind; [apply reads_unmarshallLong |].
  eapply reads_bind; [apply reads_unmarshallLong |].
  rewrite <- (app_nil_r (level_id_bytes _)).
  eapply reads_bind; [apply reads_unmarshall_level_id | apply reads_ret].
Qed.

(** X4.  A level position takes 14 bytes: x and y as longs, then the level
    id as branch byte, depth long and level-type byte.  Reading it back gives
    the same position when x, y and depth are 32-bit values and branch and
    level type are [char] values; otherwise each field comes back reduced to
    its width.  The three numbers are [int] fields, so the width of [long]
    makes no difference. *)
Theorem level_pos_round_trip id o buf lpos :
  0 <= o -> o + 14 <= Z.of_nat (length buf) ->
  let buf' := splice o (level_pos_bytes lpos) buf in
  let p := level_pos.pos lpos in
  let l := level_pos.id lpos in
  marshall_level_pos lpos (record_at id o buf)
  = Ok (tt, record_at id (o + 14) buf')
  /\ unmarshall_level_pos (record_at id o buf')
     = Ok (level_pos.mk
             (coord_def.mk (to_int (coord_def.x p)) (to_int (coord_def.y p)))
             (level_id.mk (to_char (level_id.branch l))
                          (to_int (level_id.depth l))
                          (to_char (level_id.level_type l))),
           record_at id (o + 14) buf').
Proof.
  intros Ho Hroom buf' p l.
  apply (writes_reads_round_trip _ _ (level_pos_bytes lpos) _ id o buf
           (writes_marshall_level_pos lpos) (reads_unmarshall_level_pos lpos)
           Ho Hroom).
Qed.

(** ** Enchantments *)

Lemma writes_marshall_mon_enchant me :
  writes (marshall_mon_enchant me) (mon_enchant_bytes me).
Proof.
  unfold marshall_mon_enchant, mon_enchant_bytes.
  repeat (apply writes_bind; [apply writes_marshallShort |]).
  apply writes_marshallShort.
Qed.

Lemma reads_unmarshall_mon_enchant me :
  reads unmarshall_mon_enchant (mon_enchant_bytes me)
    (mon_enchant.mk (to_short (mon_enchant.ench me))
                    (to_short (mon_enchant.degree me))
                    (to_short (mon_enchant.who me))
                    (to_short (mon_enchant.duration me))
                    (to_short (mon_enchant.maxduration me))).
Proof.
  unfold unmarshall_mon_enchant, mon_enchant_bytes.
  do 4 (eapply reads_bind; [apply reads_unmarshallShort |]).
  rewrite <- (app_nil_r (big_endian 2 _)).
  eapply reads_bind; [apply reads_unmarshallShort | apply reads_ret].
Qed.

(** X5.  An enchantment is five shorts.  [marshall_mon_enchant] writes ten
    bytes and [unmarshall_mon_enchant] reads them back as the five fields,
    each reduced to 16 bits; an enchantment whose fields are shorts comes
    back unchanged. *)
Theorem mon_enchant_round_trip id o buf me :
  0 <= o -> o + 10 <= Z.of_nat (length buf) ->
  let buf' := splice o (mon_enchant_bytes me) buf in
  let me' := mon_enchant.mk (to_short (mon_enchant.ench me))
                            (to_short (mon_enchant.degree me))
                            (to_short (mon_enchant.who me))
                            (to_short (mon_enchant.duration me))
                            (to_short (mon_enchant.maxduration me)) in
  marshall_mon_enchant me (record_at id o buf)
  = Ok (tt, record_at id (o + 10) buf')
  /\ unmarshall_mon_enchant (record_at id o buf')
     = Ok (me', record_at id (o + 10) buf')
  /\ (Forall (fun v => -32768 <= v <= 32767)
        [mon_enchant.ench me; mon_enchant.degree me; mon_enchant.who me;
         mon_enchant.duration me; mon_enchant.maxduration me] ->
      me' = me).
Proof.
  intros Ho Hroom buf' me'.
  destruct (writes_reads_round_trip _ _ (mon_enchant_bytes me) _ id o buf
              (writes_marshall_mon_enchant me)
              (reads_unmarshall_mon_enchant me) Ho Hroom) as [Hw Hr].
  split; [exact Hw |]. split; [exact Hr |].
  intros Hshort. unfold me'.
  repeat match goal with
         | Hf : Forall _ (_ :: _) |- _ =>
             apply Forall_cons in Hf as [? Hf]
         end.
  rewrite !to_short_small by assumption.
  destruct me; reflexivity.
Qed.

End PrimitiveFormats.

(** ** Concrete instances *)

Lemma boolean_round_trip_witness :
  unmarshallBoolean (H := signed_char_platform) (record_at 8 1 [7; 1; 9])
  = Ok (true, record_at 8 2 [7; 1; 9]).
Proof.
  destruct (boolean_round_trip (H := signed_char_platform) 8 1 [7; 0; 9] true
              ltac:(simpl; lia)) as (_ & Hr & _).
  exact Hr.
Defined.

Lemma byte_round_trip_witness :
  unmarshallByte (H := signed_char_platform) (record_at 8 1 [7; 200; 9])
  = Ok (-56, record_at 8 2 [7; 200; 9]).
Proof.
  destruct (byte_round_trip (H := signed_char_platform) 8 1 [7; 0; 9] 200
              ltac:(simpl; lia)) as (_ & Hr & _).
  exact Hr.
Defined.

Lemma coord_round_trip_witness :
  unmarshallCoord (coord_def.mk 0 0) (record_at 8 0 [1; 0; 255; 254])
  = Ok (coord_def.mk 256 (-2), record_at 8 4 [1; 0; 255; 254]).
Proof.
  destruct (coord_round_trip (H := signed_char_platform) 8 0 (replicate 4 0) (coord_def.mk 65792 (-2))
              (coord_def.mk 0 0) ltac:(lia) ltac:(simpl; lia)) as [_ Hr].
  exact Hr.
Defined.

Lemma level_pos_round_trip_witness :
  marshall_level_pos (H := signed_char_platform)
    (level_pos.mk (coord_def.mk 3 4) (level_id.mk 2 5 0))
    (record_at 8 0 (replicate 14 9))
  = Ok (tt, record_at 8 14 [0; 0; 0; 3; 0; 0; 0; 4; 2; 0; 0; 0; 5; 0]).
Proof.
  destruct (level_pos_round_trip (H := signed_char_platform) 8 0
              (replicate 14 9)
              (level_pos.mk (coord_def.mk 3 4) (level_id.mk 2 5 0))
              ltac:(lia) ltac:(simpl; lia)) as [Hw _].
  exact Hw.
Defined.

Lemma mon_enchant_round_trip_witness :
  marshall_mon_enchant (H := signed_char_platform)
    (mon_enchant.mk 5 1 2 300 (-1))
    (record_at 8 0 (replicate 10 9))
  = Ok (tt, record_at 8 10 [0; 5; 0; 1; 0; 2; 1; 44; 255; 255]).
Proof.
  destruct (mon_enchant_round_trip (H := signed_char_platform) 8 0 (replicate 10 9)
              (mon_enchant.mk 5 1 2 300 (-1))
              ltac:(lia) ltac:(simpl; lia)) as [Hw _].
  exact Hw.
Defined.

(** ** Containers *)

Section ContainerFacts.
Context `{Platform}.
Context {A : Type}.

Lemma writes_for_each (m : A -> M unit) (enc : A -> list Z) elems :
  (forall a, a ∈ elems -> writes (m a) (enc a)) ->
  writes (for_each (fun _ a => m a) tt elems) (concat (map enc elems)).
Proof.
  induction elems as [| a elems IH]; intros Hm; [apply writes_ret |].
  cbn [for_each map concat].
  intros id o buf Ho Hroom.
  pose proof (writes_bind _ _ _ _ (Hm a ltac:(left))
                (IH (fun b Hb => Hm b ltac:(right; exact Hb)))
                id o buf Ho Hroom) as Hb.
  unfold bind in Hb |- *.
  destruct (m a (record_at id o buf)) as [[[] s1] |]; exact Hb.
Qed.

Lemma reads_push_back_each (um : M A) (enc : A -> list Z) (norm : A -> A)
    elems :
  (forall a, a ∈ elems -> reads um (enc a) (norm a)) ->
  forall vec,
    reads (push_back_each (length elems) um vec) (concat (map enc elems))
      (vec ++ map norm elems).
Proof.
  induction elems as [| a elems IH]; intros Hum vec.
  - simpl. rewrite app_nil_r. apply reads_ret.
  - cbn [length push_back_each map concat].
    eapply reads_bind; [apply Hum; left |].
    replace (vec ++ norm a :: map norm elems)
      with ((vec ++ [norm a]) ++ map norm elems)
      by (rewrite <- app_assoc; reflexivity).
    apply IH. intros b Hb. apply Hum. right. exact Hb.
Qed.

(** X6.  A sequence written by [marshall_iterator] is a 4-byte count followed by
    the elements; [unmarshall_vector] discards what the vector held and reads
    the elements back in order, each as its reader returns it.  The
    hypotheses say what one element is written as and read back as. *)
Theorem vector_round_trip (T_marshall : A -> M unit) (T_unmarshall : M A)
    (enc : A -> list Z) (norm : A -> A) elems vec id o buf :
  (forall a, writes (T_marshall a) (enc a)) ->
  (forall a, reads T_unmarshall (enc a) (norm a)) ->
  Z.of_nat (length elems) <= 2147483647 ->
  let bytes := big_endian 4 (Z.of_nat (length elems))
                 ++ concat (map enc elems) in
  let buf' := splice o bytes buf in
  let o' := o + Z.of_nat (length bytes) in
  0 <= o -> o' <= Z.of_nat (length buf) ->
  marshall_iterator elems T_marshall (record_at id o buf)
  = Ok (tt, record_at id o' buf')
  /\ unmarshall_vector vec T_unmarshall (record_at id o buf')
     = Ok (map norm elems, record_at id o' buf').
Proof.
  intros Hm Hum Hlen bytes buf' o' Ho Hroom.
  apply (writes_reads_round_trip _ _ bytes _ id o buf); try assumption.
  - unfold marshall_iterator, bytes.
    apply writes_bind; [apply writes_marshallLong |].
    apply writes_for_each. intros a _. apply Hm.
  - unfold unmarshall_vector, bytes.
    eapply reads_bind; [apply reads_unmarshallLong |].
    rewrite to_long_to_uint_small, Nat2Z.id by lia.
    apply (reads_push_back_each _ enc norm elems (fun a _ => Hum a) []).
Qed.

End ContainerFacts.

(** A count that is not positive makes [unmarshall_vector] return the empty
    vector after the four count bytes. *)
Lemma unmarshall_vector_no_elements `{Platform}
    {A} (T_unmarshall : M A) vec count :
  to_long (to_uint count) <= 0 ->
  reads (unmarshall_vector vec T_unmarshall) (big_endian 4 count) [].
Proof.
  intros Hcount. unfold unmarshall_vector.
  rewrite <- (app_nil_r (big_endian 4 count)).
  eapply reads_bind; [apply reads_unmarshallLong |].
  replace (Z.to_nat (to_long (to_uint count))) with 0%nat by lia.
  apply reads_ret.
Qed.

Lemma vector_round_trip_witness :
  unmarshall_vector (H := signed_char_platform) [7] unmarshallShort
    (record_at 1 0 [0; 0; 0; 2; 0; 3; 255; 252; 0; 0])
  = Ok ([3; -4], record_at 1 8 [0; 0; 0; 2; 0; 3; 255; 252; 0; 0]).
Proof.
  destruct (vector_round_trip (H := signed_char_platform)
              marshallShort unmarshallShort (big_endian 2) to_short
              [3; -4] [7] 1 0 (replicate 10 0)
              (fun a => writes_marshallShort (H := signed_char_platform) a)
              reads_unmarshallShort
              ltac:(simpl; lia) ltac:(lia) ltac:(simpl; lia)) as [_ Hr].
  exact Hr.
Defined.

(** ** Strings *)

Section StringFormats.
Context `{Platform}.

Lemma writes_marshallString data maxSize :
  Z.of_nat (length data) <= 2147483647 ->
  writes (marshallString data maxSize)
    (big_endian 2 (stored_length data maxSize)
       ++ take (Z.to_nat (stored_length data maxSize)) data).
Proof.
  intros Hint id o buf Ho Hroom.
  pose proof (stored_length_bounds data maxSize) as Hb.
  rewrite length_app, length_take in *.
  change (length (big_endian 2 (stored_length data maxSize))) with 2%nat in *.
  rewrite marshallString_record by lia.
  f_equal. f_equal. unfold record_at. f_equal. f_equal. lia.
Qed.

Lemma reads_unmarshallString maxSize len bytes :
  0 < maxSize -> 0 <= len <= 32767 -> Z.of_nat (length bytes) = len ->
  reads (unmarshallString maxSize) (big_endian 2 len ++ bytes)
    (take (Z.to_nat (copy_length len maxSize)) bytes).
Proof.
  intros Hmax Hlen Hbytes id o buf Ho Hat.
  rewrite length_app in *.
  change (length (big_endian 2 len)) with 2%nat in *.
  rewrite (unmarshallString_record id o buf maxSize len bytes) by assumption.
  f_equal. f_equal. unfold record_at. f_equal. f_equal. lia.
Qed.

Lemma read_back_stored maxSize data :
  0 < maxSize ->
  let len := stored_length data maxSize in
  take (Z.to_nat (copy_length len maxSize)) (take (Z.to_nat len) data)
  = read_back maxSize data.
Proof.
  intros Hmax len. unfold read_back, len, copy_length, stored_length.
  rewrite take_take.
  destruct (Z.ltb_spec 0 maxSize); [| lia]. cbn [andb].
  destruct (Z.ltb_spec maxSize (Z.of_nat (length data))).
  - rewrite Z.leb_refl. cbn [andb]. f_equal. lia.
  - rewrite andb_true_r.
    destruct (Z.leb_spec maxSize (Z.of_nat (length data))).
    + f_equal. lia.
    + rewrite Nat.min_id, !take_ge by lia. reflexivity.
Qed.

(** X7.  A string of at most 32767 chars written with [marshallString] and read
    with [unmarshallString] under the same positive [maxSize] comes back as
    its first [maxSize - 1] chars: unchanged when it is shorter than
    [maxSize], and without its last char when it has exactly [maxSize] chars,
    although all of them were stored.  The cursor ends where the writer's
    did. *)
Theorem string_round_trip id o buf data maxSize :
  0 < maxSize -> Z.of_nat (length data) <= 32767 ->
  let len := stored_length data maxSize in
  let buf' := splice o (big_endian 2 len ++ take (Z.to_nat len) data) buf in
  0 <= o -> o + 2 + len <= Z.of_nat (length buf) ->
  marshallString data maxSize (record_at id o buf)
  = Ok (tt, record_at id (o + 2 + len) buf')
  /\ unmarshallString maxSize (record_at id o buf')
     = Ok (read_back maxSize data, record_at id (o + 2 + len) buf')
  /\ (Z.of_nat (length data) < maxSize -> read_back maxSize data = data)
  /\ (Z.of_nat (length data) = maxSize ->
      len = maxSize /\ read_back maxSize data = removelast data).
Proof.
  intros Hmax Hshort len buf' Ho Hroom.
  pose proof (stored_length_bounds data maxSize) as Hb. fold len in Hb.
  split; [| split; [| split]].
  - apply marshallString_record; lia.
  - rewrite <- (read_back_stored maxSize data Hmax). fold len.
    apply unmarshallString_record; try lia.
    + rewrite length_take. lia.
    + replace (2 + length (take (Z.to_nat len) data))%nat
        with (length (big_endian 2 len ++ take (Z.to_nat len) data))
        by (rewrite length_app; reflexivity).
      apply take_drop_splice; [lia |].
      rewrite length_app, length_take.
      change (length (big_endian 2 len)) with 2%nat. lia.
  - intros Hlt. unfold read_back. apply take_ge. lia.
  - intros Heq. split.
    + unfold len, stored_length.
      destruct (Z.ltb_spec maxSize (Z.of_nat (length data))); [lia |].
      rewrite andb_false_r. lia.
    + unfold read_back. rewrite removelast_firstn_len.
      f_equal. lia.
Qed.

End StringFormats.

Lemma string_round_trip_witness :
  unmarshallString (H := signed_char_platform) 3
    (record_at 0 1
       (splice 1 (big_endian 2 (stored_length [97; 98; 99] 3)
                    ++ take (Z.to_nat (stored_length [97; 98; 99] 3))
                         [97; 98; 99])
          (replicate 8 0)))
  = Ok ([97; 98], record_at 0 (1 + 2 + 3) [0; 0; 3; 97; 98; 99; 0; 0]).
Proof.
  destruct (string_round_trip (H := signed_char_platform)
              0 1 (replicate 8 0) [97; 98; 99] 3
              ltac:(lia) ltac:(simpl; lia) ltac:(lia)
              ltac:(vm_compute; discriminate))
    as (_ & Hr & _).
  exact Hr.
Defined.

(** ** Headers bound to a stream *)

Lemma readByte_stream id o f buf c :
  fdata f !! fpos f = Some c ->
  readByte (stream_at id o f buf)
  = Ok (to_uchar c, stream_at id o (mkFILE (fdata f) (S (fpos f))) buf).
Proof.
  intros Hc. unfold readByte, stream_at, fgetc. simpl. rewrite Hc.
  rewrite to_uchar_idemp. reflexivity.
Qed.

Lemma readByte_stream_eof id o f buf :
  (length (fdata f) <= fpos f)%nat ->
  readByte (stream_at id o f buf) = Ok (255, stream_at id o f buf).
Proof.
  intros Heof. unfold readByte, stream_at, fgetc. simpl.
  rewrite (lookup_ge_None_2 _ _ Heof). reflexivity.
Qed.

Lemma writeByte_stream id o f buf c :
  writeByte c (stream_at id o f buf)
  = Ok (tt, stream_at id o (snd (fwrite [to_uchar c] f)) buf).
Proof. reflexivity. Qed.

Lemma writeBytes_stream id o buf bytes : forall b f,
  Forall (fun b => 0 <= b < 256) (b :: bytes) ->
  writeBytes (b :: bytes) (stream_at id o f buf)
  = Ok (tt, stream_at id o (snd (fwrite (b :: bytes) f)) buf).
Proof.
  induction bytes as [| b' bytes IH]; intros b f Hb;
    apply Forall_cons in Hb as [Hb Hbs].
  - cbn [writeBytes]. rewrite (bind_Ok _ _ _ _ _ (writeByte_stream id o f buf b)).
    rewrite to_uchar_small by assumption. reflexivity.
  - change (writeBytes (b :: b' :: bytes))
      with (writeByte b ;; writeBytes (b' :: bytes)).
    rewrite (bind_Ok _ _ _ _ _ (writeByte_stream id o f buf b)).
    rewrite IH by assumption.
    rewrite to_uchar_small by assumption.
    rewrite fwrite_app. reflexivity.
Qed.

Lemma fpos_fwrite data f :
  fpos (snd (fwrite data f)) = (fpos f + length data)%nat.
Proof. reflexivity. Qed.

Lemma lookup_fwrite data f i :
  (i < length data)%nat ->
  fdata (snd (fwrite data f)) !! (fpos f + i)%nat = data !! i.
Proof.
  intros Hi. unfold fwrite. simpl.
  set (padded := fdata f ++ replicate (fpos f - length (fdata f)) 0).
  assert (Hp : length (take (fpos f) padded) = fpos f).
  { rewrite length_take. unfold padded.
    rewrite length_app, length_replicate. lia. }
  rewrite lookup_app_r by lia. rewrite Hp.
  replace (fpos f + i - fpos f)%nat with i by lia.
  apply lookup_app_l. exact Hi.
Qed.

Lemma advance_stream_back id o f buf data :
  advance (- Z.of_nat (length data)) (stream_at id o (snd (fwrite data f)) buf)
  = Ok (tt, stream_at id o (mkFILE (fdata (snd (fwrite data f))) (fpos f)) buf).
Proof.
  unfold advance, stream_at, fseek_cur. cbn [th file tagBuffer].
  rewrite fpos_fwrite.
  destruct (Z.leb_spec 0 (Z.of_nat (fpos f + length data)
                          + - Z.of_nat (length data))); [| lia].
  unfold set_file. cbn [tagID offset].
  replace (Z.to_nat (Z.of_nat (fpos f + length data)
                     + - Z.of_nat (length data))) with (fpos f) by lia.
  reflexivity.
Qed.

Section StreamScalars.
Context `{Platform}.

(** X8.  On a header bound to a stream, a short written at the position
    indicator and read after seeking back over it comes back reduced to 16
    bits, wherever in the file the indicator stands (also past its end); the
    file holds the big-endian bytes at that place.  A long is written as its
    four low bytes and comes back as the unsigned number they spell, taken
    for a [long]: unchanged from 0 to [2^31 - 1]; a negative 32-bit value is
    unchanged where [long] has 32 bits and comes back [2^32] larger where it
    has 64. *)
Theorem stream_short_long_round_trip id o f buf v :
  (marshallShort v ;; advance (-2) ;; unmarshallShort) (stream_at id o f buf)
  = Ok (to_short v, stream_at id o (snd (fwrite (big_endian 2 v) f)) buf)
  /\ (marshallLong v ;; advance (-4) ;; unmarshallLong) (stream_at id o f buf)
     = Ok (to_long (to_uint v),
           stream_at id o (snd (fwrite (big_endian 4 v) f)) buf)
  /\ (0 <= v <= 2147483647 -> to_long (to_uint v) = v)
  /\ (-2147483648 <= v < 0 ->
      to_long (to_uint v) = if long_64 then v + 4294967296 else v).
Proof.
  split; [| split; [| split;
    [apply to_long_to_uint_small | apply to_long_to_uint_negative]]].
  - unfold bind at 1. rewrite marshallShort_writeBytes, big_endian_2.
    rewrite writeBytes_stream
      by (repeat constructor; apply Z.mod_pos_bound; lia).
    rewrite <- big_endian_2.
    rewrite (bind_Ok _ _ _ _ _
               (advance_stream_back id o f buf (big_endian 2 v))).
    set (f' := snd (fwrite (big_endian 2 v) f)).
    assert (Hk : forall k c, big_endian 2 v !! k = Some c ->
               fdata f' !! (fpos f + k)%nat = Some c).
    { intros k c Hc. unfold f'.
      rewrite lookup_fwrite; eauto using lookup_lt_Some. }
    unfold unmarshallShort.
    rewrite (bind_Ok _ _ _ _ _
               (readByte_stream id o (mkFILE (fdata f') (fpos f)) buf _
                  ltac:(cbn [fdata fpos];
                        rewrite <- (Nat.add_0_r (fpos f));
                        apply Hk; rewrite big_endian_2; reflexivity))).
    rewrite (bind_Ok _ _ _ _ _
               (readByte_stream id o (mkFILE (fdata f') (S (fpos f))) buf _
                  ltac:(cbn [fdata fpos];
                        rewrite <- (Nat.add_1_r (fpos f));
                        apply Hk; rewrite big_endian_2; reflexivity))).
    unfold ret. cbn [fdata fpos].
    rewrite !to_uchar_small by (apply Z.mod_pos_bound; lia).
    rewrite short_of_bytes.
    f_equal. f_equal. unfold stream_at. do 3 f_equal.
    unfold f'. destruct f as [d p]. unfold fwrite. cbn [snd fdata fpos].
    f_equal. simpl. lia.
  - unfold bind at 1. rewrite marshallLong_writeBytes, big_endian_4.
    rewrite writeBytes_stream
      by (repeat constructor; apply Z.mod_pos_bound; lia).
    rewrite <- big_endian_4.
    rewrite (bind_Ok _ _ _ _ _
               (advance_stream_back id o f buf (big_endian 4 v))).
    set (f' := snd (fwrite (big_endian 4 v) f)).
    assert (Hk : forall k c, big_endian 4 v !! k = Some c ->
               fdata f' !! (fpos f + k)%nat = Some c).
    { intros k c Hc. unfold f'.
      rewrite lookup_fwrite; eauto using lookup_lt_Some. }
    unfold unmarshallLong.
    rewrite (bind_Ok _ _ _ _ _
               (readByte_stream id o (mkFILE (fdata f') (fpos f)) buf _
                  ltac:(cbn [fdata fpos];
                        rewrite <- (Nat.add_0_r (fpos f));
                        apply Hk; rewrite big_endian_4; reflexivity))).
    rewrite (bind_Ok _ _ _ _ _
               (readByte_stream id o (mkFILE (fdata f') (S (fpos f))) buf _
                  ltac:(cbn [fdata fpos];
                        rewrite <- (Nat.add_1_r (fpos f));
                        apply Hk; rewrite big_endian_4; reflexivity))).
    rewrite (bind_Ok _ _ _ _ _
               (readByte_stream id o (mkFILE (fdata f') (S (S (fpos f)))) buf _
                  ltac:(cbn [fdata fpos];
                        replace (S (S (fpos f))) with (fpos f + 2)%nat by lia;
                        apply Hk; rewrite big_endian_4; reflexivity))).
    rewrite (bind_Ok _ _ _ _ _
               (readByte_stream id o
                  (mkFILE (fdata f') (S (S (S (fpos f))))) buf _
                  ltac:(cbn [fdata fpos];
                        replace (S (S (S (fpos f)))) with (fpos f + 3)%nat
                          by lia;
                        apply Hk; rewrite big_endian_4; reflexivity))).
    unfold ret. cbn [fdata fpos].
    rewrite !to_uchar_small by (apply Z.mod_pos_bound; lia).
    rewrite long_of_bytes.
    f_equal. f_equal. unfold stream_at. do 3 f_equal.
    unfold f'. destruct f as [d p]. unfold fwrite. cbn [snd fdata fpos].
    f_equal. simpl. lia.
Qed.

(** X9.  At the end of the file the readers do not fail: [fgetc] returns
    [EOF], which is taken for the byte 255, so a short reads as -1, a long as
    -1 with a 32-bit [long] and as 4294967295 with a 64-bit one, a boolean as
    false and a byte as the [char] 255; the stream stays where it is. *)
Theorem stream_scalars_at_eof id o f buf :
  (length (fdata f) <= fpos f)%nat ->
  let s := stream_at id o f buf in
  unmarshallByte s = Ok (to_char 255, s)
  /\ unmarshallShort s = Ok (-1, s)
  /\ unmarshallLong s = Ok (if long_64 then 4294967295 else -1, s)
  /\ unmarshallBoolean s = Ok (false, s).
Proof.
  intros Heof s.
  pose proof (readByte_stream_eof id o f buf Heof) as Hr. fold s in Hr.
  unfold unmarshallByte, unmarshallShort, unmarshallLong, unmarshallBoolean.
  repeat split.
  - rewrite (bind_Ok _ _ _ _ _ Hr). reflexivity.
  - rewrite (bind_Ok _ _ _ _ _ Hr), (bind_Ok _ _ _ _ _ Hr). reflexivity.
  - do 4 rewrite (bind_Ok _ _ _ _ _ Hr). unfold ret, to_long.
    destruct long_64; reflexivity.
  - rewrite (bind_Ok _ _ _ _ _ Hr). unfold ret.
    replace (to_char 255 =? 1) with false; [reflexivity |].
    unfold to_char. destruct char_signed; reflexivity.
Qed.

End StreamScalars.

Lemma stream_scalars_at_eof_witness :
  unmarshallShort (stream_at 0 0 (mkFILE [1; 2] 2) [])
  = Ok (-1, stream_at 0 0 (mkFILE [1; 2] 2) []).
Proof.
  destruct (stream_scalars_at_eof (H := signed_char_platform)
              0 0 (mkFILE [1; 2] 2) [] ltac:(simpl; lia))
    as (_ & Hs & _).
  exact Hs.
Defined.

Lemma stream_short_long_round_trip_witness :
  (marshallLong (H := lp64_platform) (-1) ;; advance (-4) ;;
   unmarshallLong (H := lp64_platform)) (stream_at 0 0 (mkFILE [] 0) [])
  = Ok (4294967295, stream_at 0 0 (mkFILE [255; 255; 255; 255] 4) []).
Proof.
  destruct (stream_short_long_round_trip (H := lp64_platform)
              0 0 (mkFILE [] 0) [] (-1)) as (_ & Hl & _ & Hneg).
  rewrite Hl, (Hneg ltac:(lia)). reflexivity.
Defined.

(** ** Constructing, writing and reading a tag *)

Lemma remaining_fwrite data f :
  remaining (mkFILE (fdata (snd (fwrite data f))) (fpos f))
  = data ++ drop (fpos f + length data) (fdata f).
Proof.
  unfold remaining, fwrite. cbn [snd fdata fpos].
  apply drop_app_length'.
  rewrite length_take, length_app, length_replicate. lia.
Qed.

Lemma decode_be_big_endian_2 v :
  to_short (decode_be (big_endian 2 v)) = to_short v.
Proof.
  rewrite big_endian_2. unfold decode_be. cbn [fold_left].
  rewrite !to_uchar_small by (apply Z.mod_pos_bound; lia).
  unfold to_short. Z.div_mod_to_equations. lia.
Qed.

Lemma decode_be_big_endian_4 `{Platform} v :
  to_long (decode_be (big_endian 4 v)) = to_long (to_uint v).
Proof.
  f_equal. rewrite big_endian_4. unfold decode_be. cbn [fold_left].
  rewrite !to_uchar_small by (apply Z.mod_pos_bound; lia).
  unfold to_uint. Z.div_mod_to_equations. lia.
Qed.

Section TagFrames.
Context `{Platform} `{Headers}.

(** What [tag_write] does with a record that has a header. *)
Lemma tag_write_record saveFile id o buf :
  0 < o <= Z.of_nat (length buf) -> o <= 2147483647 ->
  6 <= Z.of_nat (length buf) -> id <> TAG_VERSION ->
  tag_write saveFile (record_at id o buf)
  = Ok (snd (fwrite (big_endian 2 id ++ big_endian 4 o
                       ++ take (Z.to_nat o) buf) saveFile),
        record_at id o buf).
Proof.
  intros Ho Hmax Hsix Hid. unfold tag_write, record_at.
  cbn [th offset tagID tagBuffer].
  destruct (Z.eqb_spec o 0); [lia |].
  destruct (Z.eqb_spec id TAG_VERSION); [contradiction |].
  cbn [negb]. unfold swap_out, tagHdrSize.
  destruct (Z.leb_spec 6 (Z.of_nat (length buf))); [| lia].
  rewrite to_int_small by lia.
  change (mkM (set_offset 0 (mkTH id o None)) buf) with (record_at id 0 buf).
  pose proof (writes_bind _ _ _ _ (writes_marshallShort id)
                (writes_marshallLong o) id 0 buf ltac:(lia)
                ltac:(simpl; lia)) as Hhdr.
  set (hdr := big_endian 2 id ++ big_endian 4 o) in *.
  change (Z.of_nat (length hdr)) with 6 in Hhdr.
  assert (Hl : length hdr = 6%nat) by reflexivity.
  rewrite Hhdr. unfold record_at. cbn [th offset tagID tagBuffer].
  rewrite write2_Ok by (rewrite ?length_splice; rewrite ?Hl; lia).
  replace (take (Z.to_nat (0 + 6)) (splice 0 hdr buf)) with hdr
    by (symmetry; apply (take_drop_splice 0 hdr buf); rewrite ?Hl; lia).
  unfold swap_in.
  rewrite splice_overwrite by (rewrite ?length_take, ?Hl; lia).
  change (take (Z.to_nat 6) buf) with (take 6 (drop (Z.to_nat 0) buf)).
  rewrite splice_same by (simpl; lia).
  unfold set_offset. cbn [th offset tagID tagBuffer file].
  rewrite write2_Ok by lia.
  rewrite fwrite_app. unfold hdr. rewrite <- app_assoc. reflexivity.
Qed.

Context {W : Type}.

(** X10.  A tag [tag_construct] has no case for is left empty, and [tag_write]
    then writes nothing: asking for an unknown tag leaves the save file as it
    is. *)
Theorem tag_construct_unknown_writes_nothing (ws : Writers W) tagID w s
    saveFile :
  tagID ∉ known_tags ->
  let s' := mkM (mkTH (to_short tagID) 0 (file (th s))) (tagBuffer s) in
  tag_construct ws tagID w s = Ok (tt, s')
  /\ tag_write saveFile s' = Ok (saveFile, s').
Proof.
  intros Hid s'. unfold known_tags in Hid. split.
  - unfold tag_construct. fold s'.
    repeat match goal with
           | |- context [tagID =? ?t] =>
               destruct (Z.eqb_spec tagID t) as [Heq | _];
               [exfalso; apply Hid; rewrite Heq; set_solver |]
           end.
    reflexivity.
  - reflexivity.
Qed.

Lemma tag_read_dispatch_known (rs : Readers W) id minorVersion s w r :
  tag_read_dispatch rs id minorVersion s w = Some r -> id ∈ known_tags.
Proof.
  unfold tag_read_dispatch, known_tags.
  repeat match goal with
         | |- context [id =? ?t] =>
             destruct (Z.eqb_spec id t) as [-> | _]; [set_solver |]
         end.
  discriminate.
Qed.

(** X11.  Whatever the stream and the buffer hold, a value [tag_read] returns is
    0 or the positive ID of a tag it has a reader for; the call does not change
    the content of the file and does not move the position indicator backwards. *)
Theorem tag_read_returns_zero_or_known (rs : Readers W) fp minorVersion buf w
    v fp' buf' w' :
  tag_read rs fp minorVersion buf w = Ok (v, fp', buf', w') ->
  (v = 0 \/ (0 < v /\ v ∈ known_tags))
  /\ fdata fp' = fdata fp /\ (fpos fp <= fpos fp')%nat.
Proof.
  unfold tag_read, read2, fread. cbn [fdata fpos].
  destruct (_ <=? _)%nat; [| discriminate].
  destruct (negb _); [intros [= <- <- <- <-]; cbn; repeat split; auto; lia |].
  destruct ((id <- unmarshallShort ;; len <- unmarshallLong ;; ret (id, len)) _)
    as [[[id len] s1] |]; [| discriminate].
  cbn [tagID offset].
  destruct (Z.leb_spec (to_short id) 0);
    [intros [= <- <- <- <-]; cbn; repeat split; auto; lia |].
  destruct (len <=? 0);
    [intros [= <- <- <- <-]; cbn; repeat split; auto; lia |].
  cbn [orb fdata fpos].
  destruct (_ <=? _)%nat; [| discriminate].
  destruct (negb _); [intros [= <- <- <- <-]; cbn; repeat split; auto; lia |].
  destruct (tag_read_dispatch _ _ _ _ _) as [[[s2 w2] | f] |] eqn:Hd;
    [| discriminate |].
  - intros [= <- <- <- <-]. cbn. repeat split; try lia.
    right. split; [lia |]. eapply tag_read_dispatch_known. exact Hd.
  - intros [= <- <- <- <-]. cbn. repeat split; auto; lia.
Qed.

(** X12.  A record written by [tag_write] is what [tag_read] expects: read from
    where it was written, the header is accepted, the payload is loaded to
    the start of the buffer, the reader chosen by the tag is run on it with
    the cursor at 0, and the stream ends behind the record.  [tag_read]
    returns the tag when it has a reader for it, 0 otherwise. *)
Theorem tag_write_read_round_trip (rs : Readers W) saveFile id o buf buf2
    minorVersion w :
  0 < id <= 32767 -> id <> TAG_VERSION ->
  0 < o <= Z.of_nat (length buf) -> o <= 2147483647 ->
  6 <= Z.of_nat (length buf) ->
  6 <= Z.of_nat (length buf2) -> o <= Z.of_nat (length buf2) ->
  exists saveFile' buf3,
    tag_write saveFile (record_at id o buf) = Ok (saveFile', record_at id o buf)
    /\ fpos saveFile' = (fpos saveFile + 6 + Z.to_nat o)%nat
    /\ take (Z.to_nat o) buf3 = take (Z.to_nat o) buf
    /\ tag_read rs (mkFILE (fdata saveFile') (fpos saveFile)) minorVersion
         buf2 w
       = match tag_read_dispatch rs id minorVersion (record_at 0 0 buf3) w with
         | Some (Ok (s, w')) => Ok (id, saveFile', tagBuffer s, w')
         | Some (Fault f) => Fault f
         | None => Ok (0, saveFile', buf3, w)
         end.
Proof.
  intros Hid Hver Ho Hmax Hbuf Hbuf2 Hfit.
  set (payload := take (Z.to_nat o) buf).
  set (frame := big_endian 2 id ++ big_endian 4 o ++ payload).
  set (saveFile' := snd (fwrite frame saveFile)).
  remember (mkFILE (fdata saveFile') (fpos saveFile)) as fp eqn:Hfp.
  assert (Hpl : length payload = Z.to_nat o)
    by (unfold payload; rewrite length_take; lia).
  assert (Hrem : remaining fp
                 = frame ++ drop (fpos saveFile + length frame) (fdata saveFile))
    by (rewrite Hfp; apply remaining_fwrite).
  assert (Hid' : next_tagID fp = id).
  { unfold next_tagID. rewrite Hrem. unfold frame.
    rewrite <- app_assoc.
    rewrite (take_app_length' (big_endian 2 id)) by reflexivity.
    rewrite decode_be_big_endian_2. apply to_short_small. lia. }
  assert (Hlen' : next_length fp = o).
  { unfold next_length. rewrite Hrem. unfold frame.
    rewrite <- app_assoc.
    rewrite (drop_app_length' (big_endian 2 id)) by reflexivity.
    rewrite <- app_assoc.
    rewrite (take_app_length' (big_endian 4 o)) by reflexivity.
    rewrite decode_be_big_endian_4. apply to_long_to_uint_small. lia. }
  assert (Hpay : next_payload fp = payload).
  { unfold next_payload. rewrite Hlen', Hrem. unfold frame.
    rewrite (app_assoc (big_endian 2 id)), <- app_assoc.
    rewrite (drop_app_length' (big_endian 2 id ++ big_endian 4 o))
      by reflexivity.
    apply take_app_length'. auto. }
  exists saveFile',
    (payload ++ drop (length payload) (take 6 (remaining fp) ++ drop 6 buf2)).
  split; [apply tag_write_record; assumption |].
  split.
  { unfold saveFile'. rewrite fpos_fwrite. unfold frame.
    rewrite !length_app, Hpl. simpl. lia. }
  split; [apply take_app_length'; auto |].
  rewrite <- Hfp.
  assert (Hrl : (6 <= length (remaining fp))%nat).
  { rewrite Hrem, length_app. unfold frame. rewrite !length_app.
    simpl. lia. }
  rewrite tag_read_after_header by (assumption || lia).
  cbv zeta. rewrite Hid', Hlen'.
  destruct (Z.leb_spec id 0); [lia |].
  destruct (Z.leb_spec o 0); [lia |]. cbn [orb].
  rewrite <- Hlen' at 1.
  rewrite read2_payload;
    [| lia
     | rewrite Hpay, Hpl, length_app, length_take, length_drop; lia].
  rewrite Hpay, Hpl, Z2Nat.id, to_int_small, Z.eqb_refl by lia. cbn [negb].
  replace (mkFILE (fdata fp) (fpos fp + 6 + Z.to_nat o)) with saveFile'.
  2:{ rewrite Hfp. unfold saveFile', frame, fwrite. cbn [snd fdata fpos].
      f_equal. rewrite !length_app, Hpl. simpl. lia. }
  reflexivity.
Qed.

End TagFrames.

Lemma tag_construct_unknown_writes_nothing_witness :
  tag_construct (H := fixture_headers) idle_writers 42 tt
    (record_at 3 5 [1; 2; 3])
  = Ok (tt, mkM (mkTH (to_short 42) 0 None) [1; 2; 3]).
Proof.
  apply (tag_construct_unknown_writes_nothing (H := signed_char_platform)
           (H0 := fixture_headers) idle_writers 42 tt
           (record_at 3 5 [1; 2; 3]) (mkFILE [] 0)).
  unfold known_tags. vm_compute. intros Hin.
  repeat (apply elem_of_cons in Hin as [Hin | Hin]; [discriminate |]).
  apply elem_of_nil in Hin. exact Hin.
Defined.

Lemma tag_read_returns_zero_or_known_witness :
  (4 = 0 \/ (0 < 4 /\ 4 ∈ known_tags (H := fixture_headers)))
  /\ fdata (mkFILE [0; 4; 0; 0; 0; 1; 9] 7) = [0; 4; 0; 0; 0; 1; 9]
  /\ (fpos (mkFILE [0; 4; 0; 0; 0; 1; 9]%Z 0)
       <= fpos (mkFILE [0; 4; 0; 0; 0; 1; 9]%Z 7))%nat.
Proof.
  apply (tag_read_returns_zero_or_known (H := signed_char_platform)
           (H0 := fixture_headers) idle_readers
           (mkFILE [0; 4; 0; 0; 0; 1; 9] 0) 0 (replicate 8 0) tt
           4 (mkFILE [0; 4; 0; 0; 0; 1; 9] 7)
           [9; 4; 0; 0; 0; 1; 0; 0] tt).
  reflexivity.
Defined.

Lemma tag_write_read_round_trip_witness :
  exists saveFile' buf3,
    tag_write (H := signed_char_platform) (H0 := fixture_headers)
      (mkFILE [] 0) (record_at 4 2 [7; 8; 0; 0; 0; 0])
    = Ok (saveFile', record_at 4 2 [7; 8; 0; 0; 0; 0])
    /\ fpos saveFile' = (0 + 6 + Z.to_nat 2)%nat
    /\ take (Z.to_nat 2) buf3 = take (Z.to_nat 2) [7; 8; 0; 0; 0; 0]
    /\ tag_read (H := signed_char_platform) (H0 := fixture_headers)
         idle_readers
         (mkFILE (fdata saveFile') 0) 0 (replicate 6 0) tt
       = match tag_read_dispatch (H0 := fixture_headers) idle_readers 4 0
                 (record_at 0 0 buf3) tt with
         | Some (Ok (s, w')) => Ok (4, saveFile', tagBuffer s, w')
         | Some (Fault f) => Fault f
         | None => Ok (0, saveFile', buf3, tt)
         end.
Proof.
  apply (tag_write_read_round_trip (H := signed_char_platform)
           (H0 := fixture_headers) idle_readers (mkFILE [] 0) 4 2
           [7; 8; 0; 0; 0; 0] (replicate 6 0) 0 tt);
    try (simpl; lia); discriminate.
Defined.

(** ** The attitude recovery, slot by slot *)

Section AttitudeFacts.
Context `{Headers}.

Lemma tag_missing_level_attitude_loop_lookup menv : forall new_beh i mon,
  menv !! i = Some mon ->
  exists new_beh',
    tag_missing_level_attitude_loop new_beh menv !! i
    = Some (snd (tag_missing_level_attitude_body new_beh' mon)).
Proof.
  induction menv as [| m menv IH]; intros new_beh i mon Hi; [discriminate |].
  cbn [tag_missing_level_attitude_loop].
  destruct (tag_missing_level_attitude_body new_beh m) as [nb m'] eqn:Hb.
  destruct i as [| i]; simpl in Hi |- *.
  - injection Hi as ->. exists new_beh. rewrite Hb. reflexivity.
  - apply IH. exact Hi.
Qed.

Lemma length_tag_missing_level_attitude_loop menv : forall new_beh,
  length (tag_missing_level_attitude_loop new_beh menv) = length menv.
Proof.
  induction menv as [| m menv IH]; intros new_beh; [reflexivity |].
  cbn [tag_missing_level_attitude_loop].
  destruct (tag_missing_level_attitude_body new_beh m). simpl.
  rewrite IH. reflexivity.
Qed.

(** X13.  The recovery leaves the table its size and the empty slots (type below
    0) as they are.  Every other slot keeps its type, flags and enchantments,
    gets the foe [MHITNOT] and foe memory 0, is friendly exactly when it
    carries the created-friendly flag or has legacy code 7 without a charm
    enchantment, and gets the behaviour of the table for the legacy codes
    0, 1, 3, 6 and 10 -- all of this whatever the other slots hold. *)
Theorem tag_missing_level_attitude_slot menv i mon :
  menv !! i = Some mon ->
  length (tag_missing_level_attitude menv) = length menv
  /\ exists mon',
       tag_missing_level_attitude menv !! i = Some mon'
       /\ (type mon < 0 -> mon' = mon)
       /\ (0 <= type mon ->
           type mon' = type mon /\ flags mon' = flags mon
           /\ enchantments mon' = enchantments mon
           /\ foe mon' = MHITNOT /\ foe_memory mon' = 0
           /\ attitude mon'
              = (if testbits (flags mon) MF_CREATED_FRIENDLY
                    || (behaviour mon =? 7) && negb (has_ench mon ENCH_CHARM)
                 then ATT_FRIENDLY else ATT_HOSTILE)
           /\ (behaviour mon = 0 -> behaviour mon' = BEH_SLEEP)
           /\ (behaviour mon = 3 \/ behaviour mon = 10 ->
               behaviour mon' = BEH_FLEE)
           /\ (behaviour mon = 1 \/ behaviour mon = 6 ->
               behaviour mon' = BEH_SEEK)).
Proof.
  intros Hi. split; [apply length_tag_missing_level_attitude_loop |].
  destruct (tag_missing_level_attitude_loop_lookup menv BEH_WANDER i mon Hi)
    as [nb Hlook].
  unfold tag_missing_level_attitude. rewrite Hlook.
  eexists. split; [reflexivity |]. split.
  - intros Hneg. unfold tag_missing_level_attitude_body.
    destruct (Z.ltb_spec (type mon) 0); [reflexivity | lia].
  - intros Hpos.
    pose proof (tag_missing_level_attitude_body_spec nb mon Hpos) as Hspec.
    destruct (tag_missing_level_attitude_body nb mon) as [nb' mon'] eqn:Hb.
    destruct Hspec as (Hfoe & Hmem & Hatt & Hbeh & Hnb).
    cbn [snd].
    assert (Hsame : type mon' = type mon /\ flags mon' = flags mon
                    /\ enchantments mon' = enchantments mon).
    { unfold tag_missing_level_attitude_body in Hb.
      destruct (Z.ltb_spec (type mon) 0); [lia |].
      destruct (if behaviour mon =? 0 then _ else _) as [? ?].
      injection Hb as _ <-. auto. }
    destruct Hsame as (Ht & Hf & He).
    repeat split; try assumption.
    + intros H0. rewrite Hbeh, Hnb, H0. reflexivity.
    + intros [H3 | H10]; rewrite Hbeh, Hnb; [rewrite H3 | rewrite H10];
        reflexivity.
    + intros [H1 | H6]; rewrite Hbeh, Hnb; [rewrite H1 | rewrite H6];
        reflexivity.
Qed.

End AttitudeFacts.

Lemma tag_missing_level_attitude_slot_witness :
  length (tag_missing_level_attitude (H := fixture_headers)
            [mkMonster (-1) 0 0 0 0 0 []; mkMonster 5 1 3 9 9 9 []])
  = 2%nat.
Proof.
  apply (tag_missing_level_attitude_slot (H := fixture_headers)
           [mkMonster (-1) 0 0 0 0 0 []; mkMonster 5 1 3 9 9 9 []]
           1 (mkMonster 5 1 3 9 9 9 []) eq_refl).
Defined.

(** ** The attitude tag *)

Section AttitudeTagFacts.
Context `{Platform}.

Lemma writes_tag_construct_level_attitude menv :
  writes (tag_construct_level_attitude menv)
    (big_endian 2 (Z.of_nat (length menv)) ++ attitude_bytes menv).
Proof.
  unfold tag_construct_level_attitude.
  apply writes_bind; [apply writes_marshallShort |].
  unfold attitude_bytes. rewrite flat_map_concat_map.
  apply (writes_for_each
           (fun mon => marshallByte (attitude mon) ;; marshallShort (foe mon))
           (fun mon => to_uchar (attitude mon) :: big_endian 2 (foe mon))).
  intros mon _.
  apply (writes_bind _ _ [_]);
    [apply writes_marshallByte | apply writes_marshallShort].
Qed.

Lemma length_overlay_attitudes src : forall i menv,
  length (overlay_attitudes i src menv) = length menv.
Proof.
  induction src as [| mon src IH]; intros i menv; [reflexivity |].
  cbn [overlay_attitudes]. rewrite IH, length_alter. reflexivity.
Qed.

Lemma lookup_overlay_attitudes src : forall i menv j,
  overlay_attitudes i src menv !! j
  = match src !! (j - i)%nat with
    | Some mon =>
        if (i <=? j)%nat
        then (fun slot => set_foe (to_short (foe mon))
                            (set_attitude (to_char (attitude mon)) slot))
               <$> menv !! j
        else menv !! j
    | None => menv !! j
    end.
Proof.
  induction src as [| mon src IH]; intros i menv j.
  - cbn [overlay_attitudes]. rewrite lookup_nil. reflexivity.
  - cbn [overlay_attitudes]. rewrite IH.
    destruct (Nat.eq_dec i j) as [-> | Hne].
    + rewrite Nat.sub_diag.
      replace (j - S j)%nat with 0%nat by lia.
      destruct (Nat.leb_spec (S j) j); [lia |].
      destruct (Nat.leb_spec j j); [| lia].
      change ((mon :: src) !! 0%nat) with (Some mon).
      destruct (src !! 0%nat); apply list_lookup_alter_eq.
    + rewrite list_lookup_alter_ne by lia.
      destruct (Nat.leb_spec i j) as [Hle | Hgt].
      * replace (j - i)%nat with (S (j - S i)) by lia.
        change ((mon :: src) !! S (j - S i)) with (src !! (j - S i)%nat).
        destruct (Nat.leb_spec (S i) j); [reflexivity | lia].
      * replace (j - S i)%nat with 0%nat by lia.
        replace (j - i)%nat with 0%nat by lia.
        destruct (Nat.leb_spec (S i) j); [lia |].
        change ((mon :: src) !! 0%nat) with (Some mon).
        destruct (src !! 0%nat); reflexivity.
Qed.

Lemma reads_tag_read_level_attitude_loop src : forall i menv,
  (i + length src <= length menv)%nat ->
  reads (tag_read_level_attitude_loop
           (seqZ (Z.of_nat i) (Z.of_nat (length src))) menv)
    (attitude_bytes src) (Some (overlay_attitudes i src menv)).
Proof.
  induction src as [| mon src IH]; intros i menv Hfit.
  - apply (reads_ret (Some menv)).
  - rewrite length_cons, Nat2Z.inj_succ in *.
    rewrite seqZ_cons, Z.pred_succ by lia.
    cbn [tag_read_level_attitude_loop overlay_attitudes].
    unfold in_array.
    destruct (Z.leb_spec 0 (Z.of_nat i)); [| lia].
    destruct (Z.ltb_spec (Z.of_nat i) (Z.of_nat (length menv))); [| lia].
    cbn [andb]. unfold attitude_bytes. cbn [flat_map].
    fold (attitude_bytes src).
    apply (reads_bind _ _ [to_uchar (attitude mon)]
             (big_endian 2 (foe mon) ++ attitude_bytes src)
             (to_char (to_uchar (to_uchar (attitude mon))))).
    { apply reads_unmarshallByte. }
    eapply reads_bind; [apply reads_unmarshallShort |].
    rewrite to_char_byte, Nat2Z.id.
    replace (Z.succ (Z.of_nat i)) with (Z.of_nat (S i)) by lia.
    apply IH. rewrite length_alter. lia.
Qed.

(** X14.  The attitude tag holds the number of monsters and, for each, the
    attitude byte and the foe as a short.  Read into a table with at least as
    many slots, it sets attitude and foe of the first slots -- reduced to
    [char] and short -- and leaves everything else in the table as it was,
    the slots beyond the stored count included. *)
Theorem attitude_tag_round_trip menv menv0 id o buf :
  Z.of_nat (length menv) <= 32767 -> (length menv <= length menv0)%nat ->
  let bytes := big_endian 2 (Z.of_nat (length menv)) ++ attitude_bytes menv in
  let buf' := splice o bytes buf in
  let o' := o + Z.of_nat (length bytes) in
  0 <= o -> o' <= Z.of_nat (length buf) ->
  tag_construct_level_attitude menv (record_at id o buf)
  = Ok (tt, record_at id o' buf')
  /\ exists menv',
       tag_read_level_attitude_menv menv0 (record_at id o buf')
       = Ok (Some menv', record_at id o' buf')
       /\ length menv' = length menv0
       /\ forall j slot, menv0 !! j = Some slot ->
            menv' !! j
            = Some (match menv !! j with
                    | Some mon =>
                        set_foe (to_short (foe mon))
                          (set_attitude (to_char (attitude mon)) slot)
                    | None => slot
                    end).
Proof.
  intros Hshort Hfit bytes buf' o' Ho Hroom.
  assert (Hr : reads (tag_read_level_attitude_menv menv0) bytes
                 (Some (overlay_attitudes 0 menv menv0))).
  { unfold tag_read_level_attitude_menv, bytes.
    eapply reads_bind; [apply reads_unmarshallShort |].
    rewrite to_short_small by lia.
    apply (reads_tag_read_level_attitude_loop menv 0 menv0). lia. }
  destruct (writes_reads_round_trip _ _ bytes _ id o buf
              (writes_tag_construct_level_attitude menv) Hr Ho Hroom)
    as [Hw Hrd].
  split; [exact Hw |].
  exists (overlay_attitudes 0 menv menv0).
  split; [exact Hrd |]. split; [apply length_overlay_attitudes |].
  intros j slot Hj. rewrite lookup_overlay_attitudes, Nat.sub_0_r, Hj.
  destruct (menv !! j); reflexivity.
Qed.

Lemma reads_tag_read_level_attitude_overrun src : forall i n menv,
  (i + length src = length menv)%nat -> Z.of_nat (length src) < n ->
  reads (tag_read_level_attitude_loop (seqZ (Z.of_nat i) n) menv)
    (attitude_bytes src) None.
Proof.
  induction src as [| mon src IH]; intros i n menv Hfit Hn.
  - rewrite seqZ_cons by (simpl in Hn; lia).
    cbn [tag_read_level_attitude_loop]. unfold in_array.
    destruct (Z.ltb_spec (Z.of_nat i) (Z.of_nat (length menv)));
      [simpl in Hfit; lia |].
    rewrite andb_false_r. apply (reads_ret None).
  - rewrite length_cons, Nat2Z.inj_succ in *.
    rewrite seqZ_cons by lia.
    cbn [tag_read_level_attitude_loop]. unfold in_array.
    destruct (Z.leb_spec 0 (Z.of_nat i)); [| lia].
    destruct (Z.ltb_spec (Z.of_nat i) (Z.of_nat (length menv))); [| lia].
    cbn [andb]. unfold attitude_bytes. cbn [flat_map].
    fold (attitude_bytes src).
    apply (reads_bind _ _ [to_uchar (attitude mon)]
             (big_endian 2 (foe mon) ++ attitude_bytes src)
             (to_char (to_uchar (to_uchar (attitude mon))))).
    { apply reads_unmarshallByte. }
    eapply reads_bind; [apply reads_unmarshallShort |].
    replace (Z.succ (Z.of_nat i)) with (Z.of_nat (S i)) by lia.
    apply IH; [rewrite length_alter; lia | lia].
Qed.

Lemma length_attitude_bytes menv :
  length (attitude_bytes menv) = (3 * length menv)%nat.
Proof.
  induction menv as [| mon menv IH]; [reflexivity |].
  unfold attitude_bytes in *. cbn [flat_map].
  rewrite length_app, IH. simpl. lia.
Qed.

(** X15.  The stored count is not checked against the table. A tag written from
    a table with more slots than the one it is read into fills every slot and
    then goes on to the slot behind the last one, which C leaves undefined. *)
Theorem attitude_tag_count_beyond_table menv menv0 id o buf :
  Z.of_nat (length menv) <= 32767 -> (length menv0 < length menv)%nat ->
  let bytes := big_endian 2 (Z.of_nat (length menv)) ++ attitude_bytes menv in
  let buf' := splice o bytes buf in
  0 <= o -> o + Z.of_nat (length bytes) <= Z.of_nat (length buf) ->
  tag_read_level_attitude_menv menv0 (record_at id o buf')
  = Ok (None, record_at id (o + 2 + 3 * Z.of_nat (length menv0)) buf').
Proof.
  intros Hshort Hless bytes buf' Ho Hroom.
  set (k := length menv0).
  assert (Hr : reads (tag_read_level_attitude_menv menv0)
                 (big_endian 2 (Z.of_nat (length menv))
                    ++ attitude_bytes (take k menv)) None).
  { unfold tag_read_level_attitude_menv.
    eapply reads_bind; [apply reads_unmarshallShort |].
    rewrite to_short_small by lia.
    apply (reads_tag_read_level_attitude_overrun (take k menv) 0).
    - rewrite length_take. lia.
    - rewrite length_take. lia. }
  assert (Hlen : length (big_endian 2 (Z.of_nat (length menv))
                           ++ attitude_bytes (take k menv))
                 = (2 + 3 * k)%nat).
  { rewrite length_app, length_attitude_bytes, length_take.
    change (length (big_endian 2 _)) with 2%nat. lia. }
  rewrite (Hr id o buf' Ho).
  - rewrite Hlen. f_equal. f_equal. unfold record_at. f_equal. f_equal. lia.
  - set (A := big_endian 2 (Z.of_nat (length menv))
                ++ attitude_bytes (take k menv)) in *.
    set (B := attitude_bytes (drop k menv)).
    assert (Hsplit : bytes = A ++ B).
    { unfold bytes, A, B, attitude_bytes.
      rewrite <- app_assoc, <- flat_map_app, take_drop. reflexivity. }
    assert (Hall : take (length bytes) (drop (Z.to_nat o) buf') = bytes)
      by (apply take_drop_splice; assumption).
    rewrite Hsplit in Hall.
    replace (take (length A) (drop (Z.to_nat o) buf'))
      with (take (length A) (take (length (A ++ B)) (drop (Z.to_nat o) buf'))).
    + rewrite Hall. apply take_app_length.
    + rewrite take_take. f_equal. rewrite length_app. lia.
Qed.

End AttitudeTagFacts.

Lemma attitude_tag_round_trip_witness :
  tag_construct_level_attitude (H := signed_char_platform)
    [mkMonster 1 0 0 1 201 0 []] (record_at 8 0 (replicate 6 0))
  = Ok (tt, record_at 8 5 [0; 1; 1; 0; 201; 0]).
Proof.
  destruct (attitude_tag_round_trip (H := signed_char_platform)
              [mkMonster 1 0 0 1 201 0 []]
              [mkMonster 2 0 0 0 0 0 []; mkMonster 3 0 0 0 0 0 []]
              8 0 (replicate 6 0)
              ltac:(simpl; lia) ltac:(simpl; lia) ltac:(lia)
              ltac:(simpl; lia)) as [Hw _].
  exact Hw.
Defined.

Lemma attitude_tag_count_beyond_table_witness :
  tag_read_level_attitude_menv (H := signed_char_platform)
    [mkMonster 2 0 0 0 0 0 []]
    (record_at 8 0 [0; 2; 1; 0; 201; 0; 0; 7; 0])
  = Ok (None, record_at 8 5 [0; 2; 1; 0; 201; 0; 0; 7; 0]).
Proof.
  apply (attitude_tag_count_beyond_table (H := signed_char_platform)
           [mkMonster 1 0 0 1 201 0 []; mkMonster 1 0 0 0 7 0 []]
           [mkMonster 2 0 0 0 0 0 []] 8 0 (replicate 9 0));
    simpl; lia.
Defined.

(** ** Ghosts *)

Lemma string_of_chars_c_str nm :
  string_of_chars (c_str nm) = string_of_chars nm.
Proof.
  unfold c_str. induction nm as [| c nm IH]; [reflexivity |].
  cbn [app string_of_chars]. rewrite IH. reflexivity.
Qed.

Lemma string_of_chars_no_nul nm :
  Forall (fun c => c <> 0) nm -> string_of_chars nm = nm.
Proof.
  induction 1 as [| c nm Hc _ IH]; [reflexivity |].
  cbn [string_of_chars]. destruct (Z.eqb_spec c 0); [contradiction |].
  rewrite IH. reflexivity.
Qed.

Lemma length_string_of_chars nm :
  (length (string_of_chars nm) <= length nm)%nat.
Proof.
  induction nm as [| c nm IH]; [reflexivity |].
  cbn [string_of_chars]. destruct (c =? 0); simpl; lia.
Qed.

Lemma loaded_values vals :
  map (fun i => default 0 (vals !! Z.to_nat i))
      (seqZ 0 (Z.of_nat (length vals)))
  = vals.
Proof.
  apply list_eq. intros i. rewrite list_lookup_fmap.
  destruct (vals !! i) as [v |] eqn:Hv.
  - pose proof (lookup_lt_Some _ _ _ Hv).
    rewrite (lookup_seqZ_lt _ _ i) by lia. simpl.
    replace (Z.to_nat (0 + Z.of_nat i)) with i by lia.
    rewrite Hv. reflexivity.
  - pose proof (lookup_ge_None_1 _ _ Hv).
    rewrite lookup_seqZ_ge by lia. reflexivity.
Qed.

Lemma map_to_short_small vs :
  Forall (fun v => -32768 <= v <= 32767) vs -> map to_short vs = vs.
Proof.
  induction 1 as [| v vs Hv _ IH]; [reflexivity |].
  cbn [map]. rewrite to_short_small by assumption. rewrite IH. reflexivity.
Qed.

Section GhostFacts.
Context `{Platform} `{Headers}.
Variable MAX_GHOSTS : Z.

Lemma writes_ghost_values vals :
  writes (for_each (fun _ i => v <- load_value vals i ;; marshallShort v)
            tt (seqZ 0 (Z.of_nat (length vals))))
    (concat (map (big_endian 2) vals)).
Proof.
  replace (concat (map (big_endian 2) vals))
    with (concat (map (fun i => big_endian 2 (default 0 (vals !! Z.to_nat i)))
                    (seqZ 0 (Z.of_nat (length vals)))))
    by (rewrite <- (map_map _ (big_endian 2)), loaded_values; reflexivity).
  apply (writes_for_each
           (fun i => v <- load_value vals i ;; marshallShort v)
           (fun i => big_endian 2 (default 0 (vals !! Z.to_nat i)))).
  intros i Hi. apply elem_of_seqZ in Hi.
  intros id o buf Ho Hroom.
  unfold load_value, in_buffer.
  destruct (Z.leb_spec 0 i); [| lia].
  destruct (Z.ltb_spec i (Z.of_nat (length vals))); [| lia].
  cbn [andb]. unfold bind at 1, ret.
  apply writes_marshallShort; assumption.
Qed.

Lemma writes_marshallGhost ghost :
  ghost_wf ghost -> writes (marshallGhost ghost) (ghost_bytes ghost).
Proof.
  intros (Hvals & _ & Hname). unfold marshallGhost, ghost_bytes.
  rewrite string_of_chars_c_str.
  pose proof (length_string_of_chars (name ghost)) as Hle.
  apply writes_bind.
  { replace (take 20 (string_of_chars (name ghost)))
      with (take (Z.to_nat (stored_length (string_of_chars (name ghost)) 20))
              (string_of_chars (name ghost))).
    - apply writes_marshallString. lia.
    - unfold stored_length. cbn [Z.ltb Z.compare andb].
      destruct (Z.ltb_spec 20 (Z.of_nat (length (string_of_chars (name ghost))))).
      + reflexivity.
      + rewrite !take_ge by lia. reflexivity. }
  apply writes_bind; [apply writes_marshallByte |].
  rewrite <- Hvals. apply writes_ghost_values.
Qed.

Lemma reads_ghost_values fresh_vals vs :
  length fresh_vals = length vs ->
  reads (for_each unmarshallGhost_body fresh_vals
           (seqZ 0 (Z.of_nat (length vs))))
    (concat (map (big_endian 2) vs)) (map to_short vs).
Proof.
  intros Hlen id o buf Ho Hat.
  assert (Hbytes : length (concat (map (big_endian 2) vs))
                   = (2 * length vs)%nat).
  { clear. induction vs as [| v vs IH]; [reflexivity |].
    cbn [map concat]. rewrite length_app, IH. simpl. lia. }
  rewrite Hbytes in *.
  rewrite (ghost_fill_record id vs fresh_vals o 0 buf) by (try lia; exact Hat).
  f_equal. f_equal.
  - rewrite drop_ge by (simpl; lia). rewrite app_nil_r. reflexivity.
  - unfold record_at. f_equal. f_equal. lia.
Qed.

Lemma reads_unmarshallGhost fresh ghost :
  ghost_wf ghost -> length (values fresh) = length (values ghost) ->
  reads (unmarshallGhost fresh) (ghost_bytes ghost) (ghost_read_back ghost).
Proof.
  intros (Hvals & Hbyte & _) Hfresh. unfold unmarshallGhost, ghost_bytes.
  set (nm := string_of_chars (name ghost)).
  assert (Hstored : 0 <= stored_length nm 20 <= 20
                    /\ Z.to_nat (stored_length nm 20)
                       = length (take 20 nm)).
  { unfold stored_length. cbn [Z.ltb Z.compare andb]. rewrite length_take.
    destruct (Z.ltb_spec 20 (Z.of_nat (length nm))); lia. }
  destruct Hstored as [Hrange Hstored].
  eapply reads_bind.
  { apply (reads_unmarshallString 20 (stored_length nm 20) (take 20 nm));
      lia. }
  assert (Hcount : to_char (to_uchar (to_uchar NUM_GHOST_VALUES))
                   = NUM_GHOST_VALUES).
  { rewrite to_char_byte. unfold to_char, to_schar, to_uchar.
    destruct char_signed; Z.div_mod_to_equations; lia. }
  eapply reads_bind; [apply reads_unmarshallByte |].
  rewrite Hcount, Z.ltb_irrefl, <- Hvals.
  rewrite <- (app_nil_r (concat _)).
  eapply reads_bind; [apply reads_ghost_values; exact Hfresh |].
  unfold ghost_read_back. fold nm.
  replace (take (Z.to_nat (copy_length (stored_length nm 20) 20)) (take 20 nm))
    with (read_back 20 nm); [apply reads_ret |].
  rewrite <- (read_back_stored 20 nm) by lia.
  f_equal. rewrite Hstored, length_take.
  destruct (Nat.le_ge_cases (length nm) 20).
  - rewrite Nat.min_r, !take_ge by lia. reflexivity.
  - rewrite Nat.min_l by lia. reflexivity.
Qed.

(** X16.  [marshallGhost] writes the name up to its first NUL, cut to 20 chars,
    the number of values and the values; [unmarshallGhost] on these bytes
    returns the ghost with the first 19 chars of that name and its values
    reduced to 16 bits. A ghost with a name of fewer than 20 chars, none of them
    NUL, and values that are shorts comes back unchanged. *)
Theorem ghost_round_trip fresh ghost id o buf :
  ghost_wf ghost -> length (values fresh) = length (values ghost) ->
  let buf' := splice o (ghost_bytes ghost) buf in
  let o' := o + Z.of_nat (length (ghost_bytes ghost)) in
  0 <= o -> o' <= Z.of_nat (length buf) ->
  marshallGhost ghost (record_at id o buf) = Ok (tt, record_at id o' buf')
  /\ unmarshallGhost fresh (record_at id o buf')
     = Ok (ghost_read_back ghost, record_at id o' buf')
  /\ (Z.of_nat (length (name ghost)) < 20 ->
      Forall (fun c => c <> 0) (name ghost) ->
      Forall (fun v => -32768 <= v <= 32767) (values ghost) ->
      ghost_read_back ghost = ghost).
Proof.
  intros Hwf Hfresh buf' o' Ho Hroom.
  destruct (writes_reads_round_trip _ _ (ghost_bytes ghost) _ id o buf
              (writes_marshallGhost ghost Hwf)
              (reads_unmarshallGhost fresh ghost Hwf Hfresh) Ho Hroom)
    as [Hw Hr].
  split; [exact Hw |]. split; [exact Hr |].
  intros Hname Hnul Hshort. unfold ghost_read_back, read_back.
  rewrite string_of_chars_no_nul by assumption.
  rewrite take_ge by lia.
  rewrite map_to_short_small by assumption.
  destruct ghost; reflexivity.
Qed.

Lemma writes_tag_construct_ghost ghosts :
  Forall ghost_wf ghosts ->
  writes (tag_construct_ghost ghosts)
    (big_endian 2 (Z.of_nat (length ghosts))
       ++ concat (map ghost_bytes ghosts)).
Proof.
  intros Hwf. unfold tag_construct_ghost.
  apply writes_bind; [apply writes_marshallShort |].
  apply writes_for_each. intros g Hg. apply writes_marshallGhost.
  rewrite Forall_forall in Hwf. apply Hwf. exact Hg.
Qed.

Lemma reads_tag_read_ghost_list fresh minorVersion old ghosts :
  Forall ghost_wf ghosts ->
  Forall (fun g => length (values fresh) = length (values g)) ghosts ->
  1 <= Z.of_nat (length ghosts) <= MAX_GHOSTS -> MAX_GHOSTS <= 32767 ->
  reads (tag_read_ghost_list MAX_GHOSTS fresh minorVersion old)
    (big_endian 2 (Z.of_nat (length ghosts))
       ++ concat (map ghost_bytes ghosts))
    (old ++ map ghost_read_back ghosts).
Proof.
  intros Hwf Hfresh Hcount Hmax. unfold tag_read_ghost_list.
  eapply reads_bind; [apply reads_unmarshallShort |].
  rewrite to_short_small by lia.
  destruct (Z.ltb_spec (Z.of_nat (length ghosts)) 1); [lia |].
  destruct (Z.ltb_spec MAX_GHOSTS (Z.of_nat (length ghosts))); [lia |].
  cbn [orb]. rewrite Nat2Z.id.
  apply reads_push_back_each. intros g Hg.
  rewrite Forall_forall in Hwf, Hfresh.
  apply reads_unmarshallGhost; [apply Hwf | apply Hfresh]; exact Hg.
Qed.

(** X17.  Between one and [MAX_GHOSTS] ghosts written by [tag_construct_ghost]
    are appended by [tag_read_ghost] to the ghosts already held, in the order
    they were written, each as [unmarshallGhost] returns it. *)
Theorem ghost_tag_round_trip fresh minorVersion old ghosts id o buf :
  Forall ghost_wf ghosts ->
  Forall (fun g => length (values fresh) = length (values g)) ghosts ->
  1 <= Z.of_nat (length ghosts) <= MAX_GHOSTS -> MAX_GHOSTS <= 32767 ->
  let bytes := big_endian 2 (Z.of_nat (length ghosts))
                 ++ concat (map ghost_bytes ghosts) in
  let buf' := splice o bytes buf in
  let o' := o + Z.of_nat (length bytes) in
  0 <= o -> o' <= Z.of_nat (length buf) ->
  tag_construct_ghost ghosts (record_at id o buf)
  = Ok (tt, record_at id o' buf')
  /\ tag_read_ghost_list MAX_GHOSTS fresh minorVersion old
       (record_at id o buf')
     = Ok (old ++ map ghost_read_back ghosts, record_at id o' buf').
Proof.
  intros Hwf Hfresh Hcount Hmax bytes buf' o' Ho Hroom.
  apply (writes_reads_round_trip _ _ bytes _ id o buf); try assumption.
  - apply writes_tag_construct_ghost. exact Hwf.
  - apply reads_tag_read_ghost_list; assumption.
Qed.

(** X18.  A ghost tag whose count is below 1 or above [MAX_GHOSTS] is left after
    its count: [tag_read_ghost] adds no ghost and reads none of the ghosts
    that follow the count. *)
Theorem tag_read_ghost_count_out_of_range fresh minorVersion old count
    id o buf :
  to_short count < 1 \/ MAX_GHOSTS < to_short count ->
  0 <= o -> take 2 (drop (Z.to_nat o) buf) = big_endian 2 count ->
  tag_read_ghost_list MAX_GHOSTS fresh minorVersion old (record_at id o buf)
  = Ok (old, record_at id (o + 2) buf).
Proof.
  intros Hcount Ho Hat.
  assert (Hr : reads (tag_read_ghost_list MAX_GHOSTS fresh minorVersion old)
                 (big_endian 2 count) old).
  { unfold tag_read_ghost_list.
    rewrite <- (app_nil_r (big_endian 2 count)).
    eapply reads_bind; [apply reads_unmarshallShort |].
    destruct (Z.ltb_spec (to_short count) 1);
      [apply reads_ret |].
    destruct (Z.ltb_spec MAX_GHOSTS (to_short count)); [| lia].
    apply reads_ret. }
  apply (Hr id o buf Ho Hat).
Qed.

End GhostFacts.

Lemma ghost_round_trip_witness :
  let ghost := mkGhost [66; 111; 98] (seqZ 1 21) in
  unmarshallGhost (H := signed_char_platform) (H0 := fixture_headers)
    (mkGhost [] (replicate 21 0))
    (record_at 7 0
       (splice 0 (ghost_bytes (H := fixture_headers) ghost) (replicate 48 0)))
  = Ok (ghost,
        record_at 7 48
          (splice 0 (ghost_bytes (H := fixture_headers) ghost)
             (replicate 48 0))).
Proof.
  intros ghost.
  destruct (ghost_round_trip (H := signed_char_platform)
              (H0 := fixture_headers)
              (mkGhost [] (replicate 21 0)) ghost 7 0 (replicate 48 0)
              ltac:(unfold ghost_wf; simpl; lia) ltac:(reflexivity)
              ltac:(lia) ltac:(simpl; lia)) as (_ & Hr & Hsame).
  rewrite Hsame in Hr.
  - exact Hr.
  - simpl. lia.
  - repeat constructor; discriminate.
  - repeat constructor; simpl; lia.
Defined.

Lemma ghost_tag_round_trip_witness :
  let ghost := mkGhost [66; 111; 98] (seqZ 1 21) in
  let bytes := [0; 1] ++ ghost_bytes (H := fixture_headers) ghost in
  tag_read_ghost_list (H := signed_char_platform) (H0 := fixture_headers) 10
    (mkGhost [] (replicate 21 0)) 0 [] (record_at 7 0 bytes)
  = Ok ([ghost], record_at 7 50 bytes).
Proof.
  intros ghost bytes.
  destruct (ghost_tag_round_trip (H := signed_char_platform)
              (H0 := fixture_headers) 10
              (mkGhost [] (replicate 21 0)) 0 [] [ghost] 7 0 (replicate 50 0)
              ltac:(repeat constructor; simpl; lia)
              ltac:(repeat constructor)
              ltac:(simpl; lia) ltac:(lia) ltac:(lia) ltac:(simpl; lia))
    as [_ Hr].
  exact Hr.
Defined.

Lemma tag_read_ghost_count_out_of_range_witness :
  tag_read_ghost_list (H := signed_char_platform) (H0 := fixture_headers) 10
    (mkGhost [] (replicate 21 0)) 0 [] (record_at 7 0 [0; 11; 0; 3; 66])
  = Ok ([], record_at 7 2 [0; 11; 0; 3; 66]).
Proof.
  apply (tag_read_ghost_count_out_of_range (H := signed_char_platform)
           (H0 := fixture_headers) 10
           (mkGhost [] (replicate 21 0)) 0 [] 11 7 0 [0; 11; 0; 3; 66]).
  - right. vm_compute. reflexivity.
  - lia.
  - reflexivity.
Defined.

(** ** Run lengths: the shape of what is written *)

Lemma rle_pairs_head cs : forall last nlast,
  0 <= nlast ->
  exists n rest, rle_pairs cs last nlast
                 = (n, if nlast =? 0 then default last (head cs) else last)
                     :: rest.
Proof.
  induction cs as [| c cs IH]; intros last nlast Hn.
  - exists nlast, []. cbn [rle_pairs head default].
    destruct (nlast =? 0); reflexivity.
  - cbn [rle_pairs head default].
    set (last' := if nlast =? 0 then c else last).
    destruct ((last' =? c) && (nlast <? 255)) eqn:Hsame.
    + destruct (IH last' (nlast + 1) ltac:(lia)) as (n & rest & ->).
      exists n, rest.
      destruct (Z.eqb_spec (nlast + 1) 0); [lia | reflexivity].
    + eexists _, _. reflexivity.
Qed.

Lemma rle_pairs_maximal cs : forall last nlast,
  0 <= nlast <= 255 -> maximal_runs (rle_pairs cs last nlast).
Proof.
  induction cs as [| c cs IH]; intros last nlast Hn; [exact I |].
  cbn [rle_pairs].
  set (last' := if nlast =? 0 then c else last).
  destruct ((last' =? c) && (nlast <? 255)) eqn:Hsame.
  - apply andb_true_iff in Hsame as [_ Hlt%Z.ltb_lt]. apply IH. lia.
  - destruct (rle_pairs_head cs c 1 ltac:(lia)) as (n & rest & Hhd).
    pose proof (IH c 1 ltac:(lia)) as Hrest.
    rewrite Hhd in Hrest |- *. cbn [maximal_runs fst snd].
    split; [| exact Hrest].
    change (1 =? 0) with false. cbv iota.
    apply andb_false_iff in Hsame as [Hne%Z.eqb_neq | Hge%Z.ltb_ge].
    + left. exact Hne.
    + right. lia.
Qed.

Section RunLengthShape.
Context `{Platform}.

(** X19.  The encoder never breaks a run of equal cells before it is 255 long:
    of two neighbouring pairs in what it writes, either the values differ or the
    first has the full length. The pairs stand for the cells of the grid in scan
    order and are no more than the cells. *)
Theorem run_length_encode_maximal_runs id o buf (g : grid) width height :
  1 <= width -> 1 <= height ->
  0 <= o -> o + 2 * (width * height) <= Z.of_nat (length buf) ->
  exists pairs,
    run_length_encode marshallByte g width height (record_at id o buf)
    = Ok (tt, record_at id (o + 2 * Z.of_nat (length pairs))
                (splice o (pair_bytes pairs) buf))
    /\ maximal_runs pairs
    /\ expand pairs = cells g width height
    /\ Z.of_nat (length pairs) <= width * height.
Proof.
  intros Hw Hh Ho Hroom.
  set (cs := cells g width height).
  assert (Hcs : Z.of_nat (length cs) = width * height)
    by (apply length_cells; lia).
  assert (Hne : cs <> []).
  { intros Hnil. rewrite Hnil in Hcs. simpl in Hcs. nia. }
  assert (Hlen : (length (rle_pairs cs 0 0) <= length cs)%nat)
    by (apply rle_pairs_length; auto).
  exists (rle_pairs cs 0 0).
  split; [| split; [| split]].
  - change (run_length_encode marshallByte g width height)
      with (run_length_encode_from marshallByte g (0, 0) (scan width height)).
    pose proof (run_length_encode_from_record id g (scan width height)
                  0 0 o buf) as He.
    cbv zeta in He. change (map _ (scan width height)) with cs in He.
    apply He; lia.
  - apply rle_pairs_maximal. lia.
  - rewrite expand_rle_pairs by lia. reflexivity.
  - lia.
Qed.

Lemma scan_empty width height :
  width <= 0 \/ height <= 0 -> scan width height = [].
Proof.
  intros Hempty. unfold scan.
  destruct (Z.le_gt_cases height 0) as [Hh | Hh].
  - rewrite (seqZ_nil 0 height) by lia. reflexivity.
  - rewrite (seqZ_nil 0 width) by lia.
    induction (seqZ 0 height) as [| y l IH]; [reflexivity |].
    rewrite bind_cons, IH. reflexivity.
Qed.

(** X20.  For a grid without cells the two sides disagree: the encoder still
    flushes its initial state, the pair (0, 0), while the decoder, whose loop
    does not run, reads nothing and stays before that pair. *)
Theorem run_length_empty_rectangle id o buf (g g0 : grid) width height fuel :
  -2147483648 <= width * height <= 0 ->
  0 <= o -> o + 2 <= Z.of_nat (length buf) ->
  let buf' := splice o [0; 0] buf in
  run_length_encode marshallByte g width height (record_at id o buf)
  = Ok (tt, record_at id (o + 2) buf')
  /\ run_length_decode unmarshallByte fuel g0 width height
       (record_at id o buf')
     = Ok (g0, record_at id o buf').
Proof.
  intros Hempty Ho Hroom buf'. split.
  - unfold run_length_encode.
    rewrite scan_empty by nia. cbn [for_each].
    unfold bind at 1. unfold ret at 1.
    apply marshall_pair_record; assumption.
  - unfold run_length_decode. rewrite to_int_small by lia.
    destruct fuel; cbn [run_length_decode_from];
      (destruct (Z.ltb_spec 0 (width * height)); [lia | reflexivity]).
Qed.

(** X21.  The decoder does not compare a run with the cells that are left.  A
    first pair whose run exceeds the whole grid is stored in full: the cells
    behind the last row are written as well, and one pair ends the loop. *)
Theorem run_length_decode_overrun id o buf (g0 : grid) width height fuel
    run v :
  1 <= width -> 1 <= height -> width * height < run <= 255 -> is_char v ->
  0 <= o -> take 2 (drop (Z.to_nat o) buf) = [run; to_uchar v] ->
  exists g',
    run_length_decode unmarshallByte (S fuel) g0 width height
      (record_at id o buf)
    = Ok (g', record_at id (o + 2) buf)
    /\ g' 0 height = v
    /\ forall x y, 0 <= x < width -> 0 <= y -> y * width + x < run ->
                   g' x y = v.
Proof.
  intros Hw Hh Hrun Hv Ho Hat.
  exists (store_cells width 0 (replicate (Z.to_nat run) v) g0).
  assert (H1 : buf !! Z.to_nat o = Some run).
  { rewrite <- (Nat.add_0_r (Z.to_nat o)), <- lookup_drop.
    rewrite <- (lookup_take_lt _ 2) by lia. rewrite Hat. reflexivity. }
  assert (H2 : buf !! Z.to_nat (o + 1) = Some (to_uchar v)).
  { replace (Z.to_nat (o + 1)) with (Z.to_nat o + 1)%nat by lia.
    rewrite <- lookup_drop.
    rewrite <- (lookup_take_lt _ 2) by lia. rewrite Hat. reflexivity. }
  assert (Hcells : forall x y, 0 <= x < width -> 0 <= y ->
                     y * width + x < run ->
                     store_cells width 0 (replicate (Z.to_nat run) v) g0 x y
                     = v).
  { intros x y Hx Hy Hin. rewrite store_cells_lookup by lia.
    rewrite length_replicate.
    destruct (Z.leb_spec 0 x); [| lia].
    destruct (Z.ltb_spec x width); [| lia].
    destruct (Z.leb_spec 0 (y * width + x)); [| nia].
    destruct (Z.ltb_spec (y * width + x) (0 + Z.of_nat (Z.to_nat run)));
      [| lia].
    cbn [andb]. rewrite lookup_replicate_2 by lia. reflexivity. }
  split; [| split].
  - unfold run_length_decode. rewrite to_int_small by nia.
    cbn [run_length_decode_from].
    destruct (Z.ltb_spec 0 (width * height)); [| nia].
    rewrite (bind_Ok _ _ _ _ _ (unmarshallByte_record id o buf _ Ho H1)).
    rewrite (bind_Ok _ _ _ _ _
               (unmarshallByte_record id (o + 1) buf _ ltac:(lia) H2)).
    rewrite to_uchar_to_char, !to_uchar_idemp, to_char_to_uchar.
    rewrite !(to_uchar_small run) by lia. rewrite Hv.
    rewrite run_length_fill_store.
    replace (o + 1 + 1) with (o + 2) by lia.
    destruct fuel; cbn [run_length_decode_from];
      (destruct (Z.ltb_spec (0 + Z.of_nat (Z.to_nat run)) (width * height));
       [lia | reflexivity]).
  - apply Hcells; nia.
  - exact Hcells.
Qed.

End RunLengthShape.

Lemma run_length_encode_maximal_runs_witness :
  exists pairs,
    run_length_encode (H := signed_char_platform)
      (marshallByte (H := signed_char_platform)) striped_grid 3 2
      (record_at 4 1 (replicate 16 0))
    = Ok (tt, record_at 4 (1 + 2 * Z.of_nat (length pairs))
                (splice 1 (pair_bytes pairs) (replicate 16 0)))
    /\ maximal_runs pairs
    /\ expand pairs = cells striped_grid 3 2
    /\ Z.of_nat (length pairs) <= 3 * 2.
Proof.
  apply (run_length_encode_maximal_runs (H := signed_char_platform) 4 1
           (replicate 16 0) striped_grid 3 2); simpl; lia.
Defined.

Lemma run_length_empty_rectangle_witness :
  run_length_decode (H := signed_char_platform)
    (unmarshallByte (H := signed_char_platform)) 0 (fun _ _ => 1) 5 0
    (record_at 4 1 [9; 0; 0; 9])
  = Ok (fun _ _ => 1, record_at 4 1 [9; 0; 0; 9]).
Proof.
  destruct (run_length_empty_rectangle (H := signed_char_platform) 4 1
              [9; 9; 9; 9] striped_grid (fun _ _ => 1) 5 0 0
              ltac:(lia) ltac:(lia) ltac:(simpl; lia)) as [_ Hd].
  exact Hd.
Defined.

Lemma run_length_decode_overrun_witness :
  exists g',
    run_length_decode (H := signed_char_platform)
      (unmarshallByte (H := signed_char_platform)) 1 (fun _ _ => 0) 2 2
      (record_at 4 0 [9; 7])
    = Ok (g', record_at 4 2 [9; 7])
    /\ g' 0 2 = 7
    /\ forall x y, 0 <= x < 2 -> 0 <= y -> y * 2 + x < 9 -> g' x y = 7.
Proof.
  apply (run_length_decode_overrun (H := signed_char_platform) 4 0 [9; 7]
           (fun _ _ => 0) 2 2 0 9 7); try lia; reflexivity.
Defined.

(** ** The table of expected tags *)

Section ExpectedFacts.
Context `{Platform} `{Headers} `{FileKinds}.

Lemma tag_set_expected_loop_spec fileType (n : nat) : forall (k : nat) tags,
  (k + n <= length tags)%nat ->
  exists tags',
    tag_set_expected_loop (seqZ (Z.of_nat k) (Z.of_nat n)) tags fileType
    = Some tags'
    /\ length tags' = length tags
    /\ forall i : nat,
         tags' !! i
         = if bool_decide (k <= i < k + n)%nat
           then Some (tag_set_expected_entry fileType (Z.of_nat i))
           else tags !! i.
Proof.
  induction n as [| n IH]; intros k tags Hroom.
  - exists tags. split; [reflexivity |]. split; [reflexivity |].
    intros i. rewrite bool_decide_eq_false_2 by lia. reflexivity.
  - rewrite Nat2Z.inj_succ, seqZ_cons by lia.
    cbn [tag_set_expected_loop]. unfold in_buffer.
    destruct (Z.leb_spec 0 (Z.of_nat k)); [| lia].
    destruct (Z.ltb_spec (Z.of_nat k) (Z.of_nat (length tags))); [| lia].
    cbn [andb]. rewrite Z.pred_succ, Nat2Z.id.
    replace (Z.succ (Z.of_nat k)) with (Z.of_nat (S k)) by lia.
    destruct (IH (S k)
                (<[k := tag_set_expected_entry fileType (Z.of_nat k)]> tags)
                ltac:(rewrite length_insert; lia))
      as (tags' & Hloop & Hlen & Hat).
    exists tags'. split; [exact Hloop |].
    rewrite length_insert in Hlen. split; [exact Hlen |].
    intros i. rewrite Hat.
    destruct (Nat.eq_dec i k) as [-> | Hne].
    + rewrite bool_decide_eq_false_2 by lia.
      rewrite bool_decide_eq_true_2 by lia.
      apply list_lookup_insert_eq. lia.
    + rewrite list_lookup_insert_ne by lia.
      destruct (bool_decide (S k <= i < S k + n)%nat) eqn:Hin.
      * apply bool_decide_eq_true_1 in Hin.
        rewrite bool_decide_eq_true_2 by lia. reflexivity.
      * apply bool_decide_eq_false_1 in Hin.
        rewrite bool_decide_eq_false_2 by lia. reflexivity.
Qed.

Lemma tag_set_expected_loop_overrun fileType (n : nat) : forall (k : nat) tags,
  (k <= length tags < k + n)%nat ->
  tag_set_expected_loop (seqZ (Z.of_nat k) (Z.of_nat n)) tags fileType = None.
Proof.
  induction n as [| n IH]; intros k tags Hroom; [lia |].
  rewrite Nat2Z.inj_succ, seqZ_cons by lia.
  cbn [tag_set_expected_loop]. unfold in_buffer.
  destruct (Z.leb_spec 0 (Z.of_nat k)); [| lia].
  destruct (Z.ltb_spec (Z.of_nat k) (Z.of_nat (length tags)));
    [| reflexivity].
  cbn [andb]. rewrite Z.pred_succ.
  replace (Z.succ (Z.of_nat k)) with (Z.of_nat (S k)) by lia.
  apply IH. rewrite length_insert. lia.
Qed.

(** X22.  [tag_set_expected] sets each of the first [NUM_TAGS] entries of the
    caller's array, whatever it held, to the char 1 or the char -1 and leaves
    the entries behind them alone.  For a file type that is none of the four
    kinds every one of them is the char -1. *)
Theorem tag_set_expected_table tags fileType :
  0 <= NUM_TAGS <= Z.of_nat (length tags) ->
  exists tags',
    tag_set_expected tags fileType = Some tags'
    /\ length tags' = length tags
    /\ (forall i, 0 <= i < NUM_TAGS ->
          tags' !! Z.to_nat i = Some (tag_set_expected_entry fileType i)
          /\ (tag_set_expected_entry fileType i = to_char 1
              \/ tag_set_expected_entry fileType i = to_char (-1)))
    /\ (forall i, NUM_TAGS <= i -> tags' !! Z.to_nat i = tags !! Z.to_nat i)
    /\ (fileType <> TAGTYPE_PLAYER -> fileType <> TAGTYPE_PLAYER_NAME ->
        fileType <> TAGTYPE_LEVEL -> fileType <> TAGTYPE_GHOST ->
        take (Z.to_nat NUM_TAGS) tags'
        = replicate (Z.to_nat NUM_TAGS) (to_char (-1))).
Proof.
  intros Hroom. unfold tag_set_expected.
  destruct (tag_set_expected_loop_spec fileType (Z.to_nat NUM_TAGS) 0 tags
              ltac:(lia)) as (tags' & Hloop & Hlen & Hat).
  rewrite Z2Nat.id in Hloop by lia.
  exists tags'. split; [exact Hloop |]. split; [exact Hlen |].
  split; [| split].
  - intros i Hi. split.
    + rewrite Hat, bool_decide_eq_true_2 by lia.
      rewrite Z2Nat.id by lia. reflexivity.
    + unfold tag_set_expected_entry.
      match goal with |- context [if ?b then 1 else -1] => destruct b end;
        auto.
  - intros i Hi. rewrite Hat, bool_decide_eq_false_2 by lia. reflexivity.
  - intros Hp Hn Hl Hg. apply list_eq. intros i.
    destruct (Nat.lt_ge_cases i (Z.to_nat NUM_TAGS)) as [Hlt | Hge].
    + rewrite lookup_take_lt by lia.
      rewrite Hat, bool_decide_eq_true_2 by lia.
      rewrite lookup_replicate_2 by lia. f_equal.
      unfold tag_set_expected_entry.
      destruct (Z.eqb_spec fileType TAGTYPE_PLAYER); [contradiction |].
      destruct (Z.eqb_spec fileType TAGTYPE_PLAYER_NAME); [contradiction |].
      destruct (Z.eqb_spec fileType TAGTYPE_LEVEL); [contradiction |].
      destruct (Z.eqb_spec fileType TAGTYPE_GHOST); [contradiction |].
      reflexivity.
    + rewrite lookup_take_ge by lia.
      symmetry. apply lookup_replicate_None. lia.
Qed.

(** X23.  The loop does not know the size of the caller's array: with fewer than
    [NUM_TAGS] entries it stores behind the last of them. *)
Theorem tag_set_expected_short_array tags fileType :
  Z.of_nat (length tags) < NUM_TAGS ->
  tag_set_expected tags fileType = None.
Proof.
  intros Hshort. unfold tag_set_expected.
  rewrite <- (Z2Nat.id NUM_TAGS) by lia.
  apply (tag_set_expected_loop_overrun fileType (Z.to_nat NUM_TAGS) 0 tags).
  lia.
Qed.

Lemma tag_set_expected_entry_level i :
  TAGTYPE_LEVEL <> TAGTYPE_PLAYER -> TAGTYPE_LEVEL <> TAGTYPE_PLAYER_NAME ->
  TAG_LEVEL <= i <= TAG_LEVEL_ATTITUDE ->
  tag_set_expected_entry TAGTYPE_LEVEL i = to_char 1 <-> i <> TAG_GHOST.
Proof.
  intros Hlp Hln Hi.
  assert (Hchar : to_char 1 <> to_char (-1)).
  { unfold to_char, to_schar. destruct char_signed; discriminate. }
  unfold tag_set_expected_entry.
  destruct (Z.eqb_spec TAGTYPE_LEVEL TAGTYPE_PLAYER); [contradiction |].
  destruct (Z.eqb_spec TAGTYPE_LEVEL TAGTYPE_PLAYER_NAME); [contradiction |].
  rewrite Z.eqb_refl.
  destruct (Z.leb_spec TAG_LEVEL i); [| lia].
  destruct (Z.leb_spec i TAG_LEVEL_ATTITUDE); [| lia].
  cbn [andb].
  destruct (Z.eqb_spec i TAG_GHOST); cbn [negb]; split; intros; congruence.
Qed.

Lemma tag_set_expected_entry_ghost i :
  TAGTYPE_GHOST <> TAGTYPE_PLAYER -> TAGTYPE_GHOST <> TAGTYPE_PLAYER_NAME ->
  TAGTYPE_GHOST <> TAGTYPE_LEVEL ->
  tag_set_expected_entry TAGTYPE_GHOST i = to_char 1 <-> i = TAG_GHOST.
Proof.
  intros Hgp Hgn Hgl.
  assert (Hchar : to_char 1 <> to_char (-1)).
  { unfold to_char, to_schar. destruct char_signed; discriminate. }
  unfold tag_set_expected_entry.
  destruct (Z.eqb_spec TAGTYPE_GHOST TAGTYPE_PLAYER); [contradiction |].
  destruct (Z.eqb_spec TAGTYPE_GHOST TAGTYPE_PLAYER_NAME); [contradiction |].
  destruct (Z.eqb_spec TAGTYPE_GHOST TAGTYPE_LEVEL); [contradiction |].
  rewrite Z.eqb_refl.
  destruct (Z.eqb_spec i TAG_GHOST); split; intros; congruence.
Qed.

(** X24.  The ghost tag lies between [TAG_LEVEL] and [TAG_LEVEL_ATTITUDE] in the
    enumeration.  In the table of a level file it is the one tag of that
    range that is not marked 1; in the table of a ghost file it is the one
    tag that is. *)
Theorem tag_set_expected_ghost_tag tags :
  TAGTYPE_LEVEL <> TAGTYPE_PLAYER -> TAGTYPE_LEVEL <> TAGTYPE_PLAYER_NAME ->
  TAGTYPE_GHOST <> TAGTYPE_PLAYER -> TAGTYPE_GHOST <> TAGTYPE_PLAYER_NAME ->
  TAGTYPE_GHOST <> TAGTYPE_LEVEL ->
  0 <= TAG_LEVEL <= TAG_LEVEL_ATTITUDE -> TAG_LEVEL_ATTITUDE < NUM_TAGS ->
  NUM_TAGS <= Z.of_nat (length tags) ->
  exists level ghost,
    tag_set_expected tags TAGTYPE_LEVEL = Some level
    /\ tag_set_expected tags TAGTYPE_GHOST = Some ghost
    /\ (forall i, TAG_LEVEL <= i <= TAG_LEVEL_ATTITUDE ->
          level !! Z.to_nat i = Some (to_char 1) <-> i <> TAG_GHOST)
    /\ (forall i, 0 <= i < NUM_TAGS ->
          ghost !! Z.to_nat i = Some (to_char 1) <-> i = TAG_GHOST).
Proof.
  intros Hlp Hln Hgp Hgn Hgl Hfirst Hlast Hroom.
  unfold tag_set_expected.
  destruct (tag_set_expected_loop_spec TAGTYPE_LEVEL (Z.to_nat NUM_TAGS) 0
              tags ltac:(lia)) as (level & Hlevel & _ & Hat_level).
  destruct (tag_set_expected_loop_spec TAGTYPE_GHOST (Z.to_nat NUM_TAGS) 0
              tags ltac:(lia)) as (ghost & Hghost & _ & Hat_ghost).
  rewrite Z2Nat.id in Hlevel, Hghost by lia.
  exists level, ghost.
  split; [exact Hlevel |]. split; [exact Hghost |]. split.
  - intros i Hi. rewrite Hat_level, bool_decide_eq_true_2 by lia.
    rewrite Z2Nat.id by lia.
    rewrite <- (tag_set_expected_entry_level i Hlp Hln Hi).
    split; [intros [= ->]; reflexivity | intros ->; reflexivity].
  - intros i Hi. rewrite Hat_ghost, bool_decide_eq_true_2 by lia.
    rewrite Z2Nat.id by lia.
    rewrite <- (tag_set_expected_entry_ghost i Hgp Hgn Hgl).
    split; [intros [= ->]; reflexivity | intros ->; reflexivity].
Qed.

End ExpectedFacts.

Lemma tag_set_expected_table_witness :
  exists tags',
    tag_set_expected (H := signed_char_platform) (H0 := fixture_headers)
      (H1 := fixture_file_kinds) (replicate 12 0) 2
    = Some tags'
    /\ length tags' = 12%nat
    /\ tags' !! 7%nat = Some 1.
Proof.
  destruct (tag_set_expected_table (H := signed_char_platform)
              (H0 := fixture_headers) (H1 := fixture_file_kinds)
              (replicate 12 0) 2 ltac:(simpl; lia))
    as (tags' & Hset & Hlen & Hat & _).
  exists tags'. split; [exact Hset |]. split; [exact Hlen |].
  destruct (Hat 7 ltac:(simpl; lia)) as [Hseven _]. exact Hseven.
Defined.

Lemma tag_set_expected_short_array_witness :
  tag_set_expected (H := signed_char_platform) (H0 := fixture_headers)
    (H1 := fixture_file_kinds) (replicate 9 0) 1
  = None.
Proof.
  apply (tag_set_expected_short_array (H := signed_char_platform)
           (H0 := fixture_headers) (H1 := fixture_file_kinds)
           (replicate 9 0) 1).
  simpl. lia.
Defined.

Lemma tag_set_expected_ghost_tag_witness :
  exists level ghost,
    tag_set_expected (H := signed_char_platform) (H0 := fixture_headers)
      (H1 := fixture_file_kinds) (replicate 10 0) 1
    = Some level
    /\ tag_set_expected (H := signed_char_platform) (H0 := fixture_headers)
         (H1 := fixture_file_kinds) (replicate 10 0) 2
       = Some ghost
    /\ (forall i, 4 <= i <= 8 -> level !! Z.to_nat i = Some 1 <-> i <> 7)
    /\ (forall i, 0 <= i < 10 -> ghost !! Z.to_nat i = Some 1 <-> i = 7).
Proof.
  apply (tag_set_expected_ghost_tag (H := signed_char_platform)
           (H0 := fixture_headers) (H1 := fixture_file_kinds)
           (replicate 10 0));
    vm_compute; first [reflexivity | discriminate | split; discriminate].
Defined.

(** ** Maps *)

Section MapFacts.
Context `{Platform}.
Context {K V : Type}.
Variable key_lt : K -> K -> bool.
Hypothesis key_lt_irrefl : forall k, key_lt k k = false.
Hypothesis key_lt_trans :
  forall a b c, key_lt a b = true -> key_lt b c = true -> key_lt a c = true.

Lemma key_lt_asym a b : key_lt a b = true -> key_lt b a = false.
Proof.
  intros Hab. destruct (key_lt b a) eqn:Hba; [| reflexivity].
  rewrite <- (key_lt_irrefl a). symmetry. exact (key_lt_trans _ _ _ Hab Hba).
Qed.

(** A key above all the keys of the map goes to the end. *)
Lemma map_insert_last (p : K * V) data :
  Forall (fun q => key_lt (fst q) (fst p) = true) data ->
  map_insert key_lt p data = data ++ [p].
Proof.
  induction 1 as [| q data Hq _ IH]; [reflexivity |].
  cbn [map_insert app]. rewrite (key_lt_asym _ _ Hq), Hq, IH. reflexivity.
Qed.

(** A key that is in the map keeps its value. *)
Lemma map_insert_present (k : K) (v v0 : V) data :
  map_ordered key_lt data -> (k, v0) ∈ data ->
  map_insert key_lt (k, v) data = data.
Proof.
  induction data as [| q data IH]; intros Hord Hin.
  - apply elem_of_nil in Hin. contradiction.
  - destruct Hord as [Hq Hord]. cbn [map_insert fst].
    apply elem_of_cons in Hin as [<- | Hin].
    + cbn [fst]. rewrite key_lt_irrefl. reflexivity.
    + rewrite Forall_forall in Hq. pose proof (Hq _ Hin) as Hlt.
      cbn [fst] in Hlt. rewrite (key_lt_asym _ _ Hlt), Hlt.
      rewrite IH by assumption. reflexivity.
Qed.

Lemma map_ordered_app (l1 l2 : list (K * V)) :
  map_ordered key_lt (l1 ++ l2) ->
  map_ordered key_lt l1
  /\ map_ordered key_lt l2
  /\ forall p q, p ∈ l1 -> q ∈ l2 -> key_lt (fst p) (fst q) = true.
Proof.
  induction l1 as [| a l1 IH]; cbn [app map_ordered].
  - intros Hord. split; [exact I |]. split; [exact Hord |].
    intros p q Hp. apply elem_of_nil in Hp. contradiction.
  - intros [Ha Hord]. destruct (IH Hord) as (H1 & H2 & H12).
    apply Forall_app in Ha as [Ha1 Ha2].
    split; [split; assumption |]. split; [exact H2 |].
    intros p q Hp Hq. apply elem_of_cons in Hp as [-> | Hp].
    + rewrite Forall_forall in Ha2. apply Ha2, Hq.
    + apply H12; assumption.
Qed.

Lemma map_insert_each entries : forall data : list (K * V),
  map_ordered key_lt (data ++ entries) ->
  fold_left (fun d p => map_insert key_lt p d) entries data = data ++ entries.
Proof.
  induction entries as [| p entries IH]; intros data Hord.
  - rewrite app_nil_r. reflexivity.
  - cbn [fold_left].
    destruct (map_ordered_app _ _ Hord) as (_ & _ & Hlt).
    rewrite map_insert_last.
    + rewrite IH; rewrite <- app_assoc; [reflexivity | exact Hord].
    + apply Forall_forall. intros q Hq. apply Hlt; [exact Hq | left].
Qed.

Lemma map_insert_each_present entries : forall data : list (K * V),
  map_ordered key_lt data ->
  Forall (fun p => exists v0, (fst p, v0) ∈ data) entries ->
  fold_left (fun d p => map_insert key_lt p d) entries data = data.
Proof.
  induction entries as [| [k v] entries IH]; intros data Hord Hin;
    [reflexivity |].
  apply Forall_cons in Hin as [[v0 Hk] Hin]. cbn [fold_left].
  rewrite (map_insert_present k v v0) by assumption.
  apply IH; assumption.
Qed.

Section Records.
Variable key_marshall : K -> M unit.
Variable value_marshall : V -> M unit.
Variable key_unmarshall : M K.
Variable value_unmarshall : M V.
Variable key_bytes : K -> list Z.
Variable value_bytes : V -> list Z.


Lemma writes_marshallMap entries :
  Forall (entry_round_trips key_marshall value_marshall key_unmarshall
            value_unmarshall key_bytes value_bytes) entries ->
  writes (marshallMap entries key_marshall value_marshall)
    (map_bytes key_bytes value_bytes entries).
Proof.
  intros Hrt. unfold marshallMap, map_bytes.
  apply writes_bind; [apply writes_marshallLong |].
  apply (writes_for_each
           (fun ci => key_marshall (fst ci) ;; value_marshall (snd ci))
           (fun p => key_bytes (fst p) ++ value_bytes (snd p))).
  intros p Hp. rewrite Forall_forall in Hrt.
  destruct (Hrt p Hp) as (Hwk & Hwv & _).
  apply writes_bind; assumption.
Qed.

Lemma reads_unmarshallMap_loop entries : forall data,
  Forall (entry_round_trips key_marshall value_marshall key_unmarshall
            value_unmarshall key_bytes value_bytes) entries ->
  reads (unmarshallMap_loop key_lt (length entries) data
           key_unmarshall value_unmarshall)
    (concat (map (fun p => key_bytes (fst p) ++ value_bytes (snd p)) entries))
    (fold_left (fun d p => map_insert key_lt p d) entries data).
Proof.
  induction entries as [| [k v] entries IH]; intros data Hrt;
    [apply reads_ret |].
  apply Forall_cons in Hrt as [(_ & _ & Hrk & Hrv) Hrt].
  cbn [length unmarshallMap_loop map concat fold_left fst snd] in *.
  rewrite <- app_assoc.
  eapply reads_bind; [exact Hrk |].
  eapply reads_bind; [exact Hrv |].
  apply IH. exact Hrt.
Qed.

Lemma reads_unmarshallMap entries data :
  Forall (entry_round_trips key_marshall value_marshall key_unmarshall
            value_unmarshall key_bytes value_bytes) entries ->
  Z.of_nat (length entries) <= 2147483647 ->
  reads (unmarshallMap key_lt data key_unmarshall value_unmarshall)
    (map_bytes key_bytes value_bytes entries)
    (fold_left (fun d p => map_insert key_lt p d) entries data).
Proof.
  intros Hrt Hlen. unfold unmarshallMap, map_bytes.
  eapply reads_bind; [apply reads_unmarshallLong |].
  rewrite to_long_to_uint_small, Nat2Z.id by lia.
  apply reads_unmarshallMap_loop. exact Hrt.
Qed.

(** X25.  A map written by [marshallMap] and read by [unmarshallMap] into an
    empty map comes back with the same entries, provided the keys and values in
    it are read back as they were written. Read into a map that holds all of its
    keys already, the same record changes nothing, whatever values it carries:
    [unmarshallMap] does not clear the map, and [insert] does not replace. *)
Theorem map_round_trip entries old id o buf :
  map_ordered key_lt entries -> map_ordered key_lt old ->
  Forall (entry_round_trips key_marshall value_marshall key_unmarshall
            value_unmarshall key_bytes value_bytes) entries ->
  Z.of_nat (length entries) <= 2147483647 ->
  let bytes := map_bytes key_bytes value_bytes entries in
  let buf' := splice o bytes buf in
  let o' := o + Z.of_nat (length bytes) in
  0 <= o -> o' <= Z.of_nat (length buf) ->
  marshallMap entries key_marshall value_marshall (record_at id o buf)
  = Ok (tt, record_at id o' buf')
  /\ unmarshallMap key_lt [] key_unmarshall value_unmarshall
       (record_at id o buf')
     = Ok (entries, record_at id o' buf')
  /\ (Forall (fun p => exists v0, (fst p, v0) ∈ old) entries ->
      unmarshallMap key_lt old key_unmarshall value_unmarshall
        (record_at id o buf')
      = Ok (old, record_at id o' buf')).
Proof.
  intros Hord Hold Hrt Hlen bytes buf' o' Ho Hroom.
  destruct (writes_reads_round_trip _ _ bytes _ id o buf
              (writes_marshallMap entries Hrt)
              (reads_unmarshallMap entries [] Hrt Hlen) Ho Hroom) as [Hw Hr].
  rewrite (map_insert_each entries []) in Hr by exact Hord.
  split; [exact Hw |]. split; [exact Hr |].
  intros Hin.
  rewrite <- (map_insert_each_present entries old Hold Hin) at 2.
  apply (reads_unmarshallMap entries old Hrt Hlen); [exact Ho |].
  apply take_drop_splice; assumption.
Qed.

End Records.
End MapFacts.

(** ** Containers with an inserter *)

Section ContainerFacts.
Context `{Platform}.
Context {C A : Type}.

Lemma reads_unmarshall_container_loop (inserter : C -> A -> C)
    (unmarshal : M A) (enc : A -> list Z) (norm : A -> A) elems :
  (forall a, a ∈ elems -> reads unmarshal (enc a) (norm a)) ->
  forall container,
    reads (unmarshall_container_loop (length elems) container inserter
             unmarshal)
      (concat (map enc elems))
      (fold_left inserter (map norm elems) container).
Proof.
  induction elems as [| a elems IH]; intros Hum container;
    [apply reads_ret |].
  cbn [length unmarshall_container_loop map concat fold_left].
  eapply reads_bind; [apply Hum; left |].
  apply IH. intros b Hb. apply Hum. right. exact Hb.
Qed.

(** X26.  What [marshall_iterator] writes, [unmarshall_container] reads into the
    cleared container, handing the elements to the inserter in the order
    they were written. *)
Theorem container_round_trip (T_marshall : A -> M unit) (unmarshal : M A)
    (enc : A -> list Z) (norm : A -> A) (clear : C -> C)
    (inserter : C -> A -> C) elems container id o buf :
  (forall a, writes (T_marshall a) (enc a)) ->
  (forall a, reads unmarshal (enc a) (norm a)) ->
  Z.of_nat (length elems) <= 2147483647 ->
  let bytes := big_endian 4 (Z.of_nat (length elems))
                 ++ concat (map enc elems) in
  let buf' := splice o bytes buf in
  let o' := o + Z.of_nat (length bytes) in
  0 <= o -> o' <= Z.of_nat (length buf) ->
  marshall_iterator elems T_marshall (record_at id o buf)
  = Ok (tt, record_at id o' buf')
  /\ unmarshall_container container clear inserter unmarshal
       (record_at id o buf')
     = Ok (fold_left inserter (map norm elems) (clear container),
           record_at id o' buf').
Proof.
  intros Hm Hum Hlen bytes buf' o' Ho Hroom.
  apply (writes_reads_round_trip _ _ bytes _ id o buf); try assumption.
  - unfold marshall_iterator, bytes.
    apply writes_bind; [apply writes_marshallLong |].
    apply writes_for_each. intros a _. apply Hm.
  - unfold unmarshall_container, bytes.
    eapply reads_bind; [apply reads_unmarshallLong |].
    rewrite to_long_to_uint_small, Nat2Z.id by lia.
    apply reads_unmarshall_container_loop. intros a _. apply Hum.
Qed.

End ContainerFacts.

Lemma map_round_trip_witness :
  let bytes := [0; 0; 0; 2; 0; 1; 0; 10; 0; 3; 0; 30] in
  unmarshallMap (H := signed_char_platform) Z.ltb [(1, 7); (3, 9)]
    unmarshallShort unmarshallShort (record_at 9 0 bytes)
  = Ok ([(1, 7); (3, 9)], record_at 9 12 bytes).
Proof.
  assert (Hrt : forall p : Z * Z,
            -32768 <= fst p <= 32767 -> -32768 <= snd p <= 32767 ->
            entry_round_trips (marshallShort (H := signed_char_platform))
              (marshallShort (H := signed_char_platform))
              unmarshallShort unmarshallShort
              (big_endian 2) (big_endian 2) p).
  { intros [k v] Hk Hv. cbn [fst snd] in *. repeat split.
    - apply writes_marshallShort.
    - apply writes_marshallShort.
    - rewrite <- (to_short_small k) at 2 by lia. apply reads_unmarshallShort.
    - rewrite <- (to_short_small v) at 2 by lia. apply reads_unmarshallShort. }
  destruct (map_round_trip (H := signed_char_platform) Z.ltb
              Z.ltb_irrefl
              (fun a b c Hab Hbc =>
                 proj2 (Z.ltb_lt a c)
                   (Z.lt_trans a b c (proj1 (Z.ltb_lt a b) Hab)
                      (proj1 (Z.ltb_lt b c) Hbc)))
              (marshallShort (H := signed_char_platform))
              (marshallShort (H := signed_char_platform))
              unmarshallShort unmarshallShort
              (big_endian 2) (big_endian 2)
              [(1, 10); (3, 30)] [(1, 7); (3, 9)] 9 0 (replicate 12 0)
              ltac:(repeat constructor)
              ltac:(repeat constructor)
              ltac:(constructor;
                      [apply Hrt; simpl; lia
                      | constructor; [apply Hrt; simpl; lia | constructor]])
              ltac:(simpl; lia) ltac:(lia) ltac:(simpl; lia))
    as (_ & _ & Hkeep).
  apply Hkeep.
  repeat constructor; cbn [fst]; [exists 7 | exists 9]; set_solver.
Defined.

Lemma container_round_trip_witness :
  unmarshall_container (H := signed_char_platform) [5] (fun _ => [])
    (fun c a => a :: c) unmarshallShort
    (record_at 1 0 [0; 0; 0; 2; 0; 3; 255; 252])
  = Ok ([-4; 3], record_at 1 8 [0; 0; 0; 2; 0; 3; 255; 252]).
Proof.
  destruct (container_round_trip (H := signed_char_platform)
              (marshallShort (H := signed_char_platform)) unmarshallShort
              (big_endian 2) to_short
              (fun _ => []) (fun c a => a :: c)
              [3; -4] [5] 1 0 (replicate 8 0)
              (fun a => writes_marshallShort (H := signed_char_platform) a)
              reads_unmarshallShort
              ltac:(simpl; lia) ltac:(lia) ltac:(simpl; lia)) as [_ Hr].
  exact Hr.
Defined.

(** ** Dates *)

Lemma decimal_snoc ds d : decimal (ds ++ [d]) = 10 * decimal ds + d.
Proof. unfold decimal. rewrite fold_left_app. reflexivity. Qed.

Lemma decimal_range ds :
  Forall (fun d => 0 <= d <= 9) ds ->
  0 <= decimal ds < 10 ^ Z.of_nat (length ds).
Proof.
  induction ds as [| d ds IH] using rev_ind; intros Hds.
  - unfold decimal. simpl. lia.
  - apply Forall_app in Hds as [Hds Hd]. apply Forall_cons in Hd as [Hd _].
    rewrite decimal_snoc, length_app, Nat2Z.inj_add.
    rewrite Z.pow_add_r by lia. change (10 ^ Z.of_nat (length [d])) with 10.
    specialize (IH Hds). lia.
Qed.

Lemma get_val_from_string_loop_digits ds :
  Forall (fun d => 0 <= d <= 9) ds ->
  forall ret pow,
    0 <= ret < pow -> pow * 10 ^ Z.of_nat (length ds) <= 1000000000 ->
    get_val_from_string_loop (rev (digit_chars ds)) ret pow
    = ret + pow * decimal ds.
Proof.
  induction ds as [| d ds IH] using rev_ind; intros Hds ret pow Hret Hpow.
  - simpl. unfold decimal. simpl. lia.
  - apply Forall_app in Hds as [Hds Hd]. apply Forall_cons in Hd as [Hd _].
    rewrite length_app, Nat2Z.inj_add, Z.pow_add_r in Hpow by lia.
    change (10 ^ Z.of_nat (length [d])) with 10 in Hpow.
    assert (Hone : 1 <= 10 ^ Z.of_nat (length ds))
      by (apply Z.lt_pred_le, Z.pow_pos_nonneg; lia).
    unfold digit_chars. rewrite map_app, rev_app_distr.
    cbn [map rev app get_val_from_string_loop].
    fold (digit_chars ds).
    replace (d + 48 - 48) with d by lia.
    rewrite (to_int_small (d * pow)) by nia.
    rewrite (to_int_small (ret + d * pow)) by nia.
    rewrite (to_int_small (pow * 10)) by nia.
    rewrite IH by (try assumption; nia).
    rewrite decimal_snoc. lia.
Qed.

Lemma get_val_from_string_slice buff ptr ds :
  0 <= ptr -> Forall (fun d => 0 <= d <= 9) ds -> (length ds <= 9)%nat ->
  take (length ds) (drop (Z.to_nat ptr) buff) = digit_chars ds ->
  get_val_from_string buff ptr (Z.of_nat (length ds)) = Some (decimal ds).
Proof.
  intros Hptr Hds Hlen Hat. unfold get_val_from_string.
  destruct (Z.leb_spec (Z.of_nat (length ds)) 0) as [Hnil |].
  - destruct ds; [reflexivity | simpl in Hnil; lia].
  - assert (Hroom : (length ds <= length (drop (Z.to_nat ptr) buff))%nat).
    { apply (f_equal length) in Hat.
      unfold digit_chars in Hat. rewrite length_take, length_map in Hat.
      lia. }
    rewrite length_drop in Hroom.
    destruct (Z.leb_spec 0 ptr); [| lia].
    destruct (Z.leb_spec (ptr + Z.of_nat (length ds))
                (Z.of_nat (length buff))); [| lia].
    cbn [andb]. rewrite Nat2Z.id, Hat.
    rewrite get_val_from_string_loop_digits; try assumption; try lia.
    + f_equal. lia.
    + assert (10 ^ Z.of_nat (length ds) <= 10 ^ 9)
        by (apply Z.pow_le_mono_r; lia).
      lia.
Qed.

(** X27.  [get_val_from_string] on up to nine decimal digits is the number they
    stand for.  It does not look for digits: one char of any other value
    counts as its distance from the char 0. *)
Theorem get_val_from_string_decimal pre ds post :
  Forall (fun d => 0 <= d <= 9) ds -> (length ds <= 9)%nat ->
  get_val_from_string (pre ++ digit_chars ds ++ post)
    (Z.of_nat (length pre)) (Z.of_nat (length ds))
  = Some (decimal ds)
  /\ forall c, -128 <= c <= 255 ->
       get_val_from_string (pre ++ c :: post) (Z.of_nat (length pre)) 1
       = Some (c - 48).
Proof.
  intros Hds Hlen. split.
  - apply get_val_from_string_slice; try assumption; [lia |].
    rewrite Nat2Z.id, drop_app_length.
    replace (length ds) with (length (digit_chars ds))
      by (unfold digit_chars; apply length_map).
    apply take_app_length.
  - intros c Hc. unfold get_val_from_string.
    change (1 <=? 0) with false. cbv iota.
    destruct (Z.leb_spec 0 (Z.of_nat (length pre))); [| lia].
    destruct (Z.leb_spec (Z.of_nat (length pre) + 1)
                (Z.of_nat (length (pre ++ c :: post))));
      [| rewrite length_app, length_cons in *; lia].
    cbn [andb]. rewrite Nat2Z.id, drop_app_length.
    change (rev (take (Z.to_nat 1) (c :: post))) with [c].
    cbn [get_val_from_string_loop].
    f_equal.
    rewrite (to_int_small ((c - 48) * 1)) by lia.
    rewrite to_int_small; lia.
Qed.

Lemma list_of_length_2 {A} (l : list A) :
  length l = 2%nat -> exists a b, l = [a; b].
Proof. destruct l as [| a [| b [| c l]]]; try discriminate. eauto. Qed.

Lemma list_of_length_4 {A} (l : list A) :
  length l = 4%nat -> exists a b c d, l = [a; b; c; d].
Proof.
  destruct l as [| a [| b [| c [| d [| e l]]]]]; try discriminate. eauto 6.
Qed.

(** X28.  [parse_date_string] on the fourteen digits and the flag char that
    [make_date_string] lays out: the fields are handed to [mktime] as they
    stand, the year less 1900, and the flag is daylight saving time exactly
    for the char D. *)
Theorem parse_date_string_fields mktime year mon mday hour min sec flag rest :
  Forall (fun d => 0 <= d <= 9) (year ++ mon ++ mday ++ hour ++ min ++ sec) ->
  length year = 4%nat -> length mon = 2%nat -> length mday = 2%nat ->
  length hour = 2%nat -> length min = 2%nat -> length sec = 2%nat ->
  parse_date_string mktime
    (digit_chars (year ++ mon ++ mday ++ hour ++ min ++ sec) ++ flag :: rest)
  = Some (mktime (mkTm (decimal year - 1900) (decimal mon) (decimal mday)
                    (decimal hour) (decimal min) (decimal sec)
                    (if flag =? 68 then 1 else 0))).
Proof.
  intros Hds Hy Hmo Hd Hh Hmi Hs.
  apply list_of_length_4 in Hy as (y1 & y2 & y3 & y4 & ->).
  apply list_of_length_2 in Hmo as (mo1 & mo2 & ->).
  apply list_of_length_2 in Hd as (d1 & d2 & ->).
  apply list_of_length_2 in Hh as (h1 & h2 & ->).
  apply list_of_length_2 in Hmi as (mi1 & mi2 & ->).
  apply list_of_length_2 in Hs as (s1 & s2 & ->).
  cbn [app] in Hds.
  repeat match goal with
         | Hf : Forall _ (_ :: _) |- _ => apply Forall_cons in Hf as [? Hf]
         end.
  unfold parse_date_string.
  set (buff := digit_chars _ ++ flag :: rest).
  assert (Hfield : forall ptr ds,
            0 <= ptr -> Forall (fun d => 0 <= d <= 9) ds ->
            (length ds <= 9)%nat ->
            take (length ds) (drop (Z.to_nat ptr) buff) = digit_chars ds ->
            get_val_from_string buff ptr (Z.of_nat (length ds))
            = Some (decimal ds))
    by (intros; apply get_val_from_string_slice; assumption).
  replace (get_val_from_string buff 0 4) with (Some (decimal [y1; y2; y3; y4]))
    by (symmetry; apply (Hfield 0 [y1; y2; y3; y4]);
        [lia
        | repeat first [apply Forall_nil_2 | apply Forall_cons_2; [assumption |]]
        | simpl; lia | reflexivity]).
  replace (get_val_from_string buff 4 2) with (Some (decimal [mo1; mo2]))
    by (symmetry; apply (Hfield 4 [mo1; mo2]);
        [lia
        | repeat first [apply Forall_nil_2 | apply Forall_cons_2; [assumption |]]
        | simpl; lia | reflexivity]).
  replace (get_val_from_string buff 6 2) with (Some (decimal [d1; d2]))
    by (symmetry; apply (Hfield 6 [d1; d2]);
        [lia
        | repeat first [apply Forall_nil_2 | apply Forall_cons_2; [assumption |]]
        | simpl; lia | reflexivity]).
  replace (get_val_from_string buff 8 2) with (Some (decimal [h1; h2]))
    by (symmetry; apply (Hfield 8 [h1; h2]);
        [lia
        | repeat first [apply Forall_nil_2 | apply Forall_cons_2; [assumption |]]
        | simpl; lia | reflexivity]).
  replace (get_val_from_string buff 10 2) with (Some (decimal [mi1; mi2]))
    by (symmetry; apply (Hfield 10 [mi1; mi2]);
        [lia
        | repeat first [apply Forall_nil_2 | apply Forall_cons_2; [assumption |]]
        | simpl; lia | reflexivity]).
  replace (get_val_from_string buff 12 2) with (Some (decimal [s1; s2]))
    by (symmetry; apply (Hfield 12 [s1; s2]);
        [lia
        | repeat first [apply Forall_nil_2 | apply Forall_cons_2; [assumption |]]
        | simpl; lia | reflexivity]).
  change (buff !! 14%nat) with (Some flag).
  cbn [mbind option_bind].
  pose proof (decimal_range [y1; y2; y3; y4]
                ltac:(repeat first [apply Forall_nil_2
                                   | apply Forall_cons_2; [assumption |]]))
    as Hyear.
  change (10 ^ Z.of_nat (length [y1; y2; y3; y4])) with 10000 in Hyear.
  rewrite to_int_small by lia. reflexivity.
Qed.

Lemma get_val_from_string_decimal_witness :
  get_val_from_string [50; 48; 50; 54; 49; 49; 48; 50] 4 2 = Some 11.
Proof.
  destruct (get_val_from_string_decimal [50; 48; 50; 54] [1; 1] [48; 50]
              ltac:(repeat constructor; lia) ltac:(simpl; lia)) as [Hd _].
  exact Hd.
Defined.

Lemma parse_date_string_fields_witness :
  parse_date_string tm_year
    [50; 48; 50; 54; 49; 48; 48; 50; 49; 53; 51; 48; 52; 53; 68; 0; 0; 0; 0; 0]
  = Some 126.
Proof.
  apply (parse_date_string_fields tm_year [2; 0; 2; 6] [1; 0] [0; 2] [1; 5]
           [3; 0] [4; 5] 68 [0; 0; 0; 0; 0]);
    [repeat constructor; lia | reflexivity ..].
Defined.
